(** * NBT readers of the mcc file tools, embedded in Rocq

    The repository holds three hand-written readers of the NBT format:
    - [NBTReader] of [complete_mcc_reader.py],
    - [NBTReader] of [snowball_timeline.py] (the same class, but its
      [read_tag] has no final [else]),
    - [DetailedNBTReader] of [find_owner.py], which skips tags.

    All of them pull bytes from an [io.BytesIO] and decode them with
    [struct.unpack]; strings go through [bytes.decode('utf-8',
    errors='replace')].  These three pieces of the Python library are modelled
    first, then the classes, then the properties. *)

From Stdlib Require Import ZArith List Lia Bool SpecFloat.
From Stdlib Require Import Strings.Byte.
Import ListNotations.
Open Scope Z_scope.
#[local] Set Warnings "-register-all".

(** ** Python values and exceptions *)

Definition bytes := list byte.

(** The integer 0..255 a byte stands for. *)
Definition u8 (b : byte) : Z := Z.of_N (Byte.to_N b).

(** A [str] is its sequence of code points. *)
Definition str := list Z.

Definition str_eqb (a b : str) : bool :=
  if list_eq_dec Z.eq_dec a b then true else false.

(** What the readers build: [None], [int], [float], [str], [list], [dict].
    A [dict] keeps its keys in insertion order. *)
Inductive value : Type :=
| VNone
| VInt (z : Z)
| VFloat (f : spec_float)
| VStr (s : str)
| VList (l : list value)
| VDict (d : list (str * value)).

Definition dict := list (str * value).

(** [d[k] = v]: an existing key keeps its place and takes the new value, a
    new key goes last. *)
Fixpoint dict_set (k : str) (v : value) (d : dict) : dict :=
  match d with
  | [] => [(k, v)]
  | (k', v') :: d' =>
      if str_eqb k k' then (k', v) :: d' else (k', v') :: dict_set k v d'
  end.

(** [d.get(k)] *)
Fixpoint dict_get (k : str) (d : dict) : option value :=
  match d with
  | [] => None
  | (k', v') :: d' => if str_eqb k k' then Some v' else dict_get k d'
  end.

Definition dict_keys (d : dict) : list str := map fst d.

(** The exceptions that can leave a reader: [struct.error] from a short
    [struct.unpack], the [ValueError] of [complete_mcc_reader.read_tag], and
    the interpreter's [RecursionError] when calls nest deeper than it
    allows.  The search of [find_owner.py] also prints, and [print] raises
    [UnicodeEncodeError] when standard output cannot encode the text. *)
Inductive exn : Type :=
| StructError
| ValueError (tag_type : Z)
| RecursionError
| UnicodeEncodeError.

Inductive result (A : Type) : Type :=
| Ok (a : A)
| Raise (e : exn).
Arguments Ok {A} a.
Arguments Raise {A} e.

(** ** io.BytesIO *)

Module BytesIO.

Record t : Type := mk { buf : bytes; pos : nat }.

(** [BytesIO(data)] *)
Definition open (data : bytes) : t := mk data 0.

Definition remaining (s : t) : bytes := skipn (pos s) (buf s).

(** [s.read(size)]: at most [size] bytes, fewer at the end of the buffer; a
    negative [size] reads everything that is left.  The position moves by
    the number of bytes returned. *)
Definition read (size : Z) (s : t) : bytes * t :=
  let avail := remaining s in
  let got := if size <? 0 then avail else firstn (Z.to_nat size) avail in
  (got, mk (buf s) (pos s + length got)).

End BytesIO.

(** ** Reader methods: a state and exception monad over the stream *)

Definition M (A : Type) : Type := BytesIO.t -> result (A * BytesIO.t).

Definition ret {A} (a : A) : M A := fun s => Ok (a, s).

Definition raise {A} (e : exn) : M A := fun _ => Raise e.

Definition bind {A B} (m : M A) (k : A -> M B) : M B :=
  fun s => match m s with
           | Ok (a, s') => k a s'
           | Raise e => Raise e
           end.

Notation "x <- m ;; k" := (bind m (fun x => k))
  (at level 61, m at next level, right associativity).
Notation "m ;;; k" := (bind m (fun _ => k))
  (at level 61, right associativity).

(** [self.stream.read(size)] *)
Definition stream_read (size : Z) : M bytes :=
  fun s => Ok (BytesIO.read size s).

(** [len(range(length))] *)
Definition range (length : Z) : nat := Z.to_nat length.

(** [[m for _ in range(n)]] *)
Fixpoint comprehension {A} (n : nat) (m : M A) : M (list A) :=
  match n with
  | O => ret []
  | S n' => x <- m ;; xs <- comprehension n' m ;; ret (x :: xs)
  end.

(** [for _ in range(n): m] *)
Fixpoint for_range (n : nat) (m : M unit) : M unit :=
  match n with
  | O => ret tt
  | S n' => m ;;; for_range n' m
  end.

(** ** struct.unpack, big-endian formats *)

Module Struct.

Fixpoint be_fold (acc : Z) (bs : bytes) : Z :=
  match bs with
  | [] => acc
  | b :: bs' => be_fold (acc * 256 + u8 b) bs'
  end.

Definition unsigned (bs : bytes) : Z := be_fold 0 bs.

(** Two's complement reading of [size] bytes. *)
Definition signed (size : nat) (bs : bytes) : Z :=
  let u := unsigned bs in
  let m := 2 ^ (8 * Z.of_nat size) in
  if u <? m / 2 then u else u - m.

(** The number an IEEE-754 word with [ebits] exponent bits and [mbits]
    fraction bits denotes, as sign, mantissa and binary exponent. *)
Definition ieee (ebits mbits : Z) (w : Z) : spec_float :=
  let sign := Z.testbit w (ebits + mbits) in
  let e := (w / 2 ^ mbits) mod 2 ^ ebits in
  let m := w mod 2 ^ mbits in
  let bias := 2 ^ (ebits - 1) - 1 in
  if e =? 0 then
    if m =? 0 then S754_zero sign
    else S754_finite sign (Z.to_pos m) (1 - bias - mbits)
  else if e =? 2 ^ ebits - 1 then
    if m =? 0 then S754_infinity sign else S754_nan
  else S754_finite sign (Z.to_pos (m + 2 ^ mbits)) (e - bias - mbits).

(** [struct.unpack(fmt, bs)[0]] raises [struct.error] unless [bs] has
    exactly the size of the format. *)
Definition unpack {A} (size : nat) (f : bytes -> A) (bs : bytes) : M A :=
  if Nat.eqb (length bs) size then ret (f bs) else raise StructError.

Definition unpack_b : bytes -> M Z := unpack 1 (signed 1).   (* '>b' *)
Definition unpack_B : bytes -> M Z := unpack 1 unsigned.     (* '>B' *)
Definition unpack_h : bytes -> M Z := unpack 2 (signed 2).   (* '>h' *)
Definition unpack_H : bytes -> M Z := unpack 2 unsigned.     (* '>H' *)
Definition unpack_i : bytes -> M Z := unpack 4 (signed 4).   (* '>i' *)
Definition unpack_q : bytes -> M Z := unpack 8 (signed 8).   (* '>q' *)
Definition unpack_f : bytes -> M spec_float :=                (* '>f' *)
    unpack 4 (fun bs => ieee 8 23 (unsigned bs)).
Definition unpack_d : bytes -> M spec_float :=                (* '>d' *)
    unpack 8 (fun bs => ieee 11 52 (unsigned bs)).

End Struct.

(** ** bytes.decode('utf-8', errors='replace') *)

Module Utf8.

Definition REPLACEMENT : Z := 0xFFFD.

Definition is_continuation (b : Z) : bool := (0x80 <=? b) && (b <=? 0xBF).

(** The decoder reads a lead byte and the continuation bytes it calls for.
    A byte that cannot start a sequence, and a started sequence cut short
    by a byte that cannot continue it or by the end of the input, become
    one U+FFFD each; decoding resumes at the byte that did not fit. *)
Fixpoint decode_replace (bs : bytes) : str :=
  match bs with
  | [] => []
  | b0 :: t1 =>
    let ch := u8 b0 in
    if ch <? 0x80 then ch :: decode_replace t1
    else if ch <? 0xC2 then REPLACEMENT :: decode_replace t1
    else if ch <? 0xE0 then
      match t1 with
      | [] => [REPLACEMENT]
      | b1 :: t2 =>
        let ch2 := u8 b1 in
        if is_continuation ch2
        then ((ch - 0xC0) * 64 + (ch2 - 0x80)) :: decode_replace t2
        else REPLACEMENT :: decode_replace t1
      end
    else if ch <? 0xF0 then
      match t1 with
      | [] => [REPLACEMENT]
      | b1 :: t2 =>
        let ch2 := u8 b1 in
        if negb (is_continuation ch2)
           || (if ch2 <? 0xA0 then ch =? 0xE0 else ch =? 0xED)
        then REPLACEMENT :: decode_replace t1
        else
          match t2 with
          | [] => [REPLACEMENT]
          | b2 :: t3 =>
            let ch3 := u8 b2 in
            if is_continuation ch3
            then ((ch - 0xE0) * 4096 + (ch2 - 0x80) * 64 + (ch3 - 0x80))
                   :: decode_replace t3
            else REPLACEMENT :: decode_replace t2
          end
      end
    else if ch <? 0xF5 then
      match t1 with
      | [] => [REPLACEMENT]
      | b1 :: t2 =>
        let ch2 := u8 b1 in
        if negb (is_continuation ch2)
           || (if ch2 <? 0x90 then ch =? 0xF0 else ch =? 0xF4)
        then REPLACEMENT :: decode_replace t1
        else
          match t2 with
          | [] => [REPLACEMENT]
          | b2 :: t3 =>
            let ch3 := u8 b2 in
            if negb (is_continuation ch3)
            then REPLACEMENT :: decode_replace t2
            else
              match t3 with
              | [] => [REPLACEMENT]
              | b3 :: t4 =>
                let ch4 := u8 b3 in
                if is_continuation ch4
                then ((ch - 0xF0) * 262144 + (ch2 - 0x80) * 4096
                      + (ch3 - 0x80) * 64 + (ch4 - 0x80))
                       :: decode_replace t4
                else REPLACEMENT :: decode_replace t3
              end
          end
      end
    else REPLACEMENT :: decode_replace t1
  end.

(** A Unicode scalar value: a code point that is not a surrogate. *)
Definition scalar (c : Z) : Prop :=
  (0 <= c < 0xD800) \/ (0xE000 <= c <= 0x10FFFF).

(** [chr(c).encode('utf-8')] for a scalar value [c], as numbers. *)
Definition encode1 (c : Z) : list Z :=
  if c <? 0x80 then [c]
  else if c <? 0x800 then [0xC0 + c / 64; 0x80 + c mod 64]
  else if c <? 0x10000 then
    [0xE0 + c / 4096; 0x80 + (c / 64) mod 64; 0x80 + c mod 64]
  else [0xF0 + c / 262144; 0x80 + (c / 4096) mod 64;
        0x80 + (c / 64) mod 64; 0x80 + c mod 64].

End Utf8.

(** ** The NBTReader class

    [complete_mcc_reader.py] and [snowball_timeline.py] define the same class
    but for the last branch of [read_tag]: the first raises [ValueError], the
    second falls off the end of the [if] chain and returns [None].  The class
    is written once, over that branch. *)

Definition TAG_End : Z := 0.
Definition TAG_Byte : Z := 1.
Definition TAG_Short : Z := 2.
Definition TAG_Int : Z := 3.
Definition TAG_Long : Z := 4.
Definition TAG_Float : Z := 5.
Definition TAG_Double : Z := 6.
Definition TAG_Byte_Array : Z := 7.
Definition TAG_String : Z := 8.
Definition TAG_List : Z := 9.
Definition TAG_Compound : Z := 10.
Definition TAG_Int_Array : Z := 11.
Definition TAG_Long_Array : Z := 12.

Definition read_byte : M Z := bs <- stream_read 1 ;; Struct.unpack_b bs.
Definition read_ubyte : M Z := bs <- stream_read 1 ;; Struct.unpack_B bs.
Definition read_short : M Z := bs <- stream_read 2 ;; Struct.unpack_h bs.
Definition read_int : M Z := bs <- stream_read 4 ;; Struct.unpack_i bs.
Definition read_long : M Z := bs <- stream_read 8 ;; Struct.unpack_q bs.
Definition read_float : M spec_float :=
  bs <- stream_read 4 ;; Struct.unpack_f bs.
Definition read_double : M spec_float :=
  bs <- stream_read 8 ;; Struct.unpack_d bs.

Definition read_string : M str :=
  hdr <- stream_read 2 ;;
  length <- Struct.unpack_H hdr ;;
  payload <- stream_read length ;;
  ret (Utf8.decode_replace payload).

Section NBTReader.

(** The last branch of [read_tag]. *)
Variable otherwise : Z -> M value.

Section Methods.

(** [self.read_tag], as the methods below call it. *)
Variable read_tag : Z -> M value.

Definition read_list_with : M value :=
  tag_type <- read_ubyte ;;
  length <- read_int ;;
  l <- comprehension (range length) (read_tag tag_type) ;;
  ret (VList l).

(** The [while True] loop of [read_compound].  A turn that does not
    leave the loop has read at least the type byte, so the loop makes at
    most as many turns as bytes are left, plus the one that fails or
    breaks; [turns] counts them down and never reaches [O] when it
    starts above the number of bytes left. *)
Fixpoint compound_loop (turns : nat) (result : dict) : M value :=
  match turns with
  | O => raise StructError
  | S turns' =>
    tag_type <- read_ubyte ;;
    if tag_type =? TAG_End then ret (VDict result)
    else
      name <- read_string ;;
      v <- read_tag tag_type ;;
      compound_loop turns' (dict_set name v result)
  end.

Definition read_compound_with : M value :=
  fun s => compound_loop (S (length (BytesIO.remaining s))) [] s.

Definition read_tag_with (tag_type : Z) : M value :=
  if tag_type =? TAG_End then ret VNone
  else if tag_type =? TAG_Byte then z <- read_byte ;; ret (VInt z)
  else if tag_type =? TAG_Short then z <- read_short ;; ret (VInt z)
  else if tag_type =? TAG_Int then z <- read_int ;; ret (VInt z)
  else if tag_type =? TAG_Long then z <- read_long ;; ret (VInt z)
  else if tag_type =? TAG_Float then f <- read_float ;; ret (VFloat f)
  else if tag_type =? TAG_Double then f <- read_double ;; ret (VFloat f)
  else if tag_type =? TAG_Byte_Array then
    length <- read_int ;;
    l <- comprehension (range length) (z <- read_byte ;; ret (VInt z)) ;;
    ret (VList l)
  else if tag_type =? TAG_String then s <- read_string ;; ret (VStr s)
  else if tag_type =? TAG_List then read_list_with
  else if tag_type =? TAG_Compound then read_compound_with
  else if tag_type =? TAG_Int_Array then
    length <- read_int ;;
    l <- comprehension (range length) (z <- read_int ;; ret (VInt z)) ;;
    ret (VList l)
  else if tag_type =? TAG_Long_Array then
    length <- read_int ;;
    l <- comprehension (range length) (z <- read_long ;; ret (VInt z)) ;;
    ret (VList l)
  else otherwise tag_type.

End Methods.

(** [depth] is the number of nested [read_tag] calls the interpreter still
    allows; a call it does not allow raises [RecursionError]. *)
Fixpoint read_tag (depth : nat) : Z -> M value :=
  match depth with
  | O => fun _ => raise RecursionError
  | S depth' => read_tag_with (read_tag depth')
  end.

Definition read_list (depth : nat) : M value :=
  read_list_with (read_tag depth).

Definition read_compound (depth : nat) : M value :=
  read_compound_with (read_tag depth).

(** [None] for an empty document, else [{name: data}]. *)
Definition read_root (depth : nat) : M value :=
  tag_type <- read_ubyte ;;
  if tag_type =? TAG_End then ret VNone
  else
    name <- read_string ;;
    data <- read_tag depth tag_type ;;
    ret (VDict [(name, data)]).

(** [NBTReader(data).read_root()] *)
Definition decode (depth : nat) (data : bytes) : result value :=
  match read_root depth (BytesIO.open data) with
  | Ok (v, _) => Ok v
  | Raise e => Raise e
  end.

End NBTReader.

(** [complete_mcc_reader.NBTReader] *)
Module CompleteMccReader.
Definition otherwise (tag_type : Z) : M value := raise (ValueError tag_type).
Definition read_tag := read_tag otherwise.
Definition read_list := read_list otherwise.
Definition read_compound := read_compound otherwise.
Definition read_root := read_root otherwise.
Definition decode := decode otherwise.
End CompleteMccReader.

(** [snowball_timeline.NBTReader] *)
Module SnowballTimeline.
Definition otherwise (tag_type : Z) : M value := ret VNone.
Definition read_tag := read_tag otherwise.
Definition read_list := read_list otherwise.
Definition read_compound := read_compound otherwise.
Definition read_root := read_root otherwise.
Definition decode := decode otherwise.
End SnowballTimeline.

(** ** find_owner.DetailedNBTReader: skipping

    The class has its own [read_ubyte], [read_int] and [read_string], written
    as in [NBTReader]; the definitions above serve for both. *)

Module FindOwner.

Section Methods.

Variable skip_tag : Z -> M unit.

Fixpoint skip_compound_loop (turns : nat) : M unit :=
  match turns with
  | O => raise StructError
  | S turns' =>
    tag_type <- read_ubyte ;;
    if tag_type =? 0 then ret tt
    else read_string ;;; skip_tag tag_type ;;; skip_compound_loop turns'
  end.

Definition skip_compound_with : M unit :=
  fun s => skip_compound_loop (S (length (BytesIO.remaining s))) s.

Definition skip_tag_with (tag_type : Z) : M unit :=
  if tag_type =? 0 then ret tt
  else if tag_type =? 1 then stream_read 1 ;;; ret tt
  else if tag_type =? 2 then stream_read 2 ;;; ret tt
  else if tag_type =? 3 then stream_read 4 ;;; ret tt
  else if tag_type =? 4 then stream_read 8 ;;; ret tt
  else if tag_type =? 5 then stream_read 4 ;;; ret tt
  else if tag_type =? 6 then stream_read 8 ;;; ret tt
  else if tag_type =? 7 then
    length <- read_int ;; stream_read length ;;; ret tt
  else if tag_type =? 8 then read_string ;;; ret tt
  else if tag_type =? 9 then
    list_type <- read_ubyte ;;
    length <- read_int ;;
    for_range (range length) (skip_tag list_type)
  else if tag_type =? 10 then skip_compound_with
  else if tag_type =? 11 then
    length <- read_int ;; stream_read (length * 4) ;;; ret tt
  else if tag_type =? 12 then
    length <- read_int ;; stream_read (length * 8) ;;; ret tt
  else ret tt.

End Methods.

Fixpoint skip_tag (depth : nat) : Z -> M unit :=
  match depth with
  | O => fun _ => raise RecursionError
  | S depth' => skip_tag_with (skip_tag depth')
  end.

Definition skip_compound (depth : nat) : M unit :=
  skip_compound_with (skip_tag depth).

End FindOwner.

(** ** Derived notions used by the statements *)

(** The stream [k] bytes further on. *)
Definition advance (k : nat) (s : BytesIO.t) : BytesIO.t :=
  BytesIO.mk (BytesIO.buf s) (BytesIO.pos s + k).

(** Number of bytes not read yet. *)
Definition left (s : BytesIO.t) : nat := length (BytesIO.remaining s).

(** The byte with a given number (taken modulo 256). *)
Definition byte_of (z : Z) : byte :=
  match Byte.of_N (Z.to_N (z mod 256)) with
  | Some b => b
  | None => x00
  end.

(** How deep compounds nest inside a decoded value. *)
Fixpoint compound_depth (v : value) : nat :=
  match v with
  | VList l =>
      (fix over (l : list value) : nat :=
         match l with
         | [] => O
         | x :: l' => Nat.max (compound_depth x) (over l')
         end) l
  | VDict d =>
      S ((fix over (d : list (str * value)) : nat :=
            match d with
            | [] => O
            | (_, x) :: d' => Nat.max (compound_depth x) (over d')
            end) d)
  | _ => O
  end.

(** A method moves the stream forward only, within the buffer. *)
Definition forward {A} (m : M A) : Prop :=
  forall s a s', m s = Ok (a, s') ->
  exists k, (k <= left s)%nat /\ s' = advance k s.


(** [m2] does what [m1] does wherever [m1] stays within the interpreter's
    recursion limit. *)
Definition below {A} (m1 m2 : M A) : Prop :=
  forall s, m1 s <> Raise RecursionError -> m2 s = m1 s.

(** [m] stays within the recursion limit on streams with fewer than [n]
    bytes left. *)
Definition safe {A} (n : nat) (m : M A) : Prop :=
  forall s, (left s < n)%nat -> m s <> Raise RecursionError.

(** The payload of an empty compound inside [d] compounds, each holding one
    entry with the empty name: [d + 1] compounds deep. *)
Fixpoint nested_compound (d : nat) : bytes :=
  match d with
  | O => [x00]
  | S d' => [x0a; x00; x00] ++ nested_compound d' ++ [x00]
  end.

(** What it decodes to. *)
Fixpoint nested_value (d : nat) : value :=
  match d with
  | O => VDict []
  | S d' => VDict [([], nested_value d')]
  end.

(** ** The spec's wording of the two containers

    These follow the specification, not the code; the theorems compare them
    with [read_compound] and [read_list]. *)

(** Compound: "repeatedly read a tag-type byte; if it is End, stop;
    otherwise read a name then decode a tag of that type".  [entries] are
    the (name, value) pairs in read order. *)
Inductive spec_compound (read_tag : Z -> M value)
  : BytesIO.t -> list (str * value) -> BytesIO.t -> Prop :=
| spec_compound_end : forall s s1,
    read_ubyte s = Ok (TAG_End, s1) ->
    spec_compound read_tag s [] s1
| spec_compound_entry : forall s tag_type s1 name s2 v s3 entries s4,
    read_ubyte s = Ok (tag_type, s1) ->
    tag_type <> TAG_End ->
    read_string s1 = Ok (name, s2) ->
    read_tag tag_type s2 = Ok (v, s3) ->
    spec_compound read_tag s3 entries s4 ->
    spec_compound read_tag s ((name, v) :: entries) s4.

(** "inserting (name, value) into the result mapping in read order" *)
Definition insert_all (entries : list (str * value)) (d : dict) : dict :=
  fold_left (fun d kv => dict_set (fst kv) (snd kv) d) entries d.

(** The value of the last entry called [name]. *)
Fixpoint last_value (name : str) (entries : list (str * value))
  : option value :=
  match entries with
  | [] => None
  | (k, v) :: entries' =>
      match last_value name entries' with
      | Some w => Some w
      | None => if str_eqb name k then Some v else None
      end
  end.

(** List: "decode that many elements by recursively invoking this same
    dispatch with the element type"; [m] decodes one element. *)
Inductive spec_elements {A} (m : M A)
  : nat -> BytesIO.t -> list A -> BytesIO.t -> Prop :=
| spec_elements_done : forall s, spec_elements m O s [] s
| spec_elements_next : forall n s v s1 vs s2,
    m s = Ok (v, s1) ->
    spec_elements m n s1 vs s2 ->
    spec_elements m (S n) s (v :: vs) s2.

(** [s.encode('utf-8')] for a text of scalar values. *)
Definition utf8_encode (cs : str) : bytes :=
  map byte_of (flat_map Utf8.encode1 cs).

(** The bytes [p] begin the UTF-8 form of some scalar value. *)
Definition begins_scalar (p : bytes) : Prop :=
  exists c tail,
    Utf8.scalar c /\ map byte_of (Utf8.encode1 c) = p ++ tail.

(** ** Negative array counts met while reading

    [negative_count otherwise depth tag_type s]: when [read_tag] reads a tag
    of type [tag_type] at [s], it reads, for some ByteArray, IntArray or
    LongArray (the tag itself or one nested in it), a count below zero. *)
Section NegativeCount.

Variable otherwise : Z -> M value.

Inductive negative_count : nat -> Z -> BytesIO.t -> Prop :=
| negative_array : forall depth tag_type s count s1,
    tag_type = TAG_Byte_Array \/ tag_type = TAG_Int_Array
    \/ tag_type = TAG_Long_Array ->
    read_int s = Ok (count, s1) -> count < 0 ->
    negative_count (S depth) tag_type s
| negative_in_list : forall depth s list_type s1 count s2,
    read_ubyte s = Ok (list_type, s1) ->
    read_int s1 = Ok (count, s2) ->
    negative_element depth list_type (Z.to_nat count) s2 ->
    negative_count (S depth) TAG_List s
| negative_in_compound : forall depth s,
    negative_entry depth s ->
    negative_count (S depth) TAG_Compound s

with negative_element : nat -> Z -> nat -> BytesIO.t -> Prop :=
| negative_element_here : forall depth list_type n s,
    negative_count depth list_type s ->
    negative_element depth list_type (S n) s
| negative_element_later : forall depth list_type n s v s1,
    read_tag otherwise depth list_type s = Ok (v, s1) ->
    negative_element depth list_type n s1 ->
    negative_element depth list_type (S n) s

with negative_entry : nat -> BytesIO.t -> Prop :=
| negative_entry_here : forall depth s tag_type s1 name s2,
    read_ubyte s = Ok (tag_type, s1) -> tag_type <> TAG_End ->
    read_string s1 = Ok (name, s2) ->
    negative_count depth tag_type s2 ->
    negative_entry depth s
| negative_entry_later : forall depth s tag_type s1 name s2 v s3,
    read_ubyte s = Ok (tag_type, s1) -> tag_type <> TAG_End ->
    read_string s1 = Ok (name, s2) ->
    read_tag otherwise depth tag_type s2 = Ok (v, s3) ->
    negative_entry depth s3 ->
    negative_entry depth s.

End NegativeCount.

(** ** Comparing two runs up to a class of exceptions

    [m2] does what [m1] does wherever [m1] does not end in an exception of
    the class [P]. *)
Definition unless {A} (P : exn -> Prop) (m1 m2 : M A) : Prop :=
  forall s, (forall e, m1 s = Raise e -> ~ P e) -> m2 s = m1 s.

(** The exceptions [complete_mcc_reader.read_tag] raises by itself. *)
Definition is_value_error (e : exn) : Prop := exists c, e = ValueError c.

(** Bytes per element of ByteArray (7), IntArray (11) and LongArray (12). *)
Definition array_width (tag_type : Z) : nat :=
  if tag_type =? TAG_Byte_Array then 1%nat
  else if tag_type =? TAG_Int_Array then 4%nat
  else 8%nat.

(** A signed integer of [width] bytes. *)
Definition is_int_of_width (width : nat) (v : value) : Prop :=
  exists z, v = VInt z /\
            - 2 ^ (8 * Z.of_nat width - 1) <= z < 2 ^ (8 * Z.of_nat width - 1).

(** Bytes of the payload of the fixed-width tags 1..6 (Byte, Short, Int,
    Long, Float, Double). *)
Definition fixed_width (tag_type : Z) : nat :=
  if tag_type =? TAG_Byte then 1%nat
  else if tag_type =? TAG_Short then 2%nat
  else if tag_type =? TAG_Int then 4%nat
  else if tag_type =? TAG_Long then 8%nat
  else if tag_type =? TAG_Float then 4%nat
  else 8%nat.

(** [m] looks at no byte beyond those it consumes: a run of [m] that stops
    before the end of the buffer is repeated, with the same result and the
    same number of bytes consumed, on every stream that has the same bytes
    ahead. *)
Definition local {A} (m : M A) : Prop :=
  forall s a k, m s = Ok (a, advance k s) -> (k < left s)%nat ->
  forall s2,
    firstn k (BytesIO.remaining s2) = firstn k (BytesIO.remaining s) ->
    (k <= left s2)%nat ->
    m s2 = Ok (a, advance k s2).

(** [m] depends on the stream only through the bytes ahead of the cursor:
    on two streams with the same bytes ahead it gives the same result or the
    same exception and consumes the same number of bytes. *)
Definition positional {A} (m : M A) : Prop :=
  forall s s2, BytesIO.remaining s2 = BytesIO.remaining s ->
  match m s with
  | Ok (a, s') => exists k, s' = advance k s /\ m s2 = Ok (a, advance k s2)
  | Raise e => m s2 = Raise e
  end.

(** ** Buffers cut short

    The stream [s2] is [s] with its buffer cut off [n] bytes ahead of the
    cursor: it has ahead the first [n] of the bytes that [s] has, and then
    its end. *)
Definition truncated (n : nat) (s s2 : BytesIO.t) : Prop :=
  BytesIO.remaining s2 = firstn n (BytesIO.remaining s).

(** On a buffer cut off inside the bytes that a run of [m] consumed, [m]
    fails with [struct.error]. *)
Definition cut_fails {A} (m : M A) : Prop :=
  forall s a k, m s = Ok (a, advance k s) ->
  forall n s2, (n < k)%nat -> truncated n s s2 -> m s2 = Raise StructError.

(** On such a buffer [m] fails with [struct.error] or returns with the
    buffer used up. *)
Definition cut_ends {A} (m : M A) : Prop :=
  forall s a k, m s = Ok (a, advance k s) ->
  forall n s2, (n < k)%nat -> truncated n s s2 ->
  m s2 = Raise StructError \/ exists a', m s2 = Ok (a', advance n s2).

(** On a buffer cut off behind the bytes that a run of [m] consumed, the run
    is the same. *)
Definition repeats {A} (m : M A) : Prop :=
  forall s a k, m s = Ok (a, advance k s) ->
  forall n s2, (k <= n)%nat -> truncated n s s2 ->
  m s2 = Ok (a, advance k s2).

(** At the end of the buffer [m] fails with [struct.error] or returns
    without reading. *)
Definition at_end {A} (m : M A) : Prop :=
  forall s, left s = 0%nat ->
  m s = Raise StructError \/ exists a, m s = Ok (a, s).

(** The tag types whose payload has a fixed width (1..6), is a count of
    fixed-width elements (7, 11, 12) or ends with an End byte (10): all but
    End, String, List and the unknown ones. *)
Definition strict_tag (tag_type : Z) : Prop :=
  1 <= tag_type <= 7 \/ 10 <= tag_type <= 12.

(** ** snowball_timeline.extract_snowball_ages *)

From Stdlib Require String Ascii.

(** Python string literals of the sources, as [str]. *)
Module Literal.
Import Stdlib.Strings.String Stdlib.Strings.Ascii.

(** The code points of an ASCII literal. *)
Fixpoint py (s : string) : str :=
  match s with
  | EmptyString => []
  | String a s' => Z.of_N (N_of_ascii a) :: py s'
  end.

Definition Entities : str := Eval cbv in py "Entities".
Definition id : str := Eval cbv in py "id".
Definition minecraft_snowball : str := Eval cbv in py "minecraft:snowball".
Definition Age : str := Eval cbv in py "Age".
Definition Pos : str := Eval cbv in py "Pos".
Definition Motion : str := Eval cbv in py "Motion".
Definition age : str := Eval cbv in py "age".
Definition pos : str := Eval cbv in py "pos".
Definition motion : str := Eval cbv in py "motion".
Definition owner : str := Eval cbv in py "owner".
Definition thrower : str := Eval cbv in py "thrower".
Definition source : str := Eval cbv in py "source".
Definition player : str := Eval cbv in py "player".
End Literal.

Module SnowballAges.

(** [d.get(k, default)] *)
Definition get (k : str) (default : value) (d : dict) : value :=
  match dict_get k d with
  | Some v => v
  | None => default
  end.

(** [isinstance(entity, dict) and entity.get('id') == 'minecraft:snowball'];
    the dict when the test holds. *)
Definition snowball (entity : value) : option dict :=
  match entity with
  | VDict d =>
      match dict_get Literal.id d with
      | Some (VStr s) =>
          if str_eqb s Literal.minecraft_snowball then Some d else None
      | _ => None
      end
  | _ => None
  end.

(** The dict appended for a snowball:
    [{'age': entity.get('Age', 0), 'pos': entity.get('Pos', [0, 0, 0]),
      'motion': entity.get('Motion', [0, 0, 0])}]. *)
Definition report (entity : dict) : value :=
  VDict [(Literal.age, get Literal.Age (VInt 0) entity);
         (Literal.pos,
          get Literal.Pos (VList [VInt 0; VInt 0; VInt 0]) entity);
         (Literal.motion,
          get Literal.Motion (VList [VInt 0; VInt 0; VInt 0]) entity)].

(** The loop over [obj['Entities']]. *)
Definition reports (entities : list value) : list value :=
  flat_map (fun entity =>
              match snowball entity with
              | Some d => [report d]
              | None => []
              end) entities.

(** [traverse(obj)]: what it appends to [snowballs], in order.  (The [path]
    argument is built and passed on but never used.) *)
Fixpoint traverse (obj : value) : list value :=
  match obj with
  | VDict d =>
      (match dict_get Literal.Entities d with
       | Some (VList entities) => reports entities
       | _ => []
       end)
      ++ (fix items (d : list (str * value)) : list value :=
            match d with
            | [] => []
            | (_, v) :: d' => traverse v ++ items d'
            end) d
  | VList l =>
      (fix each (l : list value) : list value :=
         match l with
         | [] => []
         | item :: l' => traverse item ++ each l'
         end) l
  | _ => []
  end.

Definition extract_snowball_ages (nbt_data : value) : list value :=
  traverse nbt_data.

End SnowballAges.

(** [v] occurs in [w]: it is [w], or occurs in an item of the list [w] or in
    a value of the dict [w]. *)
Inductive inside (v : value) : value -> Prop :=
| inside_here : inside v v
| inside_list : forall item l, In item l -> inside v item -> inside v (VList l)
| inside_dict : forall k x d, In (k, x) d -> inside v x -> inside v (VDict d).

(** No dict in [v] has a list under the key 'Entities'. *)
Definition without_entities (v : value) : Prop :=
  forall d entities,
    inside (VDict d) v ->
    dict_get Literal.Entities d <> Some (VList entities).

(** ** find_owner.DetailedNBTReader: the search

    [search_compound] catches the exceptions raised under it and goes on, so
    what a failed read leaves behind matters: the methods are written here
    over the whole object (stream, [player_info], what was printed) and
    return that state whether they end normally or in an exception. *)

Module OwnerSearch.

(** What [print] is called with. *)
Inductive line : Type :=
| RootTag (root_name : str)                    (* "Root tag: ..." *)
| Found (depth : nat) (name : str) (tag_type : Z)
| Value (depth : nat) (value : value)
| SearchEnded (e : exn)                        (* "Search ended: ..." *)
| ErrorDuringSearch (e : exn).                 (* "Error during search: ..." *)

Record reader : Type :=
  mk { stream : BytesIO.t; player_info : list value; printed : list line }.

Definition P (A : Type) : Type := reader -> result A * reader.

Definition ret {A} (a : A) : P A := fun r => (Ok a, r).

Definition raise {A} (e : exn) : P A := fun r => (Raise e, r).

Definition bind {A B} (m : P A) (k : A -> P B) : P B :=
  fun r => match m r with
           | (Ok a, r') => k a r'
           | (Raise e, r') => (Raise e, r')
           end.

Notation "x <~ m ;; k" := (bind m (fun x => k))
  (at level 61, m at next level, right associativity).
Notation "m ~;; k" := (bind m (fun _ => k))
  (at level 61, right associativity).

(** [try: body / except Exception as e: handler(e)] *)
Definition try {A} (body : P A) (handler : exn -> P A) : P A :=
  fun r => match body r with
           | (Ok a, r') => (Ok a, r')
           | (Raise e, r') => handler e r'
           end.

(** [self.stream.read(size)] *)
Definition stream_read (size : Z) : P bytes :=
  fun r => let (bs, s') := BytesIO.read size (stream r) in
           (Ok bs, mk s' (player_info r) (printed r)).

(** [struct.unpack(fmt, bs)[0]] *)
Definition unpack {A} (size : nat) (f : bytes -> A) (bs : bytes) : P A :=
  if Nat.eqb (length bs) size then ret (f bs) else raise StructError.

(** The part of a printed line that comes from the buffer: a name or a
    string value.  The rest of a line (the words of the format, numbers, the
    message of an exception) is ASCII. *)
Definition text_of (l : line) : str :=
  match l with
  | RootTag root_name => root_name
  | Found _ name _ => name
  | Value _ (VStr s) => s
  | _ => []
  end.

(** [print(...)].  Standard output encodes the line before it writes
    anything and raises [UnicodeEncodeError] when the line has a character
    that its encoding lacks; [encodable] tells the code points it has
    (ASCII is taken to be among them). *)
Definition print (encodable : Z -> bool) (l : line) : P unit :=
  fun r => if forallb encodable (text_of l)
           then (Ok tt, mk (stream r) (player_info r) (printed r ++ [l]))
           else (Raise UnicodeEncodeError, r).

(** [self.player_info.append(entry)] *)
Definition append (entry : value) : P unit :=
  fun r => (Ok tt, mk (stream r) (player_info r ++ [entry]) (printed r)).

Definition read_ubyte : P Z :=
  bs <~ stream_read 1 ;; unpack 1 Struct.unsigned bs.
Definition read_int : P Z :=
  bs <~ stream_read 4 ;; unpack 4 (Struct.signed 4) bs.
Definition read_long : P Z :=
  bs <~ stream_read 8 ;; unpack 8 (Struct.signed 8) bs.

Definition read_string : P str :=
  hdr <~ stream_read 2 ;;
  length <~ unpack 2 Struct.unsigned hdr ;;
  payload <~ stream_read length ;;
  ret (Utf8.decode_replace payload).

(** [for _ in range(n): m] *)
Fixpoint for_range (n : nat) (m : P unit) : P unit :=
  match n with
  | O => ret tt
  | S n' => m ~;; for_range n' m
  end.

Section Skip.

Variable skip_tag : Z -> P unit.

Fixpoint skip_compound_loop (turns : nat) : P unit :=
  match turns with
  | O => raise StructError
  | S turns' =>
    tag_type <~ read_ubyte ;;
    if tag_type =? 0 then ret tt
    else read_string ~;; skip_tag tag_type ~;; skip_compound_loop turns'
  end.

Definition skip_compound_with : P unit :=
  fun r => skip_compound_loop (S (left (stream r))) r.

Definition skip_tag_with (tag_type : Z) : P unit :=
  if tag_type =? 0 then ret tt
  else if tag_type =? 1 then stream_read 1 ~;; ret tt
  else if tag_type =? 2 then stream_read 2 ~;; ret tt
  else if tag_type =? 3 then stream_read 4 ~;; ret tt
  else if tag_type =? 4 then stream_read 8 ~;; ret tt
  else if tag_type =? 5 then stream_read 4 ~;; ret tt
  else if tag_type =? 6 then stream_read 8 ~;; ret tt
  else if tag_type =? 7 then
    length <~ read_int ;; stream_read length ~;; ret tt
  else if tag_type =? 8 then read_string ~;; ret tt
  else if tag_type =? 9 then
    list_type <~ read_ubyte ;;
    length <~ read_int ;;
    for_range (range length) (skip_tag list_type)
  else if tag_type =? 10 then skip_compound_with
  else if tag_type =? 11 then
    length <~ read_int ;; stream_read (length * 4) ~;; ret tt
  else if tag_type =? 12 then
    length <~ read_int ;; stream_read (length * 8) ~;; ret tt
  else ret tt.

End Skip.

(** As in [FindOwner.skip_tag], [depth] nested calls are allowed. *)
Fixpoint skip_tag (depth : nat) : Z -> P unit :=
  match depth with
  | O => fun _ => raise RecursionError
  | S depth' => skip_tag_with (skip_tag depth')
  end.

Definition skip_compound (depth : nat) : P unit :=
  skip_compound_with (skip_tag depth).

(** [p in s] for strings *)
Fixpoint starts_with (p s : str) : bool :=
  match p, s with
  | [], _ => true
  | _ :: _, [] => false
  | a :: p', b :: s' => (a =? b) && starts_with p' s'
  end.

Fixpoint contains (p s : str) : bool :=
  starts_with p s
  || match s with
     | [] => false
     | _ :: s' => contains p s'
     end.

Definition keywords : list str :=
  [Literal.owner; Literal.thrower; Literal.source; Literal.player].

Section Search.

(** [str.lower] *)
Variable lower : str -> str.

(** The number of nested [skip_tag] calls the interpreter allows under a
    [search_compound] running at a given depth. *)
Variable budget : nat -> nat.

(** The code points the encoding of standard output has. *)
Variable encodable : Z -> bool.

(** [any(keyword in name.lower() for keyword in [...])] *)
Definition owner_related (name : str) : bool :=
  existsb (fun keyword => contains keyword (lower name)) keywords.

Section Loop.

(** [self.search_compound(depth + 1, max_depth)] *)
Variable deeper : P unit.

Variable depth : nat.

(** The [while True] loop of [search_compound]; [turns] as in
    [compound_loop]. *)
Fixpoint search_loop (turns : nat) : P unit :=
  match turns with
  | O => raise StructError
  | S turns' =>
    tag_type <~ read_ubyte ;;
    if tag_type =? 0 then ret tt
    else
      name <~ read_string ;;
      (if owner_related name then
         print encodable (Found depth name tag_type) ~;;
         if tag_type =? 8 then
           value <~ read_string ;;
           print encodable (Value depth (VStr value)) ~;;
           append (VDict [(name, VStr value)])
         else if (tag_type =? 3) || (tag_type =? 4) then
           value <~ (if tag_type =? 3 then read_int else read_long) ;;
           print encodable (Value depth (VInt value)) ~;;
           append (VDict [(name, VInt value)])
         else skip_tag (budget depth) tag_type
       else if tag_type =? 10 then
         if (depth <? 5)%nat then deeper
         else skip_compound (budget depth)
       else skip_tag (budget depth) tag_type) ~;;
      search_loop turns'
  end.

End Loop.

(** [search_compound(depth, max_depth)].  It calls itself only while
    [depth < 5]; [levels] counts the calls that remain, [5 - depth]. *)
Fixpoint search_compound_from (levels depth max_depth : nat) : P unit :=
  if (max_depth <? depth)%nat then ret tt
  else
    try (fun r =>
           search_loop
             (match levels with
              | O => ret tt
              | S levels' => search_compound_from levels' (S depth) max_depth
              end)
             depth (S (left (stream r))) r)
        (fun e => if (depth =? 0)%nat then print encodable (SearchEnded e) else ret tt).

Definition search_compound (depth max_depth : nat) : P unit :=
  search_compound_from (5 - depth) depth max_depth.

Definition search_for_owners : P unit :=
  try (root_type <~ read_ubyte ;;
       if negb (root_type =? 10) then ret tt
       else
         root_name <~ read_string ;;
         print encodable (RootTag root_name) ~;;
         search_compound 0 20)
      (fun e => print encodable (ErrorDuringSearch e)).

End Search.

(** [DetailedNBTReader(data)] *)
Definition new (data : bytes) : reader := mk (BytesIO.open data) [] [].

End OwnerSearch.

(** An entry [search_compound] may add to [player_info]: [{name: value}]
    with an owner-related name and a string or integer value. *)
Definition owner_entry (lower : str -> str) (entry : value) : Prop :=
  exists name v,
    entry = VDict [(name, v)] /\
    OwnerSearch.owner_related lower name = true /\
    ((exists s, v = VStr s) \/ (exists z, v = VInt z)).

(** From [r] to [r']: same buffer, the cursor moved forward within it,
    [player_info] got owner entries appended, the output got lines
    appended. *)
Definition search_progress (lower : str -> str) (r r' : OwnerSearch.reader)
  : Prop :=
  (exists k, (k <= left (OwnerSearch.stream r))%nat /\
             OwnerSearch.stream r' = advance k (OwnerSearch.stream r)) /\
  (exists entries,
     OwnerSearch.player_info r' = OwnerSearch.player_info r ++ entries /\
     Forall (owner_entry lower) entries) /\
  (exists lines, OwnerSearch.printed r' = OwnerSearch.printed r ++ lines).

(** [p] makes progress however it ends. *)
Definition progresses {A} (lower : str -> str) (p : OwnerSearch.P A) : Prop :=
  forall r, search_progress lower r (snd (p r)).

(** The reader [r] with its stream at [s]. *)
Definition with_stream (s : BytesIO.t) (r : OwnerSearch.reader)
  : OwnerSearch.reader :=
  OwnerSearch.mk s (OwnerSearch.player_info r) (OwnerSearch.printed r).

(** A method of [OwnerSearch] that is a stream method: it does to the stream
    what [m] does and leaves [player_info] and the output alone. *)
Definition tracks {A} (m : M A) (p : OwnerSearch.P A) : Prop :=
  forall r,
    match m (OwnerSearch.stream r) with
    | Ok (a, s') => p r = (Ok a, with_stream s' r)
    | Raise e => exists s', p r = (Raise e, with_stream s' r)
    end.

(** The two length bytes in front of a name or a text. *)
Definition len16 (bs : bytes) : bytes :=
  [byte_of (Z.of_nat (length bs) / 256); byte_of (Z.of_nat (length bs))].

(** A String entry of a compound: type byte 8, name, text. *)
Definition string_entry (entry : bytes * bytes) : bytes :=
  x08 :: len16 (fst entry) ++ fst entry ++ len16 (snd entry) ++ snd entry.

(** What the search records for such entries: those with an owner-related
    name, in order. *)
Definition owners_among (lower : str -> str) (entries : list (bytes * bytes))
  : list value :=
  flat_map (fun entry =>
              let name := Utf8.decode_replace (fst entry) in
              if OwnerSearch.owner_related lower name
              then [VDict [(name, VStr (Utf8.decode_replace (snd entry)))]]
              else []) entries.

(** What the search prints for them, at [depth]: two lines for each entry
    with an owner-related name. *)
Definition lines_among (lower : str -> str) (depth : nat)
           (entries : list (bytes * bytes)) : list OwnerSearch.line :=
  flat_map (fun entry =>
              let name := Utf8.decode_replace (fst entry) in
              if OwnerSearch.owner_related lower name
              then [OwnerSearch.Found depth name 8;
                    OwnerSearch.Value depth
                      (VStr (Utf8.decode_replace (snd entry)))]
              else []) entries.

(** Standard output can encode what the search prints for [entry]: its name
    and its text, when the name is owner-related. *)
Definition printable_entry (lower : str -> str) (encodable : Z -> bool)
           (entry : bytes * bytes) : Prop :=
  OwnerSearch.owner_related lower (Utf8.decode_replace (fst entry)) = true ->
  forallb encodable (Utf8.decode_replace (fst entry)) = true /\
  forallb encodable (Utf8.decode_replace (snd entry)) = true.

(** A document: a root compound called [root_name] holding the String
    entries [entries]; [tail] is what follows them, the End byte in a
    complete document. *)
Definition string_document (root_name : bytes)
           (entries : list (bytes * bytes)) (tail : bytes) : bytes :=
  x0a :: len16 root_name ++ root_name
      ++ flat_map string_entry entries ++ tail.

(** ** mcc_reader.analyze_binary_structure: the readable strings

    The function prints a header line and three counts, then collects the
    strings it returns; no print changes what is collected, so only the
    collecting is written here. *)

Module MccReader.

(** [32 <= byte <= 126] *)
Definition printable (byte : byte) : bool :=
  (32 <=? u8 byte) && (u8 byte <=? 126).

(** One turn of [for byte in data], on [(strings, current_string)]. *)
Definition scan (state : list str * str) (byte : byte) : list str * str :=
  let (strings, current_string) := state in
  if printable byte then (strings, current_string ++ [u8 byte])
  else ((if (4 <=? length current_string)%nat
         then strings ++ [current_string] else strings), []).

Definition analyze_binary_structure (data : bytes) : list str :=
  let (strings, current_string) := fold_left scan data ([], []) in
  if negb (Nat.eqb (length current_string) 0)
     && (4 <=? length current_string)%nat
  then strings ++ [current_string] else strings.

End MccReader.

(** The runs of printable bytes of [data], empty ones included: what lies
    between two bytes that are not printable, before the first and behind
    the last. *)
Fixpoint printable_runs (data : bytes) : list str :=
  match data with
  | [] => [[]]
  | byte :: data' =>
    if MccReader.printable byte then
      match printable_runs data' with
      | run :: runs => (u8 byte :: run) :: runs
      | [] => [[u8 byte]]
      end
    else [] :: printable_runs data'
  end.

Definition long_run (run : str) : bool := (4 <=? length run)%nat.

(** What is returned once the loop has ended in [state]. *)
Definition scan_end (state : list str * str) : list str :=
  if negb (Nat.eqb (length (snd state)) 0) && (4 <=? length (snd state))%nat
  then fst state ++ [snd state] else fst state.

(** * Properties *)

(** ** Bytes and the stream *)

Lemma u8_range (b : byte) : 0 <= u8 b < 256.
Proof.
  unfold u8. pose proof (Byte.to_N_bounded b). lia.
Qed.

Lemma u8_byte_of (z : Z) : 0 <= z < 256 -> u8 (byte_of z) = z.
Proof.
  intros Hz. unfold u8, byte_of.
  rewrite Z.mod_small by lia.
  destruct (Byte.of_N (Z.to_N z)) as [b|] eqn:E.
  - apply Byte.to_of_N in E. rewrite E. lia.
  - apply Byte.of_N_None_iff in E. lia.
Qed.

Lemma advance_0 (s : BytesIO.t) : advance 0 s = s.
Proof.
  destruct s as [b p]. unfold advance. simpl. f_equal. lia.
Qed.

Lemma advance_advance (j k : nat) (s : BytesIO.t) :
  advance k (advance j s) = advance (j + k) s.
Proof.
  unfold advance. simpl. f_equal. lia.
Qed.

Lemma remaining_advance (k : nat) (s : BytesIO.t) :
  BytesIO.remaining (advance k s) = skipn k (BytesIO.remaining s).
Proof.
  unfold BytesIO.remaining, advance. simpl.
  rewrite skipn_skipn. f_equal. lia.
Qed.

Lemma left_advance (k : nat) (s : BytesIO.t) :
  left (advance k s) = (left s - k)%nat.
Proof.
  unfold left. rewrite remaining_advance. apply length_skipn.
Qed.

Lemma remaining_advance_app (s : BytesIO.t) (xs rest : bytes) :
  BytesIO.remaining s = xs ++ rest ->
  BytesIO.remaining (advance (length xs) s) = rest.
Proof.
  intros H. rewrite remaining_advance, H, skipn_app.
  rewrite skipn_all, Nat.sub_diag. reflexivity.
Qed.


Lemma read_eq (size : Z) (s : BytesIO.t) :
  BytesIO.read size s =
  (fst (BytesIO.read size s), advance (length (fst (BytesIO.read size s))) s).
Proof. reflexivity. Qed.

Lemma read_nonneg (n : nat) (s : BytesIO.t) :
  BytesIO.read (Z.of_nat n) s =
  (firstn n (BytesIO.remaining s), advance (Nat.min n (left s)) s).
Proof.
  unfold BytesIO.read.
  destruct (Z.of_nat n <? 0) eqn:E; [apply Z.ltb_lt in E; lia|].
  rewrite Nat2Z.id, length_firstn. reflexivity.
Qed.

Lemma read_negative (size : Z) (s : BytesIO.t) :
  size < 0 ->
  BytesIO.read size s = (BytesIO.remaining s, advance (left s) s).
Proof.
  intros H. unfold BytesIO.read.
  apply Z.ltb_lt in H. rewrite H. reflexivity.
Qed.

(** ** The fixed-width reads *)

Lemma read_fixed {A} (size : nat) (f : bytes -> A) (s : BytesIO.t) :
  (bs <- stream_read (Z.of_nat size) ;; Struct.unpack size f bs) s =
  if (size <=? left s)%nat
  then Ok (f (firstn size (BytesIO.remaining s)), advance size s)
  else Raise StructError.
Proof.
  unfold bind, stream_read. rewrite read_nonneg.
  unfold Struct.unpack. rewrite length_firstn. fold (left s).
  destruct (size <=? left s)%nat eqn:E.
  - apply Nat.leb_le in E.
    rewrite Nat.min_l by exact E. rewrite Nat.eqb_refl. reflexivity.
  - apply Nat.leb_gt in E.
    rewrite Nat.min_r by lia.
    destruct (Nat.eqb (left s) size) eqn:E'; [apply Nat.eqb_eq in E'; lia|].
    reflexivity.
Qed.

Lemma read_byte_eq (s : BytesIO.t) :
  read_byte s =
  if (1 <=? left s)%nat
  then Ok (Struct.signed 1 (firstn 1 (BytesIO.remaining s)), advance 1 s)
  else Raise StructError.
Proof. exact (read_fixed 1 _ s). Qed.

Lemma read_ubyte_eq (s : BytesIO.t) :
  read_ubyte s =
  if (1 <=? left s)%nat
  then Ok (Struct.unsigned (firstn 1 (BytesIO.remaining s)), advance 1 s)
  else Raise StructError.
Proof. exact (read_fixed 1 _ s). Qed.

Lemma read_short_eq (s : BytesIO.t) :
  read_short s =
  if (2 <=? left s)%nat
  then Ok (Struct.signed 2 (firstn 2 (BytesIO.remaining s)), advance 2 s)
  else Raise StructError.
Proof. exact (read_fixed 2 _ s). Qed.

Lemma read_int_eq (s : BytesIO.t) :
  read_int s =
  if (4 <=? left s)%nat
  then Ok (Struct.signed 4 (firstn 4 (BytesIO.remaining s)), advance 4 s)
  else Raise StructError.
Proof. exact (read_fixed 4 _ s). Qed.

Lemma read_long_eq (s : BytesIO.t) :
  read_long s =
  if (8 <=? left s)%nat
  then Ok (Struct.signed 8 (firstn 8 (BytesIO.remaining s)), advance 8 s)
  else Raise StructError.
Proof. exact (read_fixed 8 _ s). Qed.

Lemma read_float_eq (s : BytesIO.t) :
  read_float s =
  if (4 <=? left s)%nat
  then Ok (Struct.ieee 8 23 (Struct.unsigned (firstn 4 (BytesIO.remaining s))),
           advance 4 s)
  else Raise StructError.
Proof. exact (read_fixed 4 _ s). Qed.

Lemma read_double_eq (s : BytesIO.t) :
  read_double s =
  if (8 <=? left s)%nat
  then Ok (Struct.ieee 11 52 (Struct.unsigned (firstn 8 (BytesIO.remaining s))),
           advance 8 s)
  else Raise StructError.
Proof. exact (read_fixed 8 _ s). Qed.

Lemma be_fold_nonneg (bs : bytes) (acc : Z) :
  0 <= acc -> 0 <= Struct.be_fold acc bs.
Proof.
  revert acc. induction bs as [|b bs IH]; intros acc H; simpl; [exact H|].
  apply IH. pose proof (u8_range b). lia.
Qed.

Lemma unsigned_nonneg (bs : bytes) : 0 <= Struct.unsigned bs.
Proof. apply be_fold_nonneg. lia. Qed.

(** [read_string]: two bytes of length, then as many bytes of text as the
    length asks for and the buffer still has. *)
Lemma read_string_eq (s : BytesIO.t) :
  read_string s =
  if (2 <=? left s)%nat
  then
    let n := Struct.unsigned (firstn 2 (BytesIO.remaining s)) in
    let payload := firstn (Z.to_nat n) (skipn 2 (BytesIO.remaining s)) in
    Ok (Utf8.decode_replace payload, advance (2 + length payload) s)
  else Raise StructError.
Proof.
  unfold read_string, bind at 1.
  unfold stream_read at 1. change 2 with (Z.of_nat 2). rewrite read_nonneg.
  unfold bind at 1, Struct.unpack_H, Struct.unpack.
  rewrite length_firstn. fold (left s).
  destruct (2 <=? left s)%nat eqn:E.
  - apply Nat.leb_le in E. rewrite Nat.min_l by exact E.
    rewrite Nat.eqb_refl. unfold ret at 1. cbv zeta.
    set (n := Struct.unsigned (firstn 2 (BytesIO.remaining s))).
    assert (Hn : 0 <= n) by apply unsigned_nonneg.
    unfold bind, stream_read, ret.
    rewrite <- (Z2Nat.id n) at 1 by exact Hn.
    rewrite read_nonneg, remaining_advance, advance_advance.
    rewrite length_firstn, length_skipn, left_advance. reflexivity.
  - apply Nat.leb_gt in E. rewrite Nat.min_r by lia.
    destruct (Nat.eqb (left s) 2) eqn:E'; [apply Nat.eqb_eq in E'; lia|].
    reflexivity.
Qed.

(** ** Methods only move forward *)

Lemma forward_ret {A} (a : A) : forward (ret a).
Proof.
  intros s a' s' H. inversion H; subst.
  exists 0%nat. split; [lia | symmetry; apply advance_0].
Qed.

Lemma forward_raise {A} (e : exn) : forward (@raise A e).
Proof. intros s a s' H. discriminate H. Qed.

Lemma forward_bind {A B} (m : M A) (k : A -> M B) :
  forward m -> (forall a, forward (k a)) -> forward (bind m k).
Proof.
  intros Hm Hk s b s2 H. unfold bind in H.
  destruct (m s) as [[a s1]|e] eqn:E; [|discriminate H].
  destruct (Hm _ _ _ E) as [k1 [L1 ->]].
  destruct (Hk a _ _ _ H) as [k2 [L2 ->]].
  rewrite left_advance in L2.
  exists (k1 + k2)%nat. split; [lia | apply advance_advance].
Qed.

Lemma forward_stream_read (size : Z) : forward (stream_read size).
Proof.
  intros s got s' H. unfold stream_read in H. rewrite read_eq in H.
  inversion H; subst. eexists. split; [|reflexivity].
  unfold BytesIO.read. simpl. fold (left s).
  destruct (size <? 0); [apply Nat.le_refl|].
  rewrite length_firstn. apply Nat.le_min_r.
Qed.

Lemma forward_unpack {A} (size : nat) (f : bytes -> A) (bs : bytes) :
  forward (Struct.unpack size f bs).
Proof.
  unfold Struct.unpack. destruct (Nat.eqb (length bs) size).
  - apply forward_ret.
  - apply forward_raise.
Qed.

Create HintDb forward.
#[local] Hint Resolve forward_ret forward_raise forward_stream_read
  forward_unpack : forward.
#[local] Hint Extern 2 (forward (bind _ _)) =>
  apply forward_bind; [|intro] : forward.
#[local] Hint Extern 2 (forward (if ?c then _ else _)) => destruct c : forward.

Lemma forward_read_byte : forward read_byte.
Proof. unfold read_byte, Struct.unpack_b. auto with forward. Qed.

Lemma forward_read_ubyte : forward read_ubyte.
Proof. unfold read_ubyte, Struct.unpack_B. auto with forward. Qed.

Lemma forward_read_short : forward read_short.
Proof. unfold read_short, Struct.unpack_h. auto with forward. Qed.

Lemma forward_read_int : forward read_int.
Proof. unfold read_int, Struct.unpack_i. auto with forward. Qed.

Lemma forward_read_long : forward read_long.
Proof. unfold read_long, Struct.unpack_q. auto with forward. Qed.

Lemma forward_read_float : forward read_float.
Proof. unfold read_float, Struct.unpack_f. auto with forward. Qed.

Lemma forward_read_double : forward read_double.
Proof. unfold read_double, Struct.unpack_d. auto with forward. Qed.

Lemma forward_read_string : forward read_string.
Proof. unfold read_string, Struct.unpack_H. auto 6 with forward. Qed.

#[local] Hint Resolve forward_read_byte forward_read_ubyte forward_read_short
  forward_read_int forward_read_long forward_read_float forward_read_double
  forward_read_string : forward.

Lemma forward_comprehension {A} (n : nat) (m : M A) :
  forward m -> forward (comprehension n m).
Proof.
  intros Hm. induction n as [|n IH]; simpl; auto 6 with forward.
Qed.

Lemma forward_for_range (n : nat) (m : M unit) :
  forward m -> forward (for_range n m).
Proof.
  intros Hm. induction n as [|n IH]; simpl; auto with forward.
Qed.

#[local] Hint Resolve forward_comprehension forward_for_range : forward.

Lemma forward_compound_loop (rt : Z -> M value) (turns : nat) (acc : dict) :
  (forall t, forward (rt t)) -> forward (compound_loop rt turns acc).
Proof.
  intros Hrt. revert acc.
  induction turns as [|turns IH]; intros acc; simpl; auto 8 with forward.
Qed.

Lemma forward_read_compound_with (rt : Z -> M value) :
  (forall t, forward (rt t)) -> forward (read_compound_with rt).
Proof.
  intros Hrt s a s' H. unfold read_compound_with in H.
  exact (forward_compound_loop rt _ _ Hrt _ _ _ H).
Qed.

Lemma forward_read_list_with (rt : Z -> M value) :
  (forall t, forward (rt t)) -> forward (read_list_with rt).
Proof.
  intros Hrt. unfold read_list_with. auto 8 with forward.
Qed.

#[local] Hint Resolve forward_read_compound_with forward_read_list_with
  : forward.

Lemma forward_read_tag_with (otherwise rt : Z -> M value) (t : Z) :
  (forall t, forward (otherwise t)) ->
  (forall t, forward (rt t)) ->
  forward (read_tag_with otherwise rt t).
Proof.
  intros Ho Hrt. unfold read_tag_with.
  repeat match goal with
         | |- forward (if ?c then _ else _) => destruct c
         end; auto 8 with forward.
Qed.

Lemma forward_read_tag (otherwise : Z -> M value) (depth : nat) (t : Z) :
  (forall t, forward (otherwise t)) ->
  forward (read_tag otherwise depth t).
Proof.
  intros Ho. revert t. induction depth as [|depth IH]; intros t; simpl.
  - apply forward_raise.
  - apply forward_read_tag_with; assumption.
Qed.

(** ** The recursion budget *)

Lemma below_refl {A} (m : M A) : below m m.
Proof. intros s _. reflexivity. Qed.

Lemma below_bind {A B} (m1 m2 : M A) (k1 k2 : A -> M B) :
  below m1 m2 -> (forall a, below (k1 a) (k2 a)) ->
  below (bind m1 k1) (bind m2 k2).
Proof.
  intros Hm Hk s H. unfold bind in *.
  destruct (m1 s) as [[a s1]|e] eqn:E.
  - rewrite (Hm s) by (rewrite E; discriminate). rewrite E.
    apply Hk. exact H.
  - rewrite (Hm s), E; [reflexivity|].
    rewrite E. intros Q. apply H. inversion Q. reflexivity.
Qed.

Lemma below_if {A} (c : bool) (a1 a2 b1 b2 : M A) :
  below a1 a2 -> below b1 b2 ->
  below (if c then a1 else b1) (if c then a2 else b2).
Proof. destruct c; auto. Qed.

Lemma below_comprehension {A} (n : nat) (m1 m2 : M A) :
  below m1 m2 -> below (comprehension n m1) (comprehension n m2).
Proof.
  intros Hm. induction n as [|n IH]; simpl.
  - apply below_refl.
  - apply below_bind; [exact Hm|]. intros x.
    apply below_bind; [exact IH|]. intros xs. apply below_refl.
Qed.

Lemma below_compound_loop (rt1 rt2 : Z -> M value) (turns : nat) (acc : dict) :
  (forall t, below (rt1 t) (rt2 t)) ->
  below (compound_loop rt1 turns acc) (compound_loop rt2 turns acc).
Proof.
  intros Hrt. revert acc. induction turns as [|turns IH]; intros acc; simpl.
  - apply below_refl.
  - apply below_bind; [apply below_refl|]. intros t.
    apply below_if; [apply below_refl|].
    apply below_bind; [apply below_refl|]. intros name.
    apply below_bind; [apply Hrt|]. intros v. apply IH.
Qed.

Lemma below_read_tag_with (otherwise rt1 rt2 : Z -> M value) (t : Z) :
  (forall t, below (rt1 t) (rt2 t)) ->
  below (read_tag_with otherwise rt1 t) (read_tag_with otherwise rt2 t).
Proof.
  intros Hrt. unfold read_tag_with.
  repeat (apply below_if; [apply below_refl|]).
  apply below_if.
  { unfold read_list_with.
    apply below_bind; [apply below_refl|]. intros tag.
    apply below_bind; [apply below_refl|]. intros n.
    apply below_bind; [|intros l; apply below_refl].
    apply below_comprehension. apply Hrt. }
  apply below_if.
  { intros s. unfold read_compound_with.
    apply below_compound_loop. exact Hrt. }
  apply below_refl.
Qed.

(** A larger budget changes nothing where a smaller one was enough. *)
Lemma read_tag_mono (otherwise : Z -> M value) (d1 d2 : nat) (t : Z) :
  (d1 <= d2)%nat ->
  below (read_tag otherwise d1 t) (read_tag otherwise d2 t).
Proof.
  revert d2 t. induction d1 as [|d1 IH]; intros d2 t Hle.
  - intros s H. exfalso. apply H. reflexivity.
  - destruct d2 as [|d2]; [lia|]. simpl.
    apply below_read_tag_with. intros t'. apply IH. lia.
Qed.


Lemma safe_weaken {A} (n n' : nat) (m : M A) :
  (n' <= n)%nat -> safe n m -> safe n' m.
Proof. intros Hle Hm s Hs. apply Hm. lia. Qed.

Lemma safe_ret {A} (n : nat) (a : A) : safe n (ret a).
Proof. intros s _. discriminate. Qed.

Lemma safe_raise {A} (n : nat) (e : exn) :
  e <> RecursionError -> safe n (@raise A e).
Proof. intros He s _ H. inversion H. contradiction. Qed.

Lemma safe_stream_read (n : nat) (size : Z) : safe n (stream_read size).
Proof. intros s _. discriminate. Qed.

Lemma safe_unpack {A} (n size : nat) (f : bytes -> A) (bs : bytes) :
  safe n (Struct.unpack size f bs).
Proof.
  unfold Struct.unpack. destruct (Nat.eqb (length bs) size).
  - apply safe_ret.
  - apply safe_raise. discriminate.
Qed.

Lemma safe_bind {A B} (n : nat) (m : M A) (k : A -> M B) :
  safe n m -> forward m -> (forall a, safe n (k a)) -> safe n (bind m k).
Proof.
  intros Hm Fm Hk s Hs. unfold bind.
  destruct (m s) as [[a s1]|e] eqn:E.
  - destruct (Fm _ _ _ E) as [j [_ ->]].
    apply Hk. rewrite left_advance. lia.
  - intros Q. apply (Hm s Hs). rewrite E. inversion Q. reflexivity.
Qed.

Lemma safe_if {A} (n : nat) (c : bool) (a b : M A) :
  safe n a -> safe n b -> safe n (if c then a else b).
Proof. destruct c; auto. Qed.

Lemma read_ubyte_ok (s s' : BytesIO.t) (t : Z) :
  read_ubyte s = Ok (t, s') -> (1 <= left s)%nat /\ s' = advance 1 s.
Proof.
  rewrite read_ubyte_eq. destruct (1 <=? left s)%nat eqn:E; [|discriminate].
  apply Nat.leb_le in E. intros H. inversion H. auto.
Qed.

(** Whatever follows the type byte sees a stream one byte shorter. *)
Lemma safe_after_ubyte {B} (n : nat) (k : Z -> M B) :
  (forall t, safe n (k t)) -> safe (S n) (bind read_ubyte k).
Proof.
  intros Hk s Hs. unfold bind.
  destruct (read_ubyte s) as [[t s1]|e] eqn:E.
  - destruct (read_ubyte_ok _ _ _ E) as [L ->].
    apply Hk. rewrite left_advance. lia.
  - rewrite read_ubyte_eq in E.
    destruct (1 <=? left s)%nat; [discriminate|]. inversion E. discriminate.
Qed.

Lemma safe_read_string (n : nat) : safe n read_string.
Proof.
  intros s _. rewrite read_string_eq.
  destruct (2 <=? left s)%nat; discriminate.
Qed.

Lemma safe_read_fixed {A} (n size : nat) (f : bytes -> A) :
  safe n (bs <- stream_read (Z.of_nat size) ;; Struct.unpack size f bs).
Proof.
  intros s _. rewrite read_fixed.
  destruct (size <=? left s)%nat; discriminate.
Qed.

Lemma safe_comprehension {A} (n k : nat) (m : M A) :
  safe n m -> forward m -> safe n (comprehension k m).
Proof.
  intros Hm Fm. induction k as [|k IH]; simpl.
  - apply safe_ret.
  - apply safe_bind; [exact Hm | exact Fm |]. intros x.
    apply safe_bind; [exact IH | apply forward_comprehension; exact Fm |].
    intros xs. apply safe_ret.
Qed.

Lemma safe_compound_loop (rt : Z -> M value) (n turns : nat) (acc : dict) :
  (forall t, safe n (rt t)) -> (forall t, forward (rt t)) ->
  safe (S n) (compound_loop rt turns acc).
Proof.
  intros Hrt Frt. revert acc.
  induction turns as [|turns IH]; intros acc; simpl.
  - apply safe_raise. discriminate.
  - apply safe_after_ubyte. intros t.
    apply safe_if; [apply safe_ret|].
    apply safe_bind; [apply safe_read_string | apply forward_read_string |].
    intros name.
    apply safe_bind; [apply Hrt | apply Frt |]. intros v.
    apply (safe_weaken (S n)); [lia | apply IH].
Qed.

Lemma safe_read_tag_with (otherwise rt : Z -> M value) (n : nat) (t : Z) :
  (forall t, safe (S n) (otherwise t)) ->
  (forall t, safe n (rt t)) -> (forall t, forward (rt t)) ->
  safe (S n) (read_tag_with otherwise rt t).
Proof.
  intros Ho Hrt Frt. unfold read_tag_with.
  apply safe_if; [apply safe_ret|].
  apply safe_if.
  { apply safe_bind; [apply (safe_read_fixed _ 1) | apply forward_read_byte |].
    intros; apply safe_ret. }
  apply safe_if.
  { apply safe_bind; [apply (safe_read_fixed _ 2) | apply forward_read_short |].
    intros; apply safe_ret. }
  apply safe_if.
  { apply safe_bind; [apply (safe_read_fixed _ 4) | apply forward_read_int |].
    intros; apply safe_ret. }
  apply safe_if.
  { apply safe_bind; [apply (safe_read_fixed _ 8) | apply forward_read_long |].
    intros; apply safe_ret. }
  apply safe_if.
  { apply safe_bind; [apply (safe_read_fixed _ 4) | apply forward_read_float |].
    intros; apply safe_ret. }
  apply safe_if.
  { apply safe_bind; [apply (safe_read_fixed _ 8) | apply forward_read_double |].
    intros; apply safe_ret. }
  apply safe_if.
  { apply safe_bind; [apply (safe_read_fixed _ 4) | apply forward_read_int |].
    intros len. apply safe_bind; [| |intros; apply safe_ret].
    - apply safe_comprehension.
      + apply safe_bind;
          [apply (safe_read_fixed _ 1) | apply forward_read_byte |].
        intros; apply safe_ret.
      + apply forward_bind; [apply forward_read_byte|].
        intros; apply forward_ret.
    - apply forward_comprehension.
      apply forward_bind; [apply forward_read_byte|].
      intros; apply forward_ret. }
  apply safe_if.
  { apply safe_bind; [apply safe_read_string | apply forward_read_string |].
    intros; apply safe_ret. }
  apply safe_if.
  { unfold read_list_with. apply safe_after_ubyte. intros tag.
    apply safe_bind; [apply (safe_read_fixed _ 4) | apply forward_read_int |].
    intros len. apply safe_bind; [| |intros; apply safe_ret].
    - apply safe_comprehension; [apply Hrt | apply Frt].
    - apply forward_comprehension. apply Frt. }
  apply safe_if.
  { intros s Hs. unfold read_compound_with.
    apply (safe_compound_loop rt n); assumption. }
  apply safe_if.
  { apply safe_bind; [apply (safe_read_fixed _ 4) | apply forward_read_int |].
    intros len. apply safe_bind; [| |intros; apply safe_ret].
    - apply safe_comprehension.
      + apply safe_bind;
          [apply (safe_read_fixed _ 4) | apply forward_read_int |].
        intros; apply safe_ret.
      + apply forward_bind; [apply forward_read_int|].
        intros; apply forward_ret.
    - apply forward_comprehension.
      apply forward_bind; [apply forward_read_int|].
      intros; apply forward_ret. }
  apply safe_if.
  { apply safe_bind; [apply (safe_read_fixed _ 4) | apply forward_read_int |].
    intros len. apply safe_bind; [| |intros; apply safe_ret].
    - apply safe_comprehension.
      + apply safe_bind;
          [apply (safe_read_fixed _ 8) | apply forward_read_long |].
        intros; apply safe_ret.
      + apply forward_bind; [apply forward_read_long|].
        intros; apply forward_ret.
    - apply forward_comprehension.
      apply forward_bind; [apply forward_read_long|].
      intros; apply forward_ret. }
  apply Ho.
Qed.

Section Budget.

Variable otherwise : Z -> M value.
Hypothesis otherwise_forward : forall t, forward (otherwise t).
Hypothesis otherwise_safe : forall n t, safe n (otherwise t).

(** With more budget than bytes, [read_tag] never hits the recursion
    limit: every nested call comes after at least one byte was read. *)
Lemma read_tag_safe (depth : nat) (t : Z) :
  safe depth (read_tag otherwise depth t).
Proof.
  revert t. induction depth as [|depth IH]; intros t.
  - intros s Hs. lia.
  - simpl. apply safe_read_tag_with.
    + intros t'. apply otherwise_safe.
    + exact IH.
    + intros t'. apply forward_read_tag. exact otherwise_forward.
Qed.


End Budget.

(** ** A reader's state is its position

    A method sees the stream only through [stream.read], so what it does
    depends on the bytes ahead of the cursor and on nothing else. *)

Lemma positional_ret {A} (a : A) : positional (ret a).
Proof.
  intros s s2 H. simpl. exists 0%nat. rewrite !advance_0. auto.
Qed.

Lemma positional_raise {A} (e : exn) : positional (@raise A e).
Proof. intros s s2 H. reflexivity. Qed.

Lemma positional_bind {A B} (m : M A) (f : A -> M B) :
  positional m -> (forall a, positional (f a)) -> positional (bind m f).
Proof.
  intros Hm Hf s s2 H. unfold bind.
  specialize (Hm s s2 H). destruct (m s) as [[a s1]|e].
  - destruct Hm as [k [-> ->]].
    assert (H1 : BytesIO.remaining (advance k s2)
                 = BytesIO.remaining (advance k s))
      by (rewrite !remaining_advance, H; reflexivity).
    specialize (Hf a _ _ H1).
    destruct (f a (advance k s)) as [[b s3]|e].
    + destruct Hf as [k' [-> ->]]. exists (k + k')%nat.
      rewrite !advance_advance. auto.
    + exact Hf.
  - rewrite Hm. reflexivity.
Qed.

Lemma positional_if {A} (c : bool) (a b : M A) :
  positional a -> positional b -> positional (if c then a else b).
Proof. destruct c; auto. Qed.

Lemma positional_stream_read (size : Z) : positional (stream_read size).
Proof.
  intros s s2 H. unfold stream_read. rewrite (read_eq size s).
  exists (length (fst (BytesIO.read size s))). split; [reflexivity|].
  rewrite (read_eq size s2). unfold BytesIO.read. cbn [fst]. rewrite H.
  reflexivity.
Qed.

Lemma positional_unpack {A} (size : nat) (f : bytes -> A) (bs : bytes) :
  positional (Struct.unpack size f bs).
Proof.
  unfold Struct.unpack. destruct (Nat.eqb (length bs) size).
  - apply positional_ret.
  - apply positional_raise.
Qed.

Lemma positional_read_fixed {A} (size : Z) (n : nat) (f : bytes -> A) :
  positional (bs <- stream_read size ;; Struct.unpack n f bs).
Proof.
  apply positional_bind; [apply positional_stream_read|].
  intros bs. apply positional_unpack.
Qed.

Lemma positional_read_string : positional read_string.
Proof.
  unfold read_string.
  apply positional_bind; [apply positional_stream_read|]. intros hdr.
  apply positional_bind; [apply positional_unpack|]. intros n.
  apply positional_bind; [apply positional_stream_read|]. intros payload.
  apply positional_ret.
Qed.

Lemma positional_then_ret {A B} (m : M A) (g : A -> B) :
  positional m -> positional (x <- m ;; ret (g x)).
Proof.
  intros Hm. apply positional_bind; [exact Hm|].
  intros a. apply positional_ret.
Qed.

Lemma positional_comprehension {A} (n : nat) (m : M A) :
  positional m -> positional (comprehension n m).
Proof.
  intros Hm. induction n as [|n IH]; simpl.
  - apply positional_ret.
  - apply positional_bind; [exact Hm|]. intros x.
    apply positional_bind; [exact IH|]. intros xs. apply positional_ret.
Qed.

Lemma positional_compound_loop (rt : Z -> M value) (turns : nat)
      (acc : dict) :
  (forall t, positional (rt t)) -> positional (compound_loop rt turns acc).
Proof.
  intros Hrt. revert acc. induction turns as [|turns IH]; intros acc; simpl.
  - apply positional_raise.
  - apply positional_bind; [apply positional_read_fixed|]. intros t.
    apply positional_if; [apply positional_ret|].
    apply positional_bind; [apply positional_read_string|]. intros name.
    apply positional_bind; [apply Hrt|]. intros v. apply IH.
Qed.

Lemma positional_array {A} (elem : M A) (g : A -> value) :
  positional elem ->
  positional (length <- read_int ;;
              l <- comprehension (range length) (z <- elem ;; ret (g z)) ;;
              ret (VList l)).
Proof.
  intros He.
  apply positional_bind; [apply positional_read_fixed|]. intros n.
  apply positional_then_ret. apply positional_comprehension.
  apply positional_then_ret. exact He.
Qed.

Lemma positional_read_tag_with (otherwise rt : Z -> M value) (t : Z) :
  (forall t, positional (otherwise t)) ->
  (forall t, positional (rt t)) ->
  positional (read_tag_with otherwise rt t).
Proof.
  intros Ho Hrt. unfold read_tag_with.
  apply positional_if; [apply positional_ret|].
  do 6 (apply positional_if;
        [apply positional_then_ret; apply positional_read_fixed|]).
  apply positional_if;
    [apply (positional_array read_byte VInt); apply positional_read_fixed|].
  apply positional_if;
    [apply positional_then_ret; apply positional_read_string|].
  apply positional_if.
  { unfold read_list_with.
    apply positional_bind; [apply positional_read_fixed|]. intros tag.
    apply positional_bind; [apply positional_read_fixed|]. intros n.
    apply positional_then_ret. apply positional_comprehension. apply Hrt. }
  apply positional_if.
  { intros s s2 H. unfold read_compound_with. rewrite H.
    apply positional_compound_loop; assumption. }
  apply positional_if;
    [apply (positional_array read_int VInt); apply positional_read_fixed|].
  apply positional_if;
    [apply (positional_array read_long VInt); apply positional_read_fixed|].
  apply Ho.
Qed.

Lemma positional_read_tag (otherwise : Z -> M value) (depth : nat) (t : Z) :
  (forall t, positional (otherwise t)) ->
  positional (read_tag otherwise depth t).
Proof.
  intros Ho. revert t. induction depth as [|depth IH]; intros t; simpl.
  - apply positional_raise.
  - apply positional_read_tag_with; assumption.
Qed.


Lemma complete_otherwise_positional (t : Z) :
  positional (CompleteMccReader.otherwise t).
Proof. apply positional_raise. Qed.

Lemma snowball_otherwise_positional (t : Z) :
  positional (SnowballTimeline.otherwise t).
Proof. apply positional_ret. Qed.


Lemma complete_otherwise_forward (t : Z) :
  forward (CompleteMccReader.otherwise t).
Proof. apply forward_raise. Qed.

Lemma complete_otherwise_safe (n : nat) (t : Z) :
  safe n (CompleteMccReader.otherwise t).
Proof. apply safe_raise. discriminate. Qed.

Lemma snowball_otherwise_forward (t : Z) :
  forward (SnowballTimeline.otherwise t).
Proof. apply forward_ret. Qed.

Lemma snowball_otherwise_safe (n : nat) (t : Z) :
  safe n (SnowballTimeline.otherwise t).
Proof. apply safe_ret. Qed.

(** The loop counter of [read_compound] is not observable: any two counters
    above the number of bytes left give the same result. *)
Lemma compound_loop_turns (rt : Z -> M value) :
  (forall t, forward (rt t)) ->
  forall (turns1 turns2 : nat) (acc : dict) (s : BytesIO.t),
  (left s < turns1)%nat -> (left s < turns2)%nat ->
  compound_loop rt turns1 acc s = compound_loop rt turns2 acc s.
Proof.
  intros Frt. induction turns1 as [|turns1 IH]; intros turns2 acc s H1 H2.
  - lia.
  - destruct turns2 as [|turns2]; [lia|]. simpl. unfold bind.
    destruct (read_ubyte s) as [[t s1]|e] eqn:E; [|reflexivity].
    destruct (read_ubyte_ok _ _ _ E) as [L ->].
    destruct (t =? TAG_End); [reflexivity|].
    destruct (read_string (advance 1 s)) as [[name s2]|e] eqn:E2;
      [|reflexivity].
    destruct (forward_read_string _ _ _ E2) as [k2 [L2 ->]].
    destruct (rt t (advance k2 (advance 1 s))) as [[v s3]|e] eqn:E3;
      [|reflexivity].
    destruct (Frt _ _ _ _ E3) as [k3 [L3 ->]].
    apply IH; repeat rewrite left_advance; lia.
Qed.

Section Determinism.

Variable otherwise : Z -> M value.
Hypothesis otherwise_forward : forall t, forward (otherwise t).
Hypothesis otherwise_safe : forall n t, safe n (otherwise t).



End Determinism.




(** ** Reads at the byte level *)

Lemma left_remaining (s : BytesIO.t) (bs : bytes) :
  BytesIO.remaining s = bs -> left s = length bs.
Proof. intros H. unfold left. rewrite H. reflexivity. Qed.

Lemma read_fixed_app {A} (size : nat) (f : bytes -> A) (s : BytesIO.t)
      (xs rest : bytes) :
  BytesIO.remaining s = xs ++ rest -> length xs = size ->
  (bs <- stream_read (Z.of_nat size) ;; Struct.unpack size f bs) s
  = Ok (f xs, advance size s).
Proof.
  intros H L. rewrite read_fixed.
  rewrite (left_remaining _ _ H), length_app, H.
  destruct (size <=? length xs + length rest)%nat eqn:E;
    [|apply Nat.leb_gt in E; lia].
  subst size. rewrite firstn_app, Nat.sub_diag, firstn_all. simpl.
  rewrite app_nil_r. reflexivity.
Qed.

Lemma read_fixed_short {A} (size : nat) (f : bytes -> A) (s : BytesIO.t) :
  (left s < size)%nat ->
  (bs <- stream_read (Z.of_nat size) ;; Struct.unpack size f bs) s
  = Raise StructError.
Proof.
  intros L. rewrite read_fixed.
  destruct (size <=? left s)%nat eqn:E; [apply Nat.leb_le in E; lia|].
  reflexivity.
Qed.

Lemma read_ubyte_cons (s : BytesIO.t) (b : byte) (rest : bytes) :
  BytesIO.remaining s = b :: rest -> read_ubyte s = Ok (u8 b, advance 1 s).
Proof.
  intros H.
  exact (read_fixed_app 1 Struct.unsigned s [b] rest H eq_refl).
Qed.

Lemma read_int_cons (s : BytesIO.t) (b0 b1 b2 b3 : byte) (rest : bytes) :
  BytesIO.remaining s = b0 :: b1 :: b2 :: b3 :: rest ->
  read_int s = Ok (Struct.signed 4 [b0; b1; b2; b3], advance 4 s).
Proof.
  intros H.
  exact (read_fixed_app 4 (Struct.signed 4) s [b0; b1; b2; b3] rest H eq_refl).
Qed.

(** A string whose text is all there. *)
Lemma read_string_app (s : BytesIO.t) (h1 h2 : byte) (payload rest : bytes) :
  BytesIO.remaining s = h1 :: h2 :: payload ++ rest ->
  Z.of_nat (length payload) = u8 h1 * 256 + u8 h2 ->
  read_string s
  = Ok (Utf8.decode_replace payload, advance (2 + length payload) s).
Proof.
  intros H L. rewrite read_string_eq, (left_remaining _ _ H), H. simpl.
  unfold Struct.unsigned. simpl. rewrite <- L, Nat2Z.id.
  rewrite firstn_app, Nat.sub_diag, firstn_all. simpl.
  rewrite app_nil_r. reflexivity.
Qed.

(** A string whose text is cut short by the end of the buffer. *)
Lemma read_string_cut (s : BytesIO.t) (h1 h2 : byte) (payload : bytes) :
  BytesIO.remaining s = h1 :: h2 :: payload ->
  Z.of_nat (length payload) <= u8 h1 * 256 + u8 h2 ->
  read_string s
  = Ok (Utf8.decode_replace payload, advance (2 + length payload) s).
Proof.
  intros H L. rewrite read_string_eq, (left_remaining _ _ H), H. simpl.
  unfold Struct.unsigned. simpl.
  rewrite firstn_all2 by lia. reflexivity.
Qed.

Lemma bind_ok {A B} (m : M A) (k : A -> M B) (s s1 : BytesIO.t) (a : A) :
  m s = Ok (a, s1) -> bind m k s = k a s1.
Proof. intros H. unfold bind. rewrite H. reflexivity. Qed.

Lemma bind_raise {A B} (m : M A) (k : A -> M B) (s : BytesIO.t) (e : exn) :
  m s = Raise e -> bind m k s = Raise e.
Proof. intros H. unfold bind. rewrite H. reflexivity. Qed.

(** ** Nesting depth *)

Lemma compound_depth_nested (d : nat) :
  compound_depth (nested_value d) = S d.
Proof.
  induction d as [|d IH]; [reflexivity|].
  simpl nested_value. simpl compound_depth. simpl in IH. rewrite IH.
  rewrite Nat.max_0_r. reflexivity.
Qed.

Lemma length_nested_compound (d : nat) :
  length (nested_compound d) = (4 * d + 1)%nat.
Proof.
  induction d as [|d IH]; [reflexivity|].
  simpl. rewrite length_app, IH. simpl. lia.
Qed.

Section Nesting.

Variable otherwise : Z -> M value.

Lemma read_nested_compound (d : nat) :
  forall (depth : nat) (s : BytesIO.t) (rest : bytes),
  BytesIO.remaining s = nested_compound d ++ rest ->
  read_tag otherwise depth TAG_Compound s =
  if (d <? depth)%nat
  then Ok (nested_value d, advance (length (nested_compound d)) s)
  else Raise RecursionError.
Proof.
  induction d as [|d IH]; intros depth s rest H.
  - destruct depth as [|depth]; [reflexivity|].
    simpl. unfold read_tag_with. simpl. unfold read_compound_with. simpl.
    simpl in H.
    rewrite (bind_ok _ _ _ _ _ (read_ubyte_cons _ _ _ H)). reflexivity.
  - destruct depth as [|depth]; [reflexivity|].
    change (S d <? S depth)%nat with (d <? depth)%nat.
    simpl read_tag. unfold read_tag_with. simpl.
    unfold read_compound_with. simpl compound_loop.
    simpl in H. rewrite <- app_assoc in H. simpl in H.
    rewrite (bind_ok _ _ _ _ _ (read_ubyte_cons _ _ _ H)). simpl.
    assert (H1 : BytesIO.remaining (advance 1 s)
                 = x00 :: x00 :: [] ++ (nested_compound d ++ x00 :: rest)).
    { rewrite remaining_advance, H. reflexivity. }
    rewrite (bind_ok _ _ _ _ _ (read_string_app _ _ _ _ _ H1 eq_refl)).
    simpl. rewrite advance_advance. simpl.
    assert (H3 : BytesIO.remaining (advance 3 s)
                 = nested_compound d ++ x00 :: rest).
    { rewrite remaining_advance, H. reflexivity. }
    pose proof (IH depth _ _ H3) as R.
    destruct (d <? depth)%nat.
    + rewrite (bind_ok _ _ _ _ _ R). rewrite advance_advance.
      rewrite H. simpl length. simpl compound_loop.
      assert (H4 : BytesIO.remaining
                     (advance (3 + length (nested_compound d)) s)
                   = x00 :: rest).
      { rewrite remaining_advance, H. simpl.
        rewrite skipn_app, skipn_all, Nat.sub_diag. reflexivity. }
      rewrite (bind_ok _ _ _ _ _ (read_ubyte_cons _ _ _ H4)). simpl.
      unfold ret. rewrite advance_advance, length_app. simpl length.
      repeat f_equal; try lia.
    + rewrite (bind_raise _ _ _ _ R). reflexivity.
Qed.

End Nesting.

(** *** How deep a decoded value can nest *)

Lemma bind_inv {A B} (m : M A) (f : A -> M B) (s s' : BytesIO.t) (b : B) :
  bind m f s = Ok (b, s') ->
  exists a s1, m s = Ok (a, s1) /\ f a s1 = Ok (b, s').
Proof.
  unfold bind. destruct (m s) as [[a s1]|e]; [|discriminate].
  intros H. exists a, s1. auto.
Qed.

Lemma compound_depth_list (n : nat) (l : list value) :
  Forall (fun x => (compound_depth x <= n)%nat) l ->
  (compound_depth (VList l) <= n)%nat.
Proof.
  intros H. induction H as [|x l Hx H IH]; [simpl; lia|].
  change (compound_depth (VList (x :: l)))
    with (Nat.max (compound_depth x) (compound_depth (VList l))).
  lia.
Qed.

Lemma compound_depth_dict (n : nat) (d : dict) :
  Forall (fun kv => (compound_depth (snd kv) <= n)%nat) d ->
  (compound_depth (VDict d) <= S n)%nat.
Proof.
  intros H. induction H as [|[k x] d Hx H IH]; [simpl; lia|].
  change (compound_depth (VDict ((k, x) :: d)))
    with (S (Nat.max (compound_depth x)
                     (Nat.pred (compound_depth (VDict d))))).
  simpl in Hx. simpl in IH. simpl. lia.
Qed.

Lemma dict_set_Forall (P : str * value -> Prop) (k : str) (v : value)
      (d : dict) :
  (forall k', P (k', v)) -> Forall P d -> Forall P (dict_set k v d).
Proof.
  intros Hv H. induction H as [|[k' v'] d Hx H IH]; simpl.
  - constructor; [apply Hv | constructor].
  - destruct (str_eqb k k'); constructor; auto.
Qed.

Lemma comprehension_Forall {A} (P : A -> Prop) (m : M A) :
  (forall s a s', m s = Ok (a, s') -> P a) ->
  forall (n : nat) (s s' : BytesIO.t) (l : list A),
  comprehension n m s = Ok (l, s') -> Forall P l.
Proof.
  intros Hm. induction n as [|n IH]; intros s s' l H; simpl in H.
  - inversion H. constructor.
  - apply bind_inv in H. destruct H as [x [s1 [E H]]].
    apply bind_inv in H. destruct H as [xs [s2 [E' H]]].
    inversion H; subst. constructor; [exact (Hm _ _ _ E) | exact (IH _ _ _ E')].
Qed.

Lemma compound_loop_depth (rt : Z -> M value) (n : nat) :
  (forall t s v s', rt t s = Ok (v, s') -> (compound_depth v <= n)%nat) ->
  forall (turns : nat) (acc : dict) (s s' : BytesIO.t) (v : value),
  Forall (fun kv => (compound_depth (snd kv) <= n)%nat) acc ->
  compound_loop rt turns acc s = Ok (v, s') ->
  (compound_depth v <= S n)%nat.
Proof.
  intros Hrt. induction turns as [|turns IH]; intros acc s s' v Ha H;
    simpl in H; [discriminate H|].
  apply bind_inv in H. destruct H as [t [s1 [_ H]]].
  destruct (t =? TAG_End).
  - inversion H; subst. apply compound_depth_dict. exact Ha.
  - apply bind_inv in H. destruct H as [name [s2 [_ H]]].
    apply bind_inv in H. destruct H as [x [s3 [E H]]].
    apply (IH _ _ _ _ (dict_set_Forall _ name x acc
                         (fun _ => Hrt _ _ _ _ E) Ha) H).
Qed.

Lemma then_ret_inv {A B} (m : M A) (g : A -> B) (s s' : BytesIO.t) (b : B) :
  (x <- m ;; ret (g x)) s = Ok (b, s') -> exists a, b = g a.
Proof.
  intros H. apply bind_inv in H. destruct H as [a [s1 [_ H]]].
  inversion H. exists a. reflexivity.
Qed.

Lemma array_depth (elem : M Z) (s s' : BytesIO.t) (v : value) :
  (length <- read_int ;;
   l <- comprehension (range length) (z <- elem ;; ret (VInt z)) ;;
   ret (VList l)) s = Ok (v, s') ->
  compound_depth v = 0%nat.
Proof.
  intros H. apply bind_inv in H. destruct H as [n [s1 [_ H]]].
  apply bind_inv in H. destruct H as [l [s2 [E H]]].
  inversion H; subst.
  assert (F : Forall (fun x => (compound_depth x <= 0)%nat) l).
  { eapply comprehension_Forall; [|exact E].
    intros s0 a s0' H0. apply then_ret_inv in H0 as [z ->]. simpl. lia. }
  pose proof (compound_depth_list 0 l F). lia.
Qed.

Section Depth.

Variable otherwise : Z -> M value.
Hypothesis otherwise_flat :
  forall t s v s', otherwise t s = Ok (v, s') -> compound_depth v = 0%nat.

Lemma read_tag_with_depth (rt : Z -> M value) (n : nat) :
  (forall t s v s', rt t s = Ok (v, s') -> (compound_depth v <= n)%nat) ->
  forall t s v s', read_tag_with otherwise rt t s = Ok (v, s') ->
                   (compound_depth v <= S n)%nat.
Proof.
  intros Hrt t s v s' H. unfold read_tag_with in H.
  destruct (t =? TAG_End); [inversion H; simpl; lia|].
  do 6 (match type of H with
        | (if ?c then _ else _) _ = _ =>
            destruct c; [apply then_ret_inv in H as [z ->]; simpl; lia|]
        end).
  destruct (t =? TAG_Byte_Array).
  { rewrite (array_depth read_byte _ _ _ H). lia. }
  destruct (t =? TAG_String); [apply then_ret_inv in H as [z ->]; simpl; lia|].
  destruct (t =? TAG_List).
  { unfold read_list_with in H.
    apply bind_inv in H. destruct H as [tag [s1 [_ H]]].
    apply bind_inv in H. destruct H as [len [s2 [_ H]]].
    apply bind_inv in H. destruct H as [l [s3 [E H]]].
    inversion H; subst.
    pose proof (compound_depth_list n l
                  (comprehension_Forall _ _ (Hrt tag) _ _ _ _ E)).
    lia. }
  destruct (t =? TAG_Compound).
  { unfold read_compound_with in H.
    apply (compound_loop_depth rt n Hrt _ [] _ _ _ (Forall_nil _) H). }
  destruct (t =? TAG_Int_Array).
  { rewrite (array_depth read_int _ _ _ H). lia. }
  destruct (t =? TAG_Long_Array).
  { rewrite (array_depth read_long _ _ _ H). lia. }
  rewrite (otherwise_flat _ _ _ _ H). lia.
Qed.

(** Compounds in a decoded value nest no deeper than [read_tag] calls were
    allowed. *)
Lemma read_tag_depth (depth : nat) :
  forall t s v s', read_tag otherwise depth t s = Ok (v, s') ->
                   (compound_depth v <= depth)%nat.
Proof.
  induction depth as [|depth IH]; intros t s v s' H.
  - discriminate H.
  - apply (read_tag_with_depth _ depth IH _ _ _ _ H).
Qed.

(** What decodes under one allowance decodes under every larger one; under
    a smaller one the read either gives the same or ends in
    [RecursionError], and it must when the value nests deeper than that. *)
Lemma read_tag_depth_bound (depth depth' : nat) (t : Z) (s s' : BytesIO.t)
      (v : value) :
  read_tag otherwise depth' t s = Ok (v, s') ->
  (compound_depth v <= depth')%nat /\
  ((depth' <= depth)%nat -> read_tag otherwise depth t s = Ok (v, s')) /\
  ((depth < compound_depth v)%nat ->
   read_tag otherwise depth t s = Raise RecursionError).
Proof.
  intros H. pose proof (read_tag_depth _ _ _ _ _ H) as D.
  split; [exact D|]. split.
  - intros L. rewrite (read_tag_mono otherwise depth' depth t L s);
      [exact H | rewrite H; discriminate].
  - intros L.
    destruct (read_tag otherwise depth t s) as [[v0 s0]|e] eqn:E.
    + assert (M0 : read_tag otherwise depth' t s
                   = read_tag otherwise depth t s).
      { apply (read_tag_mono otherwise depth depth' t); [lia|].
        rewrite E. discriminate. }
      rewrite H, E in M0. inversion M0; subst.
      pose proof (read_tag_depth _ _ _ _ _ E). lia.
    + destruct e; try reflexivity;
        (assert (M0 : read_tag otherwise depth' t s
                      = read_tag otherwise depth t s)
           by (apply (read_tag_mono otherwise depth depth' t); [lia|];
               rewrite E; discriminate);
         rewrite H, E in M0; discriminate M0).
Qed.

End Depth.

Lemma complete_otherwise_flat (t : Z) (s : BytesIO.t) (v : value)
      (s' : BytesIO.t) :
  CompleteMccReader.otherwise t s = Ok (v, s') -> compound_depth v = 0%nat.
Proof. discriminate. Qed.

Lemma snowball_otherwise_flat (t : Z) (s : BytesIO.t) (v : value)
      (s' : BytesIO.t) :
  SnowballTimeline.otherwise t s = Ok (v, s') -> compound_depth v = 0%nat.
Proof. intros H. inversion H. reflexivity. Qed.

(** C1, as stated, fails.  Neither reader takes a maximum depth: a document
    whose compounds nest three deep, deeper than a maximum of 1 or 2, decodes
    to its tree where the claim asks for a failure. *)
Lemma depth_guard_counterexample :
  compound_depth (nested_value 2) = 3%nat /\
  CompleteMccReader.decode 12
    [x0a; x00; x00; x0a; x00; x00; x0a; x00; x00; x00; x00; x00]
  = Ok (VDict [([], nested_value 2)]) /\
  SnowballTimeline.decode 12
    [x0a; x00; x00; x0a; x00; x00; x0a; x00; x00; x00; x00; x00]
  = Ok (VDict [([], nested_value 2)]).
Proof. repeat split. Qed.

(** C1, amended.  The readers have no depth setting and no error of their
    own for depth; the only bound on nesting is the room the interpreter
    leaves for nested calls.  Let [read_tag] decode a tag to [v] when
    [depth'] nested calls are allowed.  Then the compounds of [v] nest at
    most [depth'] deep; the read gives the same value and position under any
    larger allowance; and under an allowance below the nesting depth of [v]
    it ends in the interpreter's [RecursionError].  A read never ends so
    when more calls are allowed than bytes are left.  The chain of [d + 1]
    compounds, each holding only the next under the empty name, shows that
    any depth is decoded: it decodes to its tree, consuming exactly its
    bytes, when more than [d] calls are allowed, and ends in
    [RecursionError] otherwise. *)
Theorem nested_compound_decodes (depth depth' : nat) (tag_type : Z)
  (s s' : BytesIO.t) (v : value) :
  (CompleteMccReader.read_tag depth' tag_type s = Ok (v, s') ->
   (compound_depth v <= depth')%nat /\
   ((depth' <= depth)%nat ->
    CompleteMccReader.read_tag depth tag_type s = Ok (v, s')) /\
   ((depth < compound_depth v)%nat ->
    CompleteMccReader.read_tag depth tag_type s = Raise RecursionError)) /\
  (SnowballTimeline.read_tag depth' tag_type s = Ok (v, s') ->
   (compound_depth v <= depth')%nat /\
   ((depth' <= depth)%nat ->
    SnowballTimeline.read_tag depth tag_type s = Ok (v, s')) /\
   ((depth < compound_depth v)%nat ->
    SnowballTimeline.read_tag depth tag_type s = Raise RecursionError)) /\
  ((left s < depth)%nat ->
   CompleteMccReader.read_tag depth tag_type s <> Raise RecursionError /\
   SnowballTimeline.read_tag depth tag_type s <> Raise RecursionError) /\
  (forall (d : nat) (rest : bytes),
   BytesIO.remaining s = nested_compound d ++ rest ->
   compound_depth (nested_value d) = S d /\
   CompleteMccReader.read_tag depth TAG_Compound s =
     (if (d <? depth)%nat
      then Ok (nested_value d, advance (length (nested_compound d)) s)
      else Raise RecursionError) /\
   SnowballTimeline.read_tag depth TAG_Compound s =
     (if (d <? depth)%nat
      then Ok (nested_value d, advance (length (nested_compound d)) s)
      else Raise RecursionError)).
Proof.
  split; [apply read_tag_depth_bound; exact complete_otherwise_flat|].
  split; [apply read_tag_depth_bound; exact snowball_otherwise_flat|].
  split.
  - intros L. split.
    + apply (read_tag_safe _ complete_otherwise_forward
               complete_otherwise_safe depth tag_type s L).
    + apply (read_tag_safe _ snowball_otherwise_forward
               snowball_otherwise_safe depth tag_type s L).
  - intros d rest H.
    split; [apply compound_depth_nested|].
    split; apply (read_nested_compound _ d depth s rest H).
Qed.

Lemma nested_compound_decodes_witness :
  CompleteMccReader.read_tag 1 TAG_Compound
    (BytesIO.open (nested_compound 1 ++ [x07]))
  = Raise RecursionError /\
  compound_depth (nested_value 1) = 2%nat /\
  CompleteMccReader.read_tag 3 TAG_Compound
    (BytesIO.open (nested_compound 1 ++ [x07]))
  = Ok (nested_value 1,
        advance 5 (BytesIO.open (nested_compound 1 ++ [x07]))) /\
  SnowballTimeline.read_tag 3 TAG_Compound
    (BytesIO.open (nested_compound 1 ++ [x07]))
  = Ok (nested_value 1,
        advance 5 (BytesIO.open (nested_compound 1 ++ [x07]))).
Proof.
  split.
  - apply (proj1 (nested_compound_decodes 1 3 TAG_Compound
                    (BytesIO.open (nested_compound 1 ++ [x07]))
                    (advance 5 (BytesIO.open (nested_compound 1 ++ [x07])))
                    (nested_value 1))).
    + reflexivity.
    + simpl. lia.
  - apply (proj2 (proj2 (proj2
             (nested_compound_decodes 3 3 TAG_Compound
                (BytesIO.open (nested_compound 1 ++ [x07]))
                (BytesIO.open (nested_compound 1 ++ [x07])) VNone)))
             1%nat [x07]).
    reflexivity.
Defined.

(** ** Counts *)

Lemma signed4_negative (b0 b1 b2 b3 : byte) :
  128 <= u8 b0 -> Struct.signed 4 [b0; b1; b2; b3] < 0.
Proof.
  intros H. unfold Struct.signed, Struct.unsigned, Struct.be_fold. cbv zeta.
  pose proof (u8_range b0). pose proof (u8_range b1).
  pose proof (u8_range b2). pose proof (u8_range b3).
  change (2 ^ (8 * Z.of_nat 4)) with 4294967296.
  change (4294967296 / 2) with 2147483648.
  match goal with
  | |- (if ?c then _ else _) < 0 => destruct c eqn:E
  end.
  - apply Z.ltb_lt in E. lia.
  - lia.
Qed.

Lemma range_negative (n : Z) : n < 0 -> range n = 0%nat.
Proof. intros H. unfold range. destruct n; simpl; lia || reflexivity. Qed.

Lemma comprehension_none (otherwise : Z -> M value) (depth n : nat)
      (s : BytesIO.t) :
  comprehension n (read_tag otherwise (S depth) TAG_End) s
  = Ok (repeat VNone n, s).
Proof.
  induction n as [|n IH]; [reflexivity|].
  simpl comprehension.
  rewrite (bind_ok _ _ s s VNone) by reflexivity.
  rewrite (bind_ok _ _ _ _ _ IH). reflexivity.
Qed.

Section Counts.

Variable otherwise : Z -> M value.

Lemma array_negative_count (depth : nat) (s : BytesIO.t)
      (b0 b1 b2 b3 : byte) (rest : bytes) :
  BytesIO.remaining s = b0 :: b1 :: b2 :: b3 :: rest -> 128 <= u8 b0 ->
  read_tag otherwise (S depth) TAG_Byte_Array s = Ok (VList [], advance 4 s) /\
  read_tag otherwise (S depth) TAG_Int_Array s = Ok (VList [], advance 4 s) /\
  read_tag otherwise (S depth) TAG_Long_Array s = Ok (VList [], advance 4 s).
Proof.
  intros H Hneg.
  pose proof (read_int_cons _ _ _ _ _ _ H) as R.
  pose proof (range_negative _ (signed4_negative b0 b1 b2 b3 Hneg)) as Z0.
  repeat split; simpl; unfold read_tag_with; simpl;
    rewrite (bind_ok _ _ _ _ _ R), Z0; reflexivity.
Qed.

Lemma list_negative_count (depth : nat) (s : BytesIO.t)
      (t b0 b1 b2 b3 : byte) (rest : bytes) :
  BytesIO.remaining s = t :: b0 :: b1 :: b2 :: b3 :: rest -> 128 <= u8 b0 ->
  read_list otherwise depth s = Ok (VList [], advance 5 s) /\
  read_tag otherwise (S depth) TAG_List s = Ok (VList [], advance 5 s).
Proof.
  intros H Hneg.
  assert (R : read_list otherwise depth s = Ok (VList [], advance 5 s)).
  { unfold read_list, read_list_with.
    rewrite (bind_ok _ _ _ _ _ (read_ubyte_cons _ _ _ H)).
    assert (H1 : BytesIO.remaining (advance 1 s) = b0 :: b1 :: b2 :: b3 :: rest).
    { rewrite remaining_advance, H. reflexivity. }
    rewrite (bind_ok _ _ _ _ _ (read_int_cons _ _ _ _ _ _ H1)).
    rewrite (range_negative _ (signed4_negative b0 b1 b2 b3 Hneg)).
    simpl. unfold bind, ret. rewrite advance_advance. reflexivity. }
  split; [exact R|]. exact R.
Qed.

Lemma list_of_end (depth : nat) (s : BytesIO.t)
      (b0 b1 b2 b3 : byte) (rest : bytes) :
  BytesIO.remaining s = x00 :: b0 :: b1 :: b2 :: b3 :: rest ->
  read_list otherwise (S depth) s
  = Ok (VList (repeat VNone (range (Struct.signed 4 [b0; b1; b2; b3]))),
        advance 5 s) /\
  read_tag otherwise (S (S depth)) TAG_List s
  = Ok (VList (repeat VNone (range (Struct.signed 4 [b0; b1; b2; b3]))),
        advance 5 s).
Proof.
  intros H.
  assert (R : read_list otherwise (S depth) s
              = Ok (VList (repeat VNone
                             (range (Struct.signed 4 [b0; b1; b2; b3]))),
                    advance 5 s)).
  { unfold read_list, read_list_with.
    rewrite (bind_ok _ _ _ _ _ (read_ubyte_cons _ _ _ H)).
    assert (H1 : BytesIO.remaining (advance 1 s) = b0 :: b1 :: b2 :: b3 :: rest).
    { rewrite remaining_advance, H. reflexivity. }
    rewrite (bind_ok _ _ _ _ _ (read_int_cons _ _ _ _ _ _ H1)).
    change (u8 x00) with TAG_End.
    rewrite (bind_ok _ _ _ _ _ (comprehension_none otherwise depth _ _)).
    unfold ret. rewrite advance_advance. reflexivity. }
  split; [exact R|]. exact R.
Qed.

End Counts.

(** C2, as stated, fails: a count of -1 is taken as a count of nothing.  The
    byte array and the list below decode to empty lists. *)
Lemma negative_count_counterexample :
  CompleteMccReader.decode 4 [x07; x00; x00; xff; xff; xff; xff]
  = Ok (VDict [([], VList [])]) /\
  CompleteMccReader.decode 4 [x09; x00; x00; x03; xff; xff; xff; xff]
  = Ok (VDict [([], VList [])]) /\
  SnowballTimeline.decode 4 [x07; x00; x00; xff; xff; xff; xff]
  = Ok (VDict [([], VList [])]) /\
  SnowballTimeline.decode 4 [x09; x00; x00; x03; xff; xff; xff; xff]
  = Ok (VDict [([], VList [])]).
Proof. repeat split. Qed.

(** C2, amended.  The readers do not validate counts.  A count field with
    its sign bit set makes [range(length)] empty: ByteArray, IntArray and
    LongArray decode to the empty list having read the four count bytes
    only, and a List to the empty list having read its type byte and the
    four count bytes only.  No exception is raised. *)
Theorem negative_count_reads_empty (depth : nat) (s : BytesIO.t)
  (b0 b1 b2 b3 : byte) (rest : bytes)
  (H : BytesIO.remaining s = b0 :: b1 :: b2 :: b3 :: rest)
  (Hneg : 128 <= u8 b0) :
  Struct.signed 4 [b0; b1; b2; b3] < 0 /\
  (forall tag_type,
     tag_type = TAG_Byte_Array \/ tag_type = TAG_Int_Array
     \/ tag_type = TAG_Long_Array ->
     CompleteMccReader.read_tag (S depth) tag_type s
       = Ok (VList [], advance 4 s) /\
     SnowballTimeline.read_tag (S depth) tag_type s
       = Ok (VList [], advance 4 s)) /\
  (forall (s0 : BytesIO.t) (t : byte),
     BytesIO.remaining s0 = t :: b0 :: b1 :: b2 :: b3 :: rest ->
     CompleteMccReader.read_list depth s0 = Ok (VList [], advance 5 s0) /\
     CompleteMccReader.read_tag (S depth) TAG_List s0
       = Ok (VList [], advance 5 s0) /\
     SnowballTimeline.read_list depth s0 = Ok (VList [], advance 5 s0) /\
     SnowballTimeline.read_tag (S depth) TAG_List s0
       = Ok (VList [], advance 5 s0)).
Proof.
  split; [apply signed4_negative; exact Hneg|]. split.
  - intros tag_type Ht.
    destruct (array_negative_count CompleteMccReader.otherwise depth s
                b0 b1 b2 b3 rest H Hneg) as [A1 [A2 A3]].
    destruct (array_negative_count SnowballTimeline.otherwise depth s
                b0 b1 b2 b3 rest H Hneg) as [B1 [B2 B3]].
    destruct Ht as [-> | [-> | ->]]; split; assumption.
  - intros s0 t H0.
    destruct (list_negative_count CompleteMccReader.otherwise depth s0
                t b0 b1 b2 b3 rest H0 Hneg) as [A1 A2].
    destruct (list_negative_count SnowballTimeline.otherwise depth s0
                t b0 b1 b2 b3 rest H0 Hneg) as [B1 B2].
    repeat split; assumption.
Qed.

Lemma negative_count_reads_empty_witness :
  Struct.signed 4 [x80; x00; x00; x00] < 0 /\
  CompleteMccReader.read_tag 1 TAG_Int_Array
    (BytesIO.open [x80; x00; x00; x00; x2a])
  = Ok (VList [], advance 4 (BytesIO.open [x80; x00; x00; x00; x2a])) /\
  SnowballTimeline.read_list 0
    (BytesIO.open [x03; x80; x00; x00; x00; x2a])
  = Ok (VList [], advance 5 (BytesIO.open [x03; x80; x00; x00; x00; x2a])).
Proof.
  destruct (negative_count_reads_empty 0
              (BytesIO.open [x80; x00; x00; x00; x2a])
              x80 x00 x00 x00 [x2a] eq_refl)
    as [N [A L]].
  - vm_compute. discriminate.
  - split; [exact N|]. split.
    + apply (A TAG_Int_Array). right. left. reflexivity.
    + apply (L (BytesIO.open [x03; x80; x00; x00; x00; x2a]) x03 eq_refl).
Defined.

(** C9, as stated, fails: a list of three elements of type End decodes to
    three [None]s. *)
Lemma list_of_end_counterexample :
  CompleteMccReader.decode 4 [x09; x00; x00; x00; x00; x00; x00; x03]
  = Ok (VDict [([], VList [VNone; VNone; VNone])]) /\
  SnowballTimeline.decode 4 [x09; x00; x00; x00; x00; x00; x00; x03]
  = Ok (VDict [([], VList [VNone; VNone; VNone])]).
Proof. repeat split. Qed.

(** C9, amended.  A List whose element type is End and whose count [n] is
    positive is not rejected: since [read_tag(TAG_End)] returns [None]
    without reading, the list decodes to [n] times [None], and only the type
    byte and the four count bytes are consumed. *)
Theorem list_of_end_reads_nones (depth : nat) (s : BytesIO.t)
  (b0 b1 b2 b3 : byte) (rest : bytes)
  (H : BytesIO.remaining s = x00 :: b0 :: b1 :: b2 :: b3 :: rest)
  (Hpos : 0 < Struct.signed 4 [b0; b1; b2; b3]) :
  let n := Z.to_nat (Struct.signed 4 [b0; b1; b2; b3]) in
  (0 < n)%nat /\
  CompleteMccReader.read_list (S depth) s
    = Ok (VList (repeat VNone n), advance 5 s) /\
  CompleteMccReader.read_tag (S (S depth)) TAG_List s
    = Ok (VList (repeat VNone n), advance 5 s) /\
  SnowballTimeline.read_list (S depth) s
    = Ok (VList (repeat VNone n), advance 5 s) /\
  SnowballTimeline.read_tag (S (S depth)) TAG_List s
    = Ok (VList (repeat VNone n), advance 5 s).
Proof.
  intros n. split; [unfold n; lia|].
  destruct (list_of_end CompleteMccReader.otherwise depth s b0 b1 b2 b3 rest H)
    as [A1 A2].
  destruct (list_of_end SnowballTimeline.otherwise depth s b0 b1 b2 b3 rest H)
    as [B1 B2].
  repeat split; assumption.
Qed.

Lemma list_of_end_reads_nones_witness :
  (0 < 2)%nat /\
  CompleteMccReader.read_list 1 (BytesIO.open [x00; x00; x00; x00; x02; x2a])
    = Ok (VList [VNone; VNone],
          advance 5 (BytesIO.open [x00; x00; x00; x00; x02; x2a])) /\
  CompleteMccReader.read_tag 2 TAG_List
    (BytesIO.open [x00; x00; x00; x00; x02; x2a])
    = Ok (VList [VNone; VNone],
          advance 5 (BytesIO.open [x00; x00; x00; x00; x02; x2a])) /\
  SnowballTimeline.read_list 1 (BytesIO.open [x00; x00; x00; x00; x02; x2a])
    = Ok (VList [VNone; VNone],
          advance 5 (BytesIO.open [x00; x00; x00; x00; x02; x2a])) /\
  SnowballTimeline.read_tag 2 TAG_List
    (BytesIO.open [x00; x00; x00; x00; x02; x2a])
    = Ok (VList [VNone; VNone],
          advance 5 (BytesIO.open [x00; x00; x00; x00; x02; x2a])).
Proof.
  apply (list_of_end_reads_nones 0
           (BytesIO.open [x00; x00; x00; x00; x02; x2a])
           x00 x00 x00 x02 [x2a] eq_refl).
  vm_compute. reflexivity.
Defined.

(** ** Truncated buffers and unknown tag types *)

Lemma truncated_fixed_width (s : BytesIO.t) :
  ((left s < 1)%nat ->
     read_byte s = Raise StructError /\ read_ubyte s = Raise StructError) /\
  ((left s < 2)%nat ->
     read_short s = Raise StructError /\ read_string s = Raise StructError) /\
  ((left s < 4)%nat ->
     read_int s = Raise StructError /\ read_float s = Raise StructError) /\
  ((left s < 8)%nat ->
     read_long s = Raise StructError /\ read_double s = Raise StructError).
Proof.
  split; [|split; [|split]]; intros L; split.
  - exact (read_fixed_short 1 _ s L).
  - exact (read_fixed_short 1 _ s L).
  - exact (read_fixed_short 2 _ s L).
  - rewrite read_string_eq.
    destruct (2 <=? left s)%nat eqn:E; [apply Nat.leb_le in E; lia|].
    reflexivity.
  - exact (read_fixed_short 4 _ s L).
  - exact (read_fixed_short 4 _ s L).
  - exact (read_fixed_short 8 _ s L).
  - exact (read_fixed_short 8 _ s L).
Qed.

Section UnknownTag.

Variable otherwise : Z -> M value.

(** Outside 0..12 [read_tag] is its last branch. *)
Lemma read_tag_unknown (depth : nat) (tag_type : Z) (s : BytesIO.t) :
  tag_type < 0 \/ 12 < tag_type ->
  read_tag otherwise (S depth) tag_type s = otherwise tag_type s.
Proof.
  intros H. simpl. unfold read_tag_with.
  unfold TAG_End, TAG_Byte, TAG_Short, TAG_Int, TAG_Long, TAG_Float,
    TAG_Double, TAG_Byte_Array, TAG_String, TAG_List, TAG_Compound,
    TAG_Int_Array, TAG_Long_Array.
  repeat match goal with
         | |- context [?a =? ?b] =>
             let E := fresh "E" in
             destruct (a =? b) eqn:E; [apply Z.eqb_eq in E; lia | clear E]
         end.
  reflexivity.
Qed.

End UnknownTag.

(** In [complete_mcc_reader.py] a type code outside 0..12 raises
    [ValueError] naming the code. *)
Lemma complete_unknown_tag (depth : nat) (tag_type : Z) (s : BytesIO.t) :
  tag_type < 0 \/ 12 < tag_type ->
  CompleteMccReader.read_tag (S depth) tag_type s
  = Raise (ValueError tag_type).
Proof.
  intros H. exact (read_tag_unknown CompleteMccReader.otherwise _ _ s H).
Qed.

(** In [snowball_timeline.py] such a code is accepted: the value is [None]
    and nothing is read. *)
Lemma snowball_unknown_tag (depth : nat) (tag_type : Z) (s : BytesIO.t) :
  tag_type < 0 \/ 12 < tag_type ->
  SnowballTimeline.read_tag (S depth) tag_type s = Ok (VNone, s).
Proof.
  intros H. exact (read_tag_unknown SnowballTimeline.otherwise _ _ s H).
Qed.

(** C4 fails in [snowball_timeline.py].  Its [read_tag] ends without an
    [else], so type code 13 yields [None]: a document whose root has type 13
    decodes to [{'': None}], and a list of two elements of type 200 to two
    [None]s.  The sibling class in [complete_mcc_reader.py] raises
    [ValueError] on the same bytes. *)
Theorem snowball_accepts_unknown_tag :
  SnowballTimeline.read_tag 1 13 (BytesIO.open [])
    = Ok (VNone, BytesIO.open []) /\
  SnowballTimeline.decode 4 [x0d; x00; x00] = Ok (VDict [([], VNone)]) /\
  SnowballTimeline.decode 4 [x09; x00; x00; xc8; x00; x00; x00; x02]
    = Ok (VDict [([], VList [VNone; VNone])]) /\
  CompleteMccReader.read_tag 1 13 (BytesIO.open []) = Raise (ValueError 13) /\
  CompleteMccReader.decode 4 [x0d; x00; x00] = Raise (ValueError 13) /\
  CompleteMccReader.decode 4 [x09; x00; x00; xc8; x00; x00; x00; x02]
    = Raise (ValueError 200).
Proof. repeat split. Qed.

(** ** Compounds *)

Lemma str_eqb_eq (a b : str) : str_eqb a b = true <-> a = b.
Proof.
  unfold str_eqb. destruct (list_eq_dec Z.eq_dec a b); split; intros H;
    (congruence || reflexivity || discriminate).
Qed.

Lemma str_eqb_refl (a : str) : str_eqb a a = true.
Proof. apply str_eqb_eq. reflexivity. Qed.

Lemma str_eqb_neq (a b : str) : str_eqb a b = false <-> a <> b.
Proof.
  unfold str_eqb. destruct (list_eq_dec Z.eq_dec a b); split; intros H;
    (congruence || reflexivity || discriminate).
Qed.

Lemma dict_get_set (k k' : str) (v : value) (d : dict) :
  dict_get k (dict_set k' v d)
  = if str_eqb k k' then Some v else dict_get k d.
Proof.
  induction d as [|[k0 v0] d IH]; simpl.
  - reflexivity.
  - destruct (str_eqb k' k0) eqn:E0; simpl.
    + apply str_eqb_eq in E0. subst k0.
      destruct (str_eqb k k'); reflexivity.
    + destruct (str_eqb k k0) eqn:E1.
      * apply str_eqb_eq in E1. subst k0.
        destruct (str_eqb k k') eqn:E2; [|reflexivity].
        apply str_eqb_eq in E2. subst k'.
        rewrite str_eqb_refl in E0. discriminate.
      * exact IH.
Qed.

(** Last write wins. *)
Lemma dict_get_insert_all (name : str) (entries : list (str * value))
      (d : dict) :
  dict_get name (insert_all entries d)
  = match last_value name entries with
    | Some v => Some v
    | None => dict_get name d
    end.
Proof.
  revert d. induction entries as [|[k v] entries IH]; intros d; simpl.
  - reflexivity.
  - unfold insert_all in *. simpl. rewrite IH.
    destruct (last_value name entries); [reflexivity|].
    rewrite dict_get_set. destruct (str_eqb name k); reflexivity.
Qed.

Lemma dict_set_fresh (k : str) (v : value) (d : dict) :
  ~ In k (dict_keys d) -> dict_set k v d = d ++ [(k, v)].
Proof.
  induction d as [|[k0 v0] d IH]; simpl; intros H.
  - reflexivity.
  - destruct (str_eqb k k0) eqn:E.
    + apply str_eqb_eq in E. subst. exfalso. apply H. left. reflexivity.
    + rewrite IH; [reflexivity|]. intros Q. apply H. right. exact Q.
Qed.

(** Distinct names are kept in read order. *)
Lemma insert_all_nodup (entries : list (str * value)) (d : dict) :
  NoDup (dict_keys (d ++ entries)) -> insert_all entries d = d ++ entries.
Proof.
  revert d. induction entries as [|[k v] entries IH]; intros d H.
  - simpl. rewrite app_nil_r. reflexivity.
  - unfold insert_all in *. simpl.
    assert (Hk : ~ In k (dict_keys d)).
    { unfold dict_keys in *. rewrite map_app in H. simpl in H.
      apply NoDup_remove_2 in H. intros Q. apply H.
      apply in_or_app. left. exact Q. }
    rewrite (dict_set_fresh k v d Hk).
    rewrite IH; rewrite <- app_assoc; [reflexivity | exact H].
Qed.

Lemma compound_loop_sound (rt : Z -> M value) (turns : nat) :
  forall (acc : dict) (s s' : BytesIO.t) (v : value),
  compound_loop rt turns acc s = Ok (v, s') ->
  exists entries,
    spec_compound rt s entries s' /\ v = VDict (insert_all entries acc).
Proof.
  induction turns as [|turns IH]; intros acc s s' v H; simpl in H.
  - discriminate H.
  - unfold bind in H.
    destruct (read_ubyte s) as [[t s1]|e] eqn:E1; [|discriminate H].
    destruct (t =? TAG_End) eqn:Et.
    + apply Z.eqb_eq in Et. subst t. inversion H; subst.
      exists []. split; [constructor; exact E1 | reflexivity].
    + apply Z.eqb_neq in Et.
      destruct (read_string s1) as [[name s2]|e] eqn:E2; [|discriminate H].
      destruct (rt t s2) as [[x s3]|e] eqn:E3; [|discriminate H].
      destruct (IH _ _ _ _ H) as [entries [Hs Hv]].
      exists ((name, x) :: entries). split.
      * econstructor; eassumption.
      * exact Hv.
Qed.

Lemma compound_loop_complete (rt : Z -> M value) :
  (forall t, forward (rt t)) ->
  forall (s s' : BytesIO.t) (entries : list (str * value)),
  spec_compound rt s entries s' ->
  forall (turns : nat) (acc : dict), (left s < turns)%nat ->
  compound_loop rt turns acc s = Ok (VDict (insert_all entries acc), s').
Proof.
  intros Frt s s' entries H.
  induction H as [s s1 E1 | s t s1 name s2 v s3 entries s4 E1 Et E2 E3 H IH];
    intros turns acc L.
  - destruct turns as [|turns]; [lia|]. simpl.
    rewrite (bind_ok _ _ _ _ _ E1). reflexivity.
  - destruct turns as [|turns]; [lia|]. simpl.
    rewrite (bind_ok _ _ _ _ _ E1).
    apply Z.eqb_neq in Et. rewrite Et.
    rewrite (bind_ok _ _ _ _ _ E2), (bind_ok _ _ _ _ _ E3).
    apply IH.
    destruct (read_ubyte_ok _ _ _ E1) as [L1 ->].
    destruct (forward_read_string _ _ _ E2) as [k2 [L2 ->]].
    destruct (Frt _ _ _ _ E3) as [k3 [L3 ->]].
    repeat rewrite left_advance. lia.
Qed.

Section Compound.

Variable otherwise : Z -> M value.
Hypothesis otherwise_forward : forall t, forward (otherwise t).

Lemma read_compound_spec (depth : nat) (s s' : BytesIO.t) (v : value) :
  read_compound otherwise depth s = Ok (v, s') <->
  exists entries,
    spec_compound (read_tag otherwise depth) s entries s' /\
    v = VDict (insert_all entries []).
Proof.
  unfold read_compound, read_compound_with. split.
  - apply compound_loop_sound.
  - intros [entries [Hs ->]].
    apply compound_loop_complete; [|exact Hs|fold (left s); lia].
    intros t. apply forward_read_tag. exact otherwise_forward.
Qed.

End Compound.

(** C5.  [read_compound] succeeds exactly on the payloads the spec
    describes: type byte, then End closes the compound, anything else is
    followed by a u16-prefixed name and the value of that type; the result
    is the mapping obtained by inserting the pairs in read order.  In that
    mapping a name is bound to the value of its last entry, and when the
    names are distinct the mapping lists the pairs exactly as read. *)
Theorem read_compound_entries (depth : nat) (s s' : BytesIO.t) (v : value) :
  (CompleteMccReader.read_compound depth s = Ok (v, s') <->
   exists entries,
     spec_compound (CompleteMccReader.read_tag depth) s entries s' /\
     v = VDict (insert_all entries [])) /\
  (SnowballTimeline.read_compound depth s = Ok (v, s') <->
   exists entries,
     spec_compound (SnowballTimeline.read_tag depth) s entries s' /\
     v = VDict (insert_all entries [])) /\
  CompleteMccReader.read_tag (S depth) TAG_Compound s
    = CompleteMccReader.read_compound depth s /\
  SnowballTimeline.read_tag (S depth) TAG_Compound s
    = SnowballTimeline.read_compound depth s /\
  (forall entries name,
     dict_get name (insert_all entries []) = last_value name entries) /\
  (forall entries,
     NoDup (map fst entries) -> insert_all entries [] = entries).
Proof.
  split; [apply read_compound_spec; apply complete_otherwise_forward|].
  split; [apply read_compound_spec; apply snowball_otherwise_forward|].
  split; [reflexivity|]. split; [reflexivity|]. split.
  - intros entries name. rewrite dict_get_insert_all.
    destruct (last_value name entries); reflexivity.
  - intros entries H. apply (insert_all_nodup entries []). exact H.
Qed.

(** Two entries with one name: the mapping keeps the place of the first and
    the value of the second. *)
Example read_compound_duplicate :
  CompleteMccReader.read_compound 1
    (BytesIO.open [x01; x00; x01; x61; x05;
                   x01; x00; x01; x62; x06;
                   x01; x00; x01; x61; x07; x00])
  = Ok (VDict [([97], VInt 7); ([98], VInt 6)],
        advance 16 (BytesIO.open [x01; x00; x01; x61; x05;
                                  x01; x00; x01; x62; x06;
                                  x01; x00; x01; x61; x07; x00])).
Proof. reflexivity. Qed.

(** ** Lists *)

Lemma comprehension_spec {A} (m : M A) (n : nat) :
  forall (s s' : BytesIO.t) (vs : list A),
  comprehension n m s = Ok (vs, s') <-> spec_elements m n s vs s'.
Proof.
  induction n as [|n IH]; intros s s' vs; simpl; split; intros H.
  - inversion H; subst. constructor.
  - inversion H; subst. reflexivity.
  - unfold bind in H.
    destruct (m s) as [[x s1]|e] eqn:E; [|discriminate H].
    destruct (comprehension n m s1) as [[xs s2]|e] eqn:E'; [|discriminate H].
    inversion H; subst. econstructor; [exact E|]. apply IH. exact E'.
  - inversion H as [|n' s0 x s1 xs s2 E H']; subst.
    apply IH in H'.
    rewrite (bind_ok _ _ _ _ _ E), (bind_ok _ _ _ _ _ H'). reflexivity.
Qed.

Lemma spec_elements_length {A} (m : M A) (n : nat) (s s' : BytesIO.t)
      (vs : list A) :
  spec_elements m n s vs s' -> length vs = n.
Proof.
  intros H. induction H; simpl; congruence.
Qed.

Section List.

Variable otherwise : Z -> M value.

Lemma read_list_spec (depth : nat) (s s' : BytesIO.t) (v : value) :
  read_list otherwise depth s = Ok (v, s') <->
  exists tag_type s1 count s2 vs,
    read_ubyte s = Ok (tag_type, s1) /\
    read_int s1 = Ok (count, s2) /\
    spec_elements (read_tag otherwise depth tag_type) (Z.to_nat count)
      s2 vs s' /\
    v = VList vs.
Proof.
  unfold read_list, read_list_with. split.
  - intros H. unfold bind in H.
    destruct (read_ubyte s) as [[t s1]|e] eqn:E1; [|discriminate H].
    destruct (read_int s1) as [[n s2]|e] eqn:E2; [|discriminate H].
    destruct (comprehension (range n) (read_tag otherwise depth t) s2)
      as [[vs s3]|e] eqn:E3; [|discriminate H].
    inversion H; subst.
    exists t, s1, n, s2, vs. repeat split; try assumption.
    apply comprehension_spec. exact E3.
  - intros [t [s1 [n [s2 [vs [E1 [E2 [E3 ->]]]]]]]].
    apply comprehension_spec in E3.
    rewrite (bind_ok _ _ _ _ _ E1), (bind_ok _ _ _ _ _ E2).
    unfold range. rewrite (bind_ok _ _ _ _ _ E3). reflexivity.
Qed.

Lemma read_list_empty (depth : nat) (s s1 s2 : BytesIO.t) (tag_type : Z) :
  read_ubyte s = Ok (tag_type, s1) -> read_int s1 = Ok (0, s2) ->
  read_list otherwise depth s = Ok (VList [], s2).
Proof.
  intros E1 E2. unfold read_list, read_list_with.
  rewrite (bind_ok _ _ _ _ _ E1), (bind_ok _ _ _ _ _ E2). reflexivity.
Qed.

End List.

(** C6.  [read_list] succeeds exactly when it can read the element-type
    byte, the signed 32-bit count, and then as many elements as the count
    says, each by [read_tag] at the element type; the result lists them in
    read order, so its length is the count.  With count 0 no element is
    decoded and the result is the empty list, whatever the element-type byte,
    End included. *)
Theorem read_list_elements (depth : nat) (s s' : BytesIO.t) (v : value) :
  (CompleteMccReader.read_list depth s = Ok (v, s') <->
   exists tag_type s1 count s2 vs,
     read_ubyte s = Ok (tag_type, s1) /\
     read_int s1 = Ok (count, s2) /\
     spec_elements (CompleteMccReader.read_tag depth tag_type)
       (Z.to_nat count) s2 vs s' /\
     v = VList vs) /\
  (SnowballTimeline.read_list depth s = Ok (v, s') <->
   exists tag_type s1 count s2 vs,
     read_ubyte s = Ok (tag_type, s1) /\
     read_int s1 = Ok (count, s2) /\
     spec_elements (SnowballTimeline.read_tag depth tag_type)
       (Z.to_nat count) s2 vs s' /\
     v = VList vs) /\
  CompleteMccReader.read_tag (S depth) TAG_List s
    = CompleteMccReader.read_list depth s /\
  SnowballTimeline.read_tag (S depth) TAG_List s
    = SnowballTimeline.read_list depth s /\
  (forall (m : M value) count s2 vs s3,
     0 <= count -> spec_elements m (Z.to_nat count) s2 vs s3 ->
     Z.of_nat (length vs) = count) /\
  (forall tag_type s1 s2,
     read_ubyte s = Ok (tag_type, s1) -> read_int s1 = Ok (0, s2) ->
     CompleteMccReader.read_list depth s = Ok (VList [], s2) /\
     SnowballTimeline.read_list depth s = Ok (VList [], s2)).
Proof.
  split; [apply read_list_spec|]. split; [apply read_list_spec|].
  split; [reflexivity|]. split; [reflexivity|]. split.
  - intros m count s2 vs s3 Hc H.
    rewrite (spec_elements_length _ _ _ _ _ H). lia.
  - intros t s1 s2 E1 E2. split; eapply read_list_empty; eassumption.
Qed.

(** Three ints, in order; and an empty list of element type End. *)
Example read_list_three_ints :
  CompleteMccReader.read_list 1
    (BytesIO.open [x03; x00; x00; x00; x03;
                   x00; x00; x00; x01; x00; x00; x00; x02;
                   xff; xff; xff; xfd])
  = Ok (VList [VInt 1; VInt 2; VInt (-3)],
        advance 17 (BytesIO.open [x03; x00; x00; x00; x03;
                                  x00; x00; x00; x01; x00; x00; x00; x02;
                                  xff; xff; xff; xfd])) /\
  CompleteMccReader.read_list 0 (BytesIO.open [x00; x00; x00; x00; x00])
  = Ok (VList [], advance 5 (BytesIO.open [x00; x00; x00; x00; x00])).
Proof. split; reflexivity. Qed.

(** ** Strings *)

Lemma decode_replace_cons (b0 : byte) (t1 : bytes) :
  Utf8.decode_replace (b0 :: t1) =
  let ch := u8 b0 in
  if ch <? 0x80 then ch :: Utf8.decode_replace t1
  else if ch <? 0xC2 then Utf8.REPLACEMENT :: Utf8.decode_replace t1
  else if ch <? 0xE0 then
    match t1 with
    | [] => [Utf8.REPLACEMENT]
    | b1 :: t2 =>
      let ch2 := u8 b1 in
      if Utf8.is_continuation ch2
      then ((ch - 0xC0) * 64 + (ch2 - 0x80)) :: Utf8.decode_replace t2
      else Utf8.REPLACEMENT :: Utf8.decode_replace t1
    end
  else if ch <? 0xF0 then
    match t1 with
    | [] => [Utf8.REPLACEMENT]
    | b1 :: t2 =>
      let ch2 := u8 b1 in
      if negb (Utf8.is_continuation ch2)
         || (if ch2 <? 0xA0 then ch =? 0xE0 else ch =? 0xED)
      then Utf8.REPLACEMENT :: Utf8.decode_replace t1
      else
        match t2 with
        | [] => [Utf8.REPLACEMENT]
        | b2 :: t3 =>
          let ch3 := u8 b2 in
          if Utf8.is_continuation ch3
          then ((ch - 0xE0) * 4096 + (ch2 - 0x80) * 64 + (ch3 - 0x80))
                 :: Utf8.decode_replace t3
          else Utf8.REPLACEMENT :: Utf8.decode_replace t2
        end
    end
  else if ch <? 0xF5 then
    match t1 with
    | [] => [Utf8.REPLACEMENT]
    | b1 :: t2 =>
      let ch2 := u8 b1 in
      if negb (Utf8.is_continuation ch2)
         || (if ch2 <? 0x90 then ch =? 0xF0 else ch =? 0xF4)
      then Utf8.REPLACEMENT :: Utf8.decode_replace t1
      else
        match t2 with
        | [] => [Utf8.REPLACEMENT]
        | b2 :: t3 =>
          let ch3 := u8 b2 in
          if negb (Utf8.is_continuation ch3)
          then Utf8.REPLACEMENT :: Utf8.decode_replace t2
          else
            match t3 with
            | [] => [Utf8.REPLACEMENT]
            | b3 :: t4 =>
              let ch4 := u8 b3 in
              if Utf8.is_continuation ch4
              then ((ch - 0xF0) * 262144 + (ch2 - 0x80) * 4096
                    + (ch3 - 0x80) * 64 + (ch4 - 0x80))
                     :: Utf8.decode_replace t4
              else Utf8.REPLACEMENT :: Utf8.decode_replace t3
            end
        end
    end
  else Utf8.REPLACEMENT :: Utf8.decode_replace t1.
Proof. destruct t1 as [|b1 [|b2 [|b3 t4]]]; reflexivity. Qed.

Lemma scalar_replacement : Utf8.scalar Utf8.REPLACEMENT.
Proof. unfold Utf8.scalar, Utf8.REPLACEMENT. lia. Qed.

Ltac split_if :=
  match goal with
  | |- context [if ?c then _ else _] =>
      let E := fresh "E" in destruct c eqn:E
  end.

(** Whatever the bytes, decoding yields scalar values only: what is not
    well-formed UTF-8 (stray or missing continuation bytes, overlong forms,
    surrogates, code points past U+10FFFF) comes out as U+FFFD. *)
Lemma decode_replace_scalar (bs : bytes) :
  Forall Utf8.scalar (Utf8.decode_replace bs).
Proof.
  assert (K : forall n bs, (length bs <= n)%nat ->
                           Forall Utf8.scalar (Utf8.decode_replace bs)).
  { clear bs. induction n as [|n IH]; intros bs L.
    - destruct bs; [constructor | simpl in L; lia].
    - destruct bs as [|b0 t1]; [constructor|].
      rewrite decode_replace_cons. cbv zeta.
      pose proof (u8_range b0) as R0.
      assert (I1 : Forall Utf8.scalar (Utf8.decode_replace t1))
        by (apply IH; simpl in L; lia).
      pose proof scalar_replacement as SR.
      repeat split_if; try (constructor; [exact SR | exact I1]).
      + constructor; [unfold Utf8.scalar; lia | exact I1].
      + destruct t1 as [|b1 t2]; [constructor; [exact SR|constructor]|].
        cbv zeta. pose proof (u8_range b1) as R1.
        split_if; [|constructor; [exact SR | exact I1]].
        constructor.
        * unfold Utf8.scalar, Utf8.is_continuation in *. lia.
        * apply IH. simpl in L. lia.
      + destruct t1 as [|b1 t2]; [constructor; [exact SR|constructor]|].
        cbv zeta. pose proof (u8_range b1) as R1.
        destruct (negb (Utf8.is_continuation (u8 b1))
                  || (if u8 b1 <? 0xA0 then u8 b0 =? 0xE0 else u8 b0 =? 0xED))
          eqn:C1; [constructor; [exact SR | exact I1]|].
        assert (I2 : Forall Utf8.scalar (Utf8.decode_replace t2))
          by (apply IH; simpl in L; lia).
        destruct t2 as [|b2 t3]; [constructor; [exact SR|constructor]|].
        cbv zeta. pose proof (u8_range b2) as R2.
        split_if; [|constructor; [exact SR | exact I2]].
        constructor.
        * unfold Utf8.scalar, Utf8.is_continuation in *.
          destruct (u8 b1 <? 0xA0) eqn:C2; lia.
        * apply IH. simpl in L. lia.
      + destruct t1 as [|b1 t2]; [constructor; [exact SR|constructor]|].
        cbv zeta. pose proof (u8_range b1) as R1.
        destruct (negb (Utf8.is_continuation (u8 b1))
                  || (if u8 b1 <? 0x90 then u8 b0 =? 0xF0 else u8 b0 =? 0xF4))
          eqn:C1; [constructor; [exact SR | exact I1]|].
        assert (I2 : Forall Utf8.scalar (Utf8.decode_replace t2))
          by (apply IH; simpl in L; lia).
        destruct t2 as [|b2 t3]; [constructor; [exact SR|constructor]|].
        cbv zeta. pose proof (u8_range b2) as R2.
        destruct (negb (Utf8.is_continuation (u8 b2))) eqn:C3;
          [constructor; [exact SR | exact I2]|].
        assert (I3 : Forall Utf8.scalar (Utf8.decode_replace t3))
          by (apply IH; simpl in L; lia).
        destruct t3 as [|b3 t4]; [constructor; [exact SR|constructor]|].
        cbv zeta. pose proof (u8_range b3) as R3.
        split_if; [|constructor; [exact SR | exact I3]].
        constructor.
        * unfold Utf8.scalar, Utf8.is_continuation in *.
          destruct (u8 b1 <? 0x90) eqn:C2; lia.
        * apply IH. simpl in L. lia. }
  apply (K (length bs)). apply Nat.le_refl.
Qed.

Ltac Zify.zify_post_hook ::= Z.to_euclidean_division_equations.

(** Deciding a test of the decoder when its operands are known. *)
Ltac settle_if :=
  match goal with
  | |- context [if ?c then _ else _] =>
      first [ replace c with true
                by (symmetry; unfold Utf8.is_continuation; lia)
            | replace c with false
                by (symmetry; unfold Utf8.is_continuation; lia) ]
  end.

(** One well-formed sequence decodes to the scalar value it encodes. *)
Lemma decode_replace_encode1 (c : Z) (rest : bytes) :
  Utf8.scalar c ->
  Utf8.decode_replace (map byte_of (Utf8.encode1 c) ++ rest)
  = c :: Utf8.decode_replace rest.
Proof.
  intros Hc. unfold Utf8.scalar in Hc. unfold Utf8.encode1.
  destruct (c <? 0x80) eqn:E1; [|destruct (c <? 0x800) eqn:E2;
                                  [|destruct (c <? 0x10000) eqn:E3]].
  - cbn [map app]. rewrite decode_replace_cons. cbv zeta.
    rewrite u8_byte_of by lia. settle_if. reflexivity.
  - cbn [map app]. rewrite decode_replace_cons. cbv zeta.
    rewrite !u8_byte_of by lia.
    repeat settle_if. f_equal. lia.
  - cbn [map app]. rewrite decode_replace_cons. cbv zeta.
    rewrite !u8_byte_of by lia.
    do 4 settle_if.
    assert (C : (if 0x80 + (c / 64) mod 64 <? 0xA0
                 then 0xE0 + c / 4096 =? 0xE0
                 else 0xE0 + c / 4096 =? 0xED) = false).
    { destruct (0x80 + (c / 64) mod 64 <? 0xA0) eqn:E; lia. }
    rewrite C.
    replace (Utf8.is_continuation (0x80 + (c / 64) mod 64)) with true
      by (symmetry; unfold Utf8.is_continuation; lia).
    cbn [negb orb].
    settle_if. f_equal. lia.
  - cbn [map app]. rewrite decode_replace_cons. cbv zeta.
    rewrite !u8_byte_of by lia.
    do 5 settle_if.
    assert (C : (if 0x80 + (c / 4096) mod 64 <? 0x90
                 then 0xF0 + c / 262144 =? 0xF0
                 else 0xF0 + c / 262144 =? 0xF4) = false).
    { destruct (0x80 + (c / 4096) mod 64 <? 0x90) eqn:E; lia. }
    rewrite C.
    replace (Utf8.is_continuation (0x80 + (c / 4096) mod 64)) with true
      by (symmetry; unfold Utf8.is_continuation; lia).
    replace (Utf8.is_continuation (0x80 + (c / 64) mod 64)) with true
      by (symmetry; unfold Utf8.is_continuation; lia).
    cbn [negb orb].
    settle_if. f_equal. lia.
Qed.

(** Well-formed UTF-8 decodes to the text it encodes. *)
Lemma decode_replace_encode (cs : str) :
  Forall Utf8.scalar cs -> Utf8.decode_replace (utf8_encode cs) = cs.
Proof.
  intros H. induction H as [|c cs Hc H IH]; [reflexivity|].
  unfold utf8_encode in *. simpl flat_map. rewrite map_app.
  rewrite decode_replace_encode1 by exact Hc. rewrite IH. reflexivity.
Qed.

(** A byte that cannot start a sequence is replaced on its own. *)
Lemma decode_replace_invalid_start (b : byte) (t : bytes) :
  0x80 <= u8 b < 0xC2 \/ 0xF5 <= u8 b ->
  Utf8.decode_replace (b :: t) = Utf8.REPLACEMENT :: Utf8.decode_replace t.
Proof.
  intros H. rewrite decode_replace_cons. cbv zeta.
  repeat split_if; try reflexivity; lia.
Qed.

(** The only way [read_string] fails is a buffer that ends inside the length
    prefix. *)
Lemma read_string_raises (s : BytesIO.t) (e : exn) :
  read_string s = Raise e -> e = StructError /\ (left s < 2)%nat.
Proof.
  rewrite read_string_eq. destruct (2 <=? left s)%nat eqn:E.
  - discriminate.
  - apply Nat.leb_gt in E. intros H. inversion H. auto.
Qed.

(** An exception raised while an element or an entry is read leaves the
    enclosing read as it is. *)
Lemma comprehension_aborts {A} (m : M A) (n : nat) (s : BytesIO.t) (e : exn) :
  (m s = Raise e -> comprehension (S n) m s = Raise e) /\
  (forall x s1, m s = Ok (x, s1) -> comprehension n m s1 = Raise e ->
                comprehension (S n) m s = Raise e).
Proof.
  split.
  - intros H. simpl. apply bind_raise. exact H.
  - intros x s1 H1 H2. simpl.
    rewrite (bind_ok _ _ _ _ _ H1). apply bind_raise. exact H2.
Qed.

Lemma compound_loop_aborts (rt : Z -> M value) (turns : nat) (acc : dict)
      (s s1 s2 : BytesIO.t) (tag_type : Z) (name : str) (e : exn) :
  read_ubyte s = Ok (tag_type, s1) -> tag_type <> TAG_End ->
  read_string s1 = Ok (name, s2) -> rt tag_type s2 = Raise e ->
  compound_loop rt (S turns) acc s = Raise e.
Proof.
  intros E1 Et E2 E3. simpl. rewrite (bind_ok _ _ _ _ _ E1).
  apply Z.eqb_neq in Et. rewrite Et.
  rewrite (bind_ok _ _ _ _ _ E2). apply bind_raise. exact E3.
Qed.

(** *** Which bytes are replaced *)

Lemma byte_of_u8 (b : byte) : byte_of (u8 b) = b.
Proof. destruct b; vm_compute; reflexivity. Qed.

Lemma u8_of_byte_of (x : Z) (b : byte) :
  byte_of x = b -> 0 <= x < 256 -> u8 b = x.
Proof. intros <- H. apply u8_byte_of. exact H. Qed.

(** The UTF-8 form of a scalar value, by its length. *)
Lemma encode1_shape (c : Z) :
  Utf8.scalar c ->
  match Utf8.encode1 c with
  | [x] => x = c /\ 0 <= x < 0x80
  | [x; y] =>
      0xC2 <= x < 0xE0 /\ 0x80 <= y < 0xC0 /\
      c = (x - 0xC0) * 64 + (y - 0x80)
  | [x; y; z] =>
      0xE0 <= x < 0xF0 /\ 0x80 <= y < 0xC0 /\ 0x80 <= z < 0xC0 /\
      (x = 0xE0 -> 0xA0 <= y) /\ (x = 0xED -> y < 0xA0) /\
      c = (x - 0xE0) * 4096 + (y - 0x80) * 64 + (z - 0x80)
  | [x; y; z; w] =>
      0xF0 <= x < 0xF5 /\ 0x80 <= y < 0xC0 /\ 0x80 <= z < 0xC0 /\
      0x80 <= w < 0xC0 /\
      (x = 0xF0 -> 0x90 <= y) /\ (x = 0xF4 -> y < 0x90) /\
      c = (x - 0xF0) * 262144 + (y - 0x80) * 4096 + (z - 0x80) * 64
          + (w - 0x80)
  | _ => False
  end.
Proof.
  unfold Utf8.scalar, Utf8.encode1. intros Hc.
  destruct (c <? 0x80) eqn:E1; [lia|].
  destruct (c <? 0x800) eqn:E2; [lia|].
  destruct (c <? 0x10000) eqn:E3; lia.
Qed.

Lemma encode1_of2 (x y : Z) :
  0xC2 <= x < 0xE0 -> 0x80 <= y < 0xC0 ->
  Utf8.scalar ((x - 0xC0) * 64 + (y - 0x80)) /\
  Utf8.encode1 ((x - 0xC0) * 64 + (y - 0x80)) = [x; y].
Proof.
  intros Hx Hy. split; [unfold Utf8.scalar; lia|].
  unfold Utf8.encode1.
  replace ((x - 0xC0) * 64 + (y - 0x80) <? 0x80) with false
    by (symmetry; lia).
  replace ((x - 0xC0) * 64 + (y - 0x80) <? 0x800) with true
    by (symmetry; lia).
  f_equal; [lia|]. f_equal. lia.
Qed.

Lemma encode1_of3 (x y z : Z) :
  0xE0 <= x < 0xF0 -> 0x80 <= y < 0xC0 -> 0x80 <= z < 0xC0 ->
  (x = 0xE0 -> 0xA0 <= y) -> (x = 0xED -> y < 0xA0) ->
  Utf8.scalar ((x - 0xE0) * 4096 + (y - 0x80) * 64 + (z - 0x80)) /\
  Utf8.encode1 ((x - 0xE0) * 4096 + (y - 0x80) * 64 + (z - 0x80))
  = [x; y; z].
Proof.
  intros Hx Hy Hz H0 HD. split; [unfold Utf8.scalar; lia|].
  unfold Utf8.encode1.
  replace ((x - 0xE0) * 4096 + (y - 0x80) * 64 + (z - 0x80) <? 0x80)
    with false by (symmetry; lia).
  replace ((x - 0xE0) * 4096 + (y - 0x80) * 64 + (z - 0x80) <? 0x800)
    with false by (symmetry; lia).
  replace ((x - 0xE0) * 4096 + (y - 0x80) * 64 + (z - 0x80) <? 0x10000)
    with true by (symmetry; lia).
  f_equal; [lia|]. f_equal; [lia|]. f_equal. lia.
Qed.

Lemma encode1_of4 (x y z w : Z) :
  0xF0 <= x < 0xF5 -> 0x80 <= y < 0xC0 -> 0x80 <= z < 0xC0 ->
  0x80 <= w < 0xC0 ->
  (x = 0xF0 -> 0x90 <= y) -> (x = 0xF4 -> y < 0x90) ->
  Utf8.scalar ((x - 0xF0) * 262144 + (y - 0x80) * 4096 + (z - 0x80) * 64
               + (w - 0x80)) /\
  Utf8.encode1 ((x - 0xF0) * 262144 + (y - 0x80) * 4096 + (z - 0x80) * 64
                + (w - 0x80))
  = [x; y; z; w].
Proof.
  intros Hx Hy Hz Hw H0 H4. split; [unfold Utf8.scalar; lia|].
  unfold Utf8.encode1.
  replace ((x - 0xF0) * 262144 + (y - 0x80) * 4096 + (z - 0x80) * 64
           + (w - 0x80) <? 0x80) with false by (symmetry; lia).
  replace ((x - 0xF0) * 262144 + (y - 0x80) * 4096 + (z - 0x80) * 64
           + (w - 0x80) <? 0x800) with false by (symmetry; lia).
  replace ((x - 0xF0) * 262144 + (y - 0x80) * 4096 + (z - 0x80) * 64
           + (w - 0x80) <? 0x10000) with false by (symmetry; lia).
  f_equal; [lia|]. f_equal; [lia|]. f_equal; [lia|]. f_equal. lia.
Qed.

(** Settling a claim that a well-formed sequence begins the bytes at hand,
    from the ranges the decoder has tested. *)
Ltac bool_cases :=
  repeat match goal with
         | H : context [if ?c then _ else _] |- _ =>
             let E := fresh "E" in destruct c eqn:E
         end.

Ltac refute_encoding Hc Q :=
  let S := fresh "S" in
  pose proof (encode1_shape _ Hc) as S;
  destruct (Utf8.encode1 _) as [|?x [|?y [|?z [|?w [|? ?]]]]];
  try contradiction;
  cbn [map app firstn] in Q; try discriminate Q;
  injection Q; intros; try discriminate;
  repeat match goal with
         | H : byte_of ?x = ?b |- _ => apply u8_of_byte_of in H; [|lia]
         | H : ?b = byte_of ?x |- _ => symmetry in H
         end;
  unfold Utf8.is_continuation in *; bool_cases; lia.

Lemma begins_two_of_three (b0 b1 : byte) :
  0xE0 <= u8 b0 < 0xF0 -> 0x80 <= u8 b1 < 0xC0 ->
  (u8 b0 = 0xE0 -> 0xA0 <= u8 b1) -> (u8 b0 = 0xED -> u8 b1 < 0xA0) ->
  begins_scalar [b0; b1].
Proof.
  intros H0 H1 HE HD.
  destruct (encode1_of3 (u8 b0) (u8 b1) 0x80 H0 H1 ltac:(lia) HE HD)
    as [Hc E].
  eexists _, [byte_of 0x80]. split; [exact Hc|].
  rewrite E. cbn [map app]. rewrite !byte_of_u8. reflexivity.
Qed.

Lemma begins_two_of_four (b0 b1 : byte) :
  0xF0 <= u8 b0 < 0xF5 -> 0x80 <= u8 b1 < 0xC0 ->
  (u8 b0 = 0xF0 -> 0x90 <= u8 b1) -> (u8 b0 = 0xF4 -> u8 b1 < 0x90) ->
  begins_scalar [b0; b1].
Proof.
  intros H0 H1 HE HD.
  destruct (encode1_of4 (u8 b0) (u8 b1) 0x80 0x80 H0 H1
              ltac:(lia) ltac:(lia) HE HD) as [Hc E].
  eexists _, [byte_of 0x80; byte_of 0x80]. split; [exact Hc|].
  rewrite E. cbn [map app]. rewrite !byte_of_u8. reflexivity.
Qed.

Lemma begins_three_of_four (b0 b1 b2 : byte) :
  0xF0 <= u8 b0 < 0xF5 -> 0x80 <= u8 b1 < 0xC0 -> 0x80 <= u8 b2 < 0xC0 ->
  (u8 b0 = 0xF0 -> 0x90 <= u8 b1) -> (u8 b0 = 0xF4 -> u8 b1 < 0x90) ->
  begins_scalar [b0; b1; b2].
Proof.
  intros H0 H1 H2 HE HD.
  destruct (encode1_of4 (u8 b0) (u8 b1) (u8 b2) 0x80 H0 H1 H2
              ltac:(lia) HE HD) as [Hc E].
  eexists _, [byte_of 0x80]. split; [exact Hc|].
  rewrite E. cbn [map app]. rewrite !byte_of_u8. reflexivity.
Qed.

(** The bytes [bs] are replaced up to [m]: they begin no well-formed
    sequence, the decoder gives one U+FFFD for the first [m] of them and
    goes on behind these, and the [m] bytes are the longest start of [bs]
    that begins a well-formed sequence (one byte when there is none). *)
Ltac replaced m :=
  right; exists m;
  split; [cbn [length]; lia|];
  split; [reflexivity|];
  split; [let c := fresh "c" in let rest := fresh "rest" in
          let Hc := fresh "Hc" in let Q := fresh "Q" in
          intros c rest Hc Q; refute_encoding Hc Q|];
  split; [let L := fresh "L" in intros L; try lia
         |let L := fresh "L" in let c := fresh "c" in
          let tail := fresh "tail" in
          let Hc := fresh "Hc" in let Q := fresh "Q" in
          intros L [c [tail [Hc Q]]];
          first [ cbn [length] in L; lia | refute_encoding Hc Q ]].

Lemma decode_replace_step (bs : bytes) :
  bs <> [] ->
  (exists c rest,
     Utf8.scalar c /\ bs = map byte_of (Utf8.encode1 c) ++ rest /\
     Utf8.decode_replace bs = c :: Utf8.decode_replace rest) \/
  (exists m,
     (1 <= m <= length bs)%nat /\
     Utf8.decode_replace bs
     = Utf8.REPLACEMENT :: Utf8.decode_replace (skipn m bs) /\
     (forall c rest, Utf8.scalar c ->
                     bs <> map byte_of (Utf8.encode1 c) ++ rest) /\
     ((1 < m)%nat -> begins_scalar (firstn m bs)) /\
     ((m < length bs)%nat -> ~ begins_scalar (firstn (S m) bs))).
Proof.
  destruct bs as [|b0 t1]; [congruence|]. intros _.
  pose proof (u8_range b0) as R0.
  rewrite decode_replace_cons. cbv zeta.
  destruct (u8 b0 <? 0x80) eqn:E1.
  { left. exists (u8 b0), t1. split; [unfold Utf8.scalar; lia|].
    split; [|reflexivity].
    unfold Utf8.encode1. rewrite E1. cbn [map app].
    rewrite byte_of_u8. reflexivity. }
  destruct (u8 b0 <? 0xC2) eqn:E2.
  { destruct t1 as [|b1 t2]; replaced 1%nat. }
  destruct (u8 b0 <? 0xE0) eqn:E3.
  { destruct t1 as [|b1 t2]; [replaced 1%nat|].
    pose proof (u8_range b1) as R1.
    destruct (Utf8.is_continuation (u8 b1)) eqn:C1; [|replaced 1%nat].
    left. unfold Utf8.is_continuation in C1.
    destruct (encode1_of2 (u8 b0) (u8 b1) ltac:(lia) ltac:(lia)) as [Hc E].
    eexists _, t2. split; [exact Hc|]. split; [|reflexivity].
    rewrite E. cbn [map app]. rewrite !byte_of_u8. reflexivity. }
  destruct (u8 b0 <? 0xF0) eqn:E4.
  { destruct t1 as [|b1 t2]; [replaced 1%nat|].
    pose proof (u8_range b1) as R1.
    destruct (negb (Utf8.is_continuation (u8 b1))
              || (if u8 b1 <? 0xA0 then u8 b0 =? 0xE0 else u8 b0 =? 0xED))
      eqn:C1; [replaced 1%nat|].
    assert (K1 : 0x80 <= u8 b1 < 0xC0 /\
                 (u8 b0 = 0xE0 -> 0xA0 <= u8 b1) /\
                 (u8 b0 = 0xED -> u8 b1 < 0xA0))
      by (unfold Utf8.is_continuation in C1; bool_cases; lia).
    destruct K1 as [K1 [KE KD]].
    destruct t2 as [|b2 t3].
    { replaced 2%nat. apply begins_two_of_three; lia. }
    pose proof (u8_range b2) as R2.
    destruct (Utf8.is_continuation (u8 b2)) eqn:C2.
    - left. unfold Utf8.is_continuation in C2.
      destruct (encode1_of3 (u8 b0) (u8 b1) (u8 b2)
                  ltac:(lia) K1 ltac:(lia) KE KD) as [Hc E].
      eexists _, t3. split; [exact Hc|]. split; [|reflexivity].
      rewrite E. cbn [map app]. rewrite !byte_of_u8. reflexivity.
    - replaced 2%nat. apply begins_two_of_three; lia. }
  destruct (u8 b0 <? 0xF5) eqn:E5.
  { destruct t1 as [|b1 t2]; [replaced 1%nat|].
    pose proof (u8_range b1) as R1.
    destruct (negb (Utf8.is_continuation (u8 b1))
              || (if u8 b1 <? 0x90 then u8 b0 =? 0xF0 else u8 b0 =? 0xF4))
      eqn:C1; [replaced 1%nat|].
    assert (K1 : 0x80 <= u8 b1 < 0xC0 /\
                 (u8 b0 = 0xF0 -> 0x90 <= u8 b1) /\
                 (u8 b0 = 0xF4 -> u8 b1 < 0x90))
      by (unfold Utf8.is_continuation in C1; bool_cases; lia).
    destruct K1 as [K1 [KE KD]].
    destruct t2 as [|b2 t3].
    { replaced 2%nat. apply begins_two_of_four; lia. }
    pose proof (u8_range b2) as R2.
    destruct (negb (Utf8.is_continuation (u8 b2))) eqn:C2.
    { replaced 2%nat. apply begins_two_of_four; lia. }
    assert (K2 : 0x80 <= u8 b2 < 0xC0)
      by (unfold Utf8.is_continuation in C2; lia).
    destruct t3 as [|b3 t4].
    { replaced 3%nat. apply begins_three_of_four; lia. }
    pose proof (u8_range b3) as R3.
    destruct (Utf8.is_continuation (u8 b3)) eqn:C3.
    - left. unfold Utf8.is_continuation in C3.
      destruct (encode1_of4 (u8 b0) (u8 b1) (u8 b2) (u8 b3)
                  ltac:(lia) K1 K2 ltac:(lia) KE KD) as [Hc E].
      eexists _, t4. split; [exact Hc|]. split; [|reflexivity].
      rewrite E. cbn [map app]. rewrite !byte_of_u8. reflexivity.
    - replaced 3%nat. apply begins_three_of_four; lia. }
  destruct t1 as [|b1 t2]; replaced 1%nat.
Qed.

(** [find_owner.skip_tag] has no branch for a type code outside 0..12: it
    falls off the [if] chain and returns. *)
Lemma skip_tag_unknown (depth : nat) (tag_type : Z) (s : BytesIO.t) :
  tag_type < 0 \/ 12 < tag_type ->
  FindOwner.skip_tag (S depth) tag_type s = Ok (tt, s).
Proof.
  intros H. cbn [FindOwner.skip_tag]. unfold FindOwner.skip_tag_with.
  repeat match goal with
         | |- context [tag_type =? ?k] =>
             replace (tag_type =? k) with false by (symmetry; lia)
         end.
  reflexivity.
Qed.

(** C7, as stated, fails in its last clause: text that is not UTF-8 is not
    the only fault a decode gets over.  A String that declares nine bytes
    where one is left, and an IntArray with count -2, decode without an
    exception, and [skip_tag] passes over a tag of the unknown type 99. *)
Lemma only_recovery_counterexample :
  CompleteMccReader.decode 3 [x08; x00; x00; x00; x09; x61]
  = Ok (VDict [([], VStr [97])]) /\
  CompleteMccReader.decode 3 [x0b; x00; x00; xff; xff; xff; xfe]
  = Ok (VDict [([], VList [])]) /\
  FindOwner.skip_tag 1 99 (BytesIO.open [x2a])
  = Ok (tt, BytesIO.open [x2a]).
Proof. repeat split. Qed.

(** C7, amended.  On a String payload (a two-byte length and that many
    bytes of text) [read_string] takes the length as an unsigned big-endian
    number, reads exactly that many bytes, leaving the stream right behind
    them, and returns their UTF-8 decoding with replacement.  That decoding
    never fails and its result consists of scalar values only.  It goes
    through the bytes in steps: where a well-formed sequence begins the
    bytes, it gives the scalar value encoded and goes on behind the
    sequence; where none does, it gives one U+FFFD for the longest start of
    the bytes that begins a well-formed sequence, or for one byte when there
    is no such start, and goes on behind that.  So well-formed text decodes
    to itself and a byte that cannot start a sequence is replaced on its
    own.  [read_string] has no exception for bad text: it raises only when
    the buffer ends inside the length prefix.  Bad text is not the only
    fault passed over: a text cut short by the end of the buffer is decoded
    as far as it goes, [skip_tag] returns at once on an unknown tag type,
    and an array or a List whose count has its sign bit set is read as
    empty. *)
Theorem read_string_utf8 (s : BytesIO.t) (h1 h2 : byte) (payload rest : bytes)
  (H : BytesIO.remaining s = h1 :: h2 :: payload ++ rest)
  (L : Z.of_nat (length payload) = u8 h1 * 256 + u8 h2) :
  Struct.unsigned [h1; h2] = u8 h1 * 256 + u8 h2 /\
  read_string s
    = Ok (Utf8.decode_replace payload, advance (2 + length payload) s) /\
  BytesIO.remaining (advance (2 + length payload) s) = rest /\
  Forall Utf8.scalar (Utf8.decode_replace payload) /\
  (forall cs, Forall Utf8.scalar cs -> payload = utf8_encode cs ->
              Utf8.decode_replace payload = cs) /\
  (forall b t, 0x80 <= u8 b < 0xC2 \/ 0xF5 <= u8 b ->
               Utf8.decode_replace (b :: t)
               = Utf8.REPLACEMENT :: Utf8.decode_replace t) /\
  (forall s0 e, read_string s0 = Raise e ->
                e = StructError /\ (left s0 < 2)%nat) /\
  (forall bs : bytes, bs <> [] ->
     (exists c tail,
        Utf8.scalar c /\ bs = map byte_of (Utf8.encode1 c) ++ tail /\
        Utf8.decode_replace bs = c :: Utf8.decode_replace tail) \/
     (exists m,
        (1 <= m <= length bs)%nat /\
        Utf8.decode_replace bs
        = Utf8.REPLACEMENT :: Utf8.decode_replace (skipn m bs) /\
        (forall c tail, Utf8.scalar c ->
                        bs <> map byte_of (Utf8.encode1 c) ++ tail) /\
        ((1 < m)%nat -> begins_scalar (firstn m bs)) /\
        ((m < length bs)%nat -> ~ begins_scalar (firstn (S m) bs)))) /\
  (forall (s0 : BytesIO.t) (g1 g2 : byte) (cut : bytes),
     BytesIO.remaining s0 = g1 :: g2 :: cut ->
     Z.of_nat (length cut) < u8 g1 * 256 + u8 g2 ->
     read_string s0
     = Ok (Utf8.decode_replace cut, advance (2 + length cut) s0)) /\
  (forall (depth : nat) (tag_type : Z) (s0 : BytesIO.t),
     tag_type < 0 \/ 12 < tag_type ->
     FindOwner.skip_tag (S depth) tag_type s0 = Ok (tt, s0)) /\
  (forall (depth : nat) (s0 : BytesIO.t) (b0 b1 b2 b3 : byte)
          (tail : bytes),
     BytesIO.remaining s0 = b0 :: b1 :: b2 :: b3 :: tail -> 128 <= u8 b0 ->
     CompleteMccReader.read_tag (S depth) TAG_Byte_Array s0
     = Ok (VList [], advance 4 s0) /\
     CompleteMccReader.read_tag (S depth) TAG_Int_Array s0
     = Ok (VList [], advance 4 s0) /\
     CompleteMccReader.read_tag (S depth) TAG_Long_Array s0
     = Ok (VList [], advance 4 s0)) /\
  (forall (depth : nat) (s0 : BytesIO.t) (t b0 b1 b2 b3 : byte)
          (tail : bytes),
     BytesIO.remaining s0 = t :: b0 :: b1 :: b2 :: b3 :: tail ->
     128 <= u8 b0 ->
     CompleteMccReader.read_tag (S depth) TAG_List s0
     = Ok (VList [], advance 5 s0)).
Proof.
  split; [reflexivity|].
  split; [apply (read_string_app s h1 h2 payload rest H L)|].
  split.
  { change (h1 :: h2 :: payload ++ rest)
      with ((h1 :: h2 :: payload) ++ rest) in H.
    exact (remaining_advance_app s (h1 :: h2 :: payload) rest H). }
  split; [apply decode_replace_scalar|].
  split; [intros cs Hcs ->; apply decode_replace_encode; exact Hcs|].
  split; [apply decode_replace_invalid_start|].
  split; [apply read_string_raises|].
  split; [apply decode_replace_step|].
  split.
  { intros s0 g1 g2 cut H0 L0. apply (read_string_cut s0 g1 g2 cut H0).
    lia. }
  split; [apply skip_tag_unknown|].
  split.
  - intros depth s0 b0 b1 b2 b3 tail H0 Hneg.
    exact (array_negative_count CompleteMccReader.otherwise depth s0
             b0 b1 b2 b3 tail H0 Hneg).
  - intros depth s0 t b0 b1 b2 b3 tail H0 Hneg.
    exact (proj2 (list_negative_count CompleteMccReader.otherwise depth s0
                    t b0 b1 b2 b3 tail H0 Hneg)).
Qed.

(** The four bytes [e2 82 ac ff]: the euro sign, then a byte that is not
    UTF-8. *)
Lemma read_string_utf8_witness :
  read_string (BytesIO.open [x00; x04; xe2; x82; xac; xff; x2a])
  = Ok ([0x20AC; 0xFFFD],
        advance 6 (BytesIO.open [x00; x04; xe2; x82; xac; xff; x2a])) /\
  BytesIO.remaining
    (advance 6 (BytesIO.open [x00; x04; xe2; x82; xac; xff; x2a])) = [x2a].
Proof.
  destruct (read_string_utf8
              (BytesIO.open [x00; x04; xe2; x82; xac; xff; x2a])
              x00 x04 [xe2; x82; xac; xff] [x2a] eq_refl eq_refl)
    as [_ [A [B _]]].
  split; [exact A | exact B].
Defined.

(** ** Skipping and reading *)

Lemma skip_fixed (size : nat) (s : BytesIO.t) :
  (size <= left s)%nat ->
  (stream_read (Z.of_nat size) ;;; ret tt) s = Ok (tt, advance size s).
Proof.
  intros L. unfold bind, stream_read. rewrite read_nonneg.
  rewrite Nat.min_l by exact L. reflexivity.
Qed.

Lemma read_fixed_ok {A} (size : nat) (f : bytes -> A) (s s' : BytesIO.t)
      (a : A) :
  (bs <- stream_read (Z.of_nat size) ;; Struct.unpack size f bs) s
  = Ok (a, s') ->
  (size <= left s)%nat /\ s' = advance size s.
Proof.
  rewrite read_fixed. destruct (size <=? left s)%nat eqn:E; [|discriminate].
  apply Nat.leb_le in E. intros H. inversion H. auto.
Qed.

(** [n] fixed-width elements take [n * size] bytes. *)
Lemma comprehension_fixed {A} (size : nat) (f : bytes -> A) (n : nat) :
  forall (s s' : BytesIO.t) (l : list value) (g : A -> value),
  comprehension n
    (z <- (bs <- stream_read (Z.of_nat size) ;; Struct.unpack size f bs) ;;
     ret (g z)) s = Ok (l, s') ->
  (n * size <= left s)%nat /\ s' = advance (n * size) s.
Proof.
  induction n as [|n IH]; intros s s' l g H; simpl in H.
  - inversion H; subst. simpl. split; [lia | symmetry; apply advance_0].
  - unfold bind at 1 2 in H.
    destruct ((bs <- stream_read (Z.of_nat size) ;; Struct.unpack size f bs) s)
      as [[z s1]|e] eqn:E; [|discriminate H].
    destruct (read_fixed_ok _ _ _ _ _ E) as [L1 ->].
    unfold ret at 1 in H. unfold bind at 1 in H.
    destruct (comprehension n _ (advance size s)) as [[xs s2]|e] eqn:E2;
      [|discriminate H].
    destruct (IH _ _ _ _ E2) as [L2 ->].
    inversion H; subst. rewrite left_advance in L2.
    rewrite advance_advance. simpl. split; [lia | reflexivity].
Qed.

Section SkipVersusRead.

Variable otherwise : Z -> M value.

(** The last branch of [read_tag], when it returns at all, reads nothing
    (true of both classes). *)
Hypothesis otherwise_stays :
  forall t s v s', otherwise t s = Ok (v, s') -> s' = s.

Lemma skip_array (depth : nat) (tag_type : Z) (width : nat) {A}
      (f : bytes -> A) (g : A -> value) (s s' : BytesIO.t) (l : list value) :
  tag_type = TAG_Byte_Array \/ tag_type = TAG_Int_Array
  \/ tag_type = TAG_Long_Array ->
  (length <- read_int ;;
   l <- comprehension (range length)
          (z <- (bs <- stream_read (Z.of_nat width) ;;
                 Struct.unpack width f bs) ;; ret (g z)) ;;
   ret (VList l)) s = Ok (VList l, s') ->
  (length <- read_int ;;
   stream_read (length * Z.of_nat width) ;;; ret tt) s = Ok (tt, s')
  \/ negative_count otherwise (S depth) tag_type s.
Proof.
  intros Ht H. unfold bind at 1 in H.
  destruct (read_int s) as [[n s1]|e] eqn:E1; [|discriminate H].
  destruct (Z.ltb_spec n 0) as [Hn|Hn].
  - right. eapply negative_array; eassumption.
  - left. unfold bind at 1 in H.
    destruct (comprehension (range n) _ s1) as [[xs s2]|e] eqn:E2;
      [|discriminate H].
    destruct (comprehension_fixed _ _ _ _ _ _ _ E2) as [L ->].
    inversion H; subst.
    rewrite (bind_ok _ _ _ _ _ E1).
    replace (n * Z.of_nat width) with (Z.of_nat (range n * width))
      by (unfold range; lia).
    apply skip_fixed. exact L.
Qed.

Lemma skip_elements (depth : nat) (list_type : Z) :
  (forall s s' v, read_tag otherwise depth list_type s = Ok (v, s') ->
     FindOwner.skip_tag depth list_type s = Ok (tt, s')
     \/ negative_count otherwise depth list_type s) ->
  forall (n : nat) (s s' : BytesIO.t) (vs : list value),
  comprehension n (read_tag otherwise depth list_type) s = Ok (vs, s') ->
  for_range n (FindOwner.skip_tag depth list_type) s = Ok (tt, s')
  \/ negative_element otherwise depth list_type n s.
Proof.
  intros IH. induction n as [|n IHn]; intros s s' vs H; simpl in H.
  - inversion H; subst. left. reflexivity.
  - unfold bind at 1 in H.
    destruct (read_tag otherwise depth list_type s) as [[x s1]|e] eqn:E1;
      [|discriminate H].
    unfold bind at 1 in H.
    destruct (comprehension n _ s1) as [[xs s2]|e] eqn:E2; [|discriminate H].
    inversion H; subst.
    destruct (IH _ _ _ E1) as [K1|K1];
      [|right; apply negative_element_here; exact K1].
    destruct (IHn _ _ _ E2) as [K2|K2];
      [|right; eapply negative_element_later; eassumption].
    left. simpl. rewrite (bind_ok _ _ _ _ _ K1). exact K2.
Qed.

Lemma skip_entries (depth : nat) :
  (forall t s s' v, read_tag otherwise depth t s = Ok (v, s') ->
     FindOwner.skip_tag depth t s = Ok (tt, s')
     \/ negative_count otherwise depth t s) ->
  forall (turns : nat) (acc : dict) (s s' : BytesIO.t) (v : value),
  compound_loop (read_tag otherwise depth) turns acc s = Ok (v, s') ->
  FindOwner.skip_compound_loop (FindOwner.skip_tag depth) turns s
    = Ok (tt, s')
  \/ negative_entry otherwise depth s.
Proof.
  intros IH. induction turns as [|turns IHt]; intros acc s s' v H;
    simpl in H.
  - discriminate H.
  - unfold bind at 1 in H.
    destruct (read_ubyte s) as [[t s1]|e] eqn:E1; [|discriminate H].
    simpl. rewrite (bind_ok _ _ _ _ _ E1).
    change TAG_End with 0 in *.
    destruct (t =? 0) eqn:Et.
    + inversion H; subst. left. reflexivity.
    + apply Z.eqb_neq in Et. unfold bind at 1 in H.
      destruct (read_string s1) as [[name s2]|e] eqn:E2; [|discriminate H].
      unfold bind at 1 in H.
      destruct (read_tag otherwise depth t s2) as [[x s3]|e] eqn:E3;
        [|discriminate H].
      destruct (IH _ _ _ _ E3) as [K1|K1];
        [|right; eapply negative_entry_here; eassumption].
      destruct (IHt _ _ _ _ H) as [K2|K2];
        [|right; eapply negative_entry_later; eassumption].
      left. rewrite (bind_ok _ _ _ _ _ E2), (bind_ok _ _ _ _ _ K1).
      exact K2.
Qed.

(** Wherever [read_tag] succeeds, [skip_tag] ends at the same position,
    unless a negative array count was read on the way. *)
Lemma skip_tag_follows_read_tag (depth : nat) :
  forall (tag_type : Z) (s s' : BytesIO.t) (v : value),
  read_tag otherwise depth tag_type s = Ok (v, s') ->
  FindOwner.skip_tag depth tag_type s = Ok (tt, s')
  \/ negative_count otherwise depth tag_type s.
Proof.
  induction depth as [|depth IH]; intros t s s' v H.
  - discriminate H.
  - simpl in H. simpl FindOwner.skip_tag.
    unfold read_tag_with in H. unfold FindOwner.skip_tag_with.
    unfold TAG_End, TAG_Byte, TAG_Short, TAG_Int, TAG_Long, TAG_Float,
      TAG_Double, TAG_Byte_Array, TAG_String, TAG_List, TAG_Compound,
      TAG_Int_Array, TAG_Long_Array in H.
    destruct (t =? 0) eqn:T0.
    { inversion H; subst. left. reflexivity. }
    destruct (t =? 1) eqn:T1.
    { left. unfold bind at 1 in H.
      destruct (read_byte s) as [[z s1]|e] eqn:E; [|discriminate H].
      inversion H; subst.
      destruct (read_fixed_ok 1 _ _ _ _ E) as [L ->].
      apply (skip_fixed 1). exact L. }
    destruct (t =? 2) eqn:T2.
    { left. unfold bind at 1 in H.
      destruct (read_short s) as [[z s1]|e] eqn:E; [|discriminate H].
      inversion H; subst.
      destruct (read_fixed_ok 2 _ _ _ _ E) as [L ->].
      apply (skip_fixed 2). exact L. }
    destruct (t =? 3) eqn:T3.
    { left. unfold bind at 1 in H.
      destruct (read_int s) as [[z s1]|e] eqn:E; [|discriminate H].
      inversion H; subst.
      destruct (read_fixed_ok 4 _ _ _ _ E) as [L ->].
      apply (skip_fixed 4). exact L. }
    destruct (t =? 4) eqn:T4.
    { left. unfold bind at 1 in H.
      destruct (read_long s) as [[z s1]|e] eqn:E; [|discriminate H].
      inversion H; subst.
      destruct (read_fixed_ok 8 _ _ _ _ E) as [L ->].
      apply (skip_fixed 8). exact L. }
    destruct (t =? 5) eqn:T5.
    { left. unfold bind at 1 in H.
      destruct (read_float s) as [[z s1]|e] eqn:E; [|discriminate H].
      inversion H; subst.
      destruct (read_fixed_ok 4 _ _ _ _ E) as [L ->].
      apply (skip_fixed 4). exact L. }
    destruct (t =? 6) eqn:T6.
    { left. unfold bind at 1 in H.
      destruct (read_double s) as [[z s1]|e] eqn:E; [|discriminate H].
      inversion H; subst.
      destruct (read_fixed_ok 8 _ _ _ _ E) as [L ->].
      apply (skip_fixed 8). exact L. }
    destruct (t =? 7) eqn:T7.
    { apply Z.eqb_eq in T7. subst t.
      assert (exists l, v = VList l) as [l ->].
      { unfold bind in H. destruct (read_int s) as [[n s1]|e];
          [|discriminate H].
        destruct (comprehension _ _ s1) as [[xs s2]|e]; [|discriminate H].
        inversion H. eexists. reflexivity. }
      destruct (skip_array depth 7 1 (Struct.signed 1) VInt s s' l
                  (or_introl eq_refl) H) as [K|K]; [left|right; exact K].
      rewrite <- K. unfold bind.
      destruct (read_int s) as [[n s1]|e]; [|reflexivity].
      rewrite Z.mul_1_r. reflexivity. }
    destruct (t =? 8) eqn:T8.
    { left. unfold bind at 1 in H.
      destruct (read_string s) as [[z s1]|e] eqn:E; [|discriminate H].
      inversion H; subst. rewrite (bind_ok _ _ _ _ _ E). reflexivity. }
    destruct (t =? 9) eqn:T9.
    { apply Z.eqb_eq in T9. subst t.
      unfold read_list_with in H. unfold bind at 1 in H.
      destruct (read_ubyte s) as [[lt s1]|e] eqn:E1; [|discriminate H].
      unfold bind at 1 in H.
      destruct (read_int s1) as [[n s2]|e] eqn:E2; [|discriminate H].
      unfold bind at 1 in H.
      destruct (comprehension (range n) _ s2) as [[vs s3]|e] eqn:E3;
        [|discriminate H].
      inversion H; subst.
      destruct (skip_elements depth lt (IH lt) _ _ _ _ E3) as [K|K].
      - left. rewrite (bind_ok _ _ _ _ _ E1), (bind_ok _ _ _ _ _ E2).
        exact K.
      - right. eapply negative_in_list; eassumption. }
    destruct (t =? 10) eqn:T10.
    { apply Z.eqb_eq in T10. subst t.
      unfold read_compound_with in H. unfold FindOwner.skip_compound_with.
      destruct (skip_entries depth IH _ _ _ _ _ H) as [K|K].
      - left. exact K.
      - right. apply negative_in_compound. exact K. }
    destruct (t =? 11) eqn:T11.
    { apply Z.eqb_eq in T11. subst t.
      assert (exists l, v = VList l) as [l ->].
      { unfold bind in H. destruct (read_int s) as [[n s1]|e];
          [|discriminate H].
        destruct (comprehension _ _ s1) as [[xs s2]|e]; [|discriminate H].
        inversion H. eexists. reflexivity. }
      destruct (skip_array depth 11 4 (Struct.signed 4) VInt s s' l
                  (or_intror (or_introl eq_refl)) H) as [K|K];
        [left; exact K | right; exact K]. }
    destruct (t =? 12) eqn:T12.
    { apply Z.eqb_eq in T12. subst t.
      assert (exists l, v = VList l) as [l ->].
      { unfold bind in H. destruct (read_int s) as [[n s1]|e];
          [|discriminate H].
        destruct (comprehension _ _ s1) as [[xs s2]|e]; [|discriminate H].
        inversion H. eexists. reflexivity. }
      destruct (skip_array depth 12 8 (Struct.signed 8) VInt s s' l
                  (or_intror (or_intror eq_refl)) H) as [K|K];
        [left; exact K | right; exact K]. }
    left. rewrite (otherwise_stays _ _ _ _ H). reflexivity.
Qed.

End SkipVersusRead.

Lemma complete_otherwise_stays (t : Z) (s : BytesIO.t) (v : value)
      (s' : BytesIO.t) :
  CompleteMccReader.otherwise t s = Ok (v, s') -> s' = s.
Proof. discriminate. Qed.

Lemma snowball_otherwise_stays (t : Z) (s : BytesIO.t) (v : value)
      (s' : BytesIO.t) :
  SnowballTimeline.otherwise t s = Ok (v, s') -> s' = s.
Proof. intros H. inversion H. reflexivity. Qed.

(** Skipping agrees with reading, for both classes and every tag type, on
    every buffer where [read_tag] succeeds without meeting a negative array
    count. *)
Lemma skip_tag_same_position (depth : nat) (tag_type : Z) (s s' : BytesIO.t)
      (v : value) :
  (CompleteMccReader.read_tag depth tag_type s = Ok (v, s') ->
   ~ negative_count CompleteMccReader.otherwise depth tag_type s ->
   FindOwner.skip_tag depth tag_type s = Ok (tt, s')) /\
  (SnowballTimeline.read_tag depth tag_type s = Ok (v, s') ->
   ~ negative_count SnowballTimeline.otherwise depth tag_type s ->
   FindOwner.skip_tag depth tag_type s = Ok (tt, s')).
Proof.
  split; intros H N.
  - destruct (skip_tag_follows_read_tag _ complete_otherwise_stays
                depth tag_type s s' v H) as [K|K]; [exact K | contradiction].
  - destruct (skip_tag_follows_read_tag _ snowball_otherwise_stays
                depth tag_type s s' v H) as [K|K]; [exact K | contradiction].
Qed.

(** C10 fails on a negative array count.  On the bytes [ff ff ff ff 2a],
    read as a ByteArray, [read_tag] takes the count -1 for an empty array and
    stops after the four count bytes, while [skip_tag] hands -1 to
    [stream.read], which then reads to the end of the buffer: the cursors
    end at 4 and at 5.  The same happens for an IntArray, and for a
    ByteArray inside a List. *)
Theorem skip_tag_overruns_negative_count :
  SnowballTimeline.read_tag 1 TAG_Byte_Array
    (BytesIO.open [xff; xff; xff; xff; x2a])
  = Ok (VList [], BytesIO.mk [xff; xff; xff; xff; x2a] 4) /\
  FindOwner.skip_tag 1 TAG_Byte_Array
    (BytesIO.open [xff; xff; xff; xff; x2a])
  = Ok (tt, BytesIO.mk [xff; xff; xff; xff; x2a] 5) /\
  SnowballTimeline.read_tag 1 TAG_Int_Array
    (BytesIO.open [xff; xff; xff; xff; x2a])
  = Ok (VList [], BytesIO.mk [xff; xff; xff; xff; x2a] 4) /\
  FindOwner.skip_tag 1 TAG_Int_Array
    (BytesIO.open [xff; xff; xff; xff; x2a])
  = Ok (tt, BytesIO.mk [xff; xff; xff; xff; x2a] 5) /\
  SnowballTimeline.read_tag 2 TAG_List
    (BytesIO.open [x07; x00; x00; x00; x01; xff; xff; xff; xff; x2a])
  = Ok (VList [VList []],
        BytesIO.mk [x07; x00; x00; x00; x01; xff; xff; xff; xff; x2a] 9) /\
  FindOwner.skip_tag 2 TAG_List
    (BytesIO.open [x07; x00; x00; x00; x01; xff; xff; xff; xff; x2a])
  = Ok (tt,
        BytesIO.mk [x07; x00; x00; x00; x01; xff; xff; xff; xff; x2a] 10).
Proof. repeat split. Qed.

(** With counts that are not negative the two agree, e.g. on a list of two
    shorts. *)
Example skip_tag_list_of_shorts :
  SnowballTimeline.read_tag 2 TAG_List
    (BytesIO.open [x02; x00; x00; x00; x02; x00; x01; x00; x02; x2a])
  = Ok (VList [VInt 1; VInt 2],
        BytesIO.mk [x02; x00; x00; x00; x02; x00; x01; x00; x02; x2a] 9) /\
  FindOwner.skip_tag 2 TAG_List
    (BytesIO.open [x02; x00; x00; x00; x02; x00; x01; x00; x02; x2a])
  = Ok (tt,
        BytesIO.mk [x02; x00; x00; x00; x02; x00; x01; x00; x02; x2a] 9).
Proof. split; reflexivity. Qed.

(** The agreement lemma at work on a list of two shorts. *)
Lemma skip_tag_same_position_example :
  FindOwner.skip_tag 2 TAG_List
    (BytesIO.open [x02; x00; x00; x00; x02; x00; x01; x00; x02; x2a])
  = Ok (tt,
        BytesIO.mk [x02; x00; x00; x00; x02; x00; x01; x00; x02; x2a] 9).
Proof.
  apply (proj2 (skip_tag_same_position 2 TAG_List
                  (BytesIO.open
                     [x02; x00; x00; x00; x02; x00; x01; x00; x02; x2a])
                  (BytesIO.mk
                     [x02; x00; x00; x00; x02; x00; x01; x00; x02; x2a] 9)
                  (VList [VInt 1; VInt 2]))).
  - reflexivity.
  - intros N. inversion N as [d t s n s1 Ht | d s lt s1 n s2 E1 E2 Ne | ];
      subst.
    + destruct Ht as [Ht | [Ht | Ht]]; discriminate Ht.
    + vm_compute in E1. inversion E1; subst.
      vm_compute in E2. inversion E2; subst.
      vm_compute in Ne.
      inversion Ne as [d' lt' n' s' Nc | d' lt' n' s' v' s1' R Ne']; subst.
      * inversion Nc as [d2 t2 s2' n2 s12 Ht2 | | ]; subst.
        destruct Ht2 as [Ht2 | [Ht2 | Ht2]]; discriminate Ht2.
      * vm_compute in R. inversion R; subst.
        inversion Ne' as [d3 lt3 n3 s3 Nc3 | d3 lt3 n3 s3 v3 s13 R3 Ne3];
          subst.
        -- inversion Nc3 as [d4 t4 s4 n4 s14 Ht4 | | ]; subst.
           destruct Ht4 as [Ht4 | [Ht4 | Ht4]]; discriminate Ht4.
        -- inversion Ne3.
Defined.

(** ** The loop counters are not observable *)

Lemma read_compound_turns (otherwise : Z -> M value) (depth turns : nat)
      (s : BytesIO.t) :
  (forall t, forward (otherwise t)) -> (left s < turns)%nat ->
  compound_loop (read_tag otherwise depth) turns [] s
  = read_compound otherwise depth s.
Proof.
  intros Ho L. unfold read_compound, read_compound_with.
  apply compound_loop_turns; [|exact L | fold (left s); lia].
  intros t. apply forward_read_tag. exact Ho.
Qed.

Lemma forward_skip_compound_loop (st : Z -> M unit) (turns : nat) :
  (forall t, forward (st t)) ->
  forward (FindOwner.skip_compound_loop st turns).
Proof.
  intros Hst. induction turns as [|turns IH]; simpl.
  - apply forward_raise.
  - apply forward_bind; [apply forward_read_ubyte|]. intros t.
    destruct (t =? 0); [apply forward_ret|].
    apply forward_bind; [apply forward_read_string|]. intros _.
    apply forward_bind; [apply Hst|]. intros _. exact IH.
Qed.

Lemma forward_skip_tag (depth : nat) (t : Z) :
  forward (FindOwner.skip_tag depth t).
Proof.
  revert t. induction depth as [|depth IH]; intros t; simpl.
  - apply forward_raise.
  - unfold FindOwner.skip_tag_with.
    repeat match goal with
           | |- forward (if ?c then _ else _) => destruct c
           end;
      try (apply forward_ret);
      try (apply forward_bind;
           [first [apply forward_stream_read | apply forward_read_string]
           |intros; apply forward_ret]);
      try (apply forward_bind; [apply forward_read_int|]; intros;
           apply forward_bind; [apply forward_stream_read|]; intros;
           apply forward_ret).
    + apply forward_bind; [apply forward_read_ubyte|]. intros lt.
      apply forward_bind; [apply forward_read_int|]. intros n.
      apply forward_for_range. apply IH.
    + intros s a s' H. unfold FindOwner.skip_compound_with in H.
      exact (forward_skip_compound_loop _ _ IH _ _ _ H).
Qed.

Lemma skip_compound_loop_turns (depth : nat) :
  forall (turns1 turns2 : nat) (s : BytesIO.t),
  (left s < turns1)%nat -> (left s < turns2)%nat ->
  FindOwner.skip_compound_loop (FindOwner.skip_tag depth) turns1 s
  = FindOwner.skip_compound_loop (FindOwner.skip_tag depth) turns2 s.
Proof.
  induction turns1 as [|turns1 IH]; intros turns2 s H1 H2.
  - lia.
  - destruct turns2 as [|turns2]; [lia|]. simpl. unfold bind.
    destruct (read_ubyte s) as [[t s1]|e] eqn:E; [|reflexivity].
    destruct (read_ubyte_ok _ _ _ E) as [L ->].
    destruct (t =? 0); [reflexivity|].
    destruct (read_string (advance 1 s)) as [[name s2]|e] eqn:E2;
      [|reflexivity].
    destruct (forward_read_string _ _ _ E2) as [k2 [L2 ->]].
    destruct (FindOwner.skip_tag depth t (advance k2 (advance 1 s)))
      as [[u s3]|e] eqn:E3; [|reflexivity].
    destruct (forward_skip_tag _ _ _ _ _ E3) as [k3 [L3 ->]].
    apply IH; repeat rewrite left_advance; lia.
Qed.

(** ** The format's examples *)

Example decode_empty_root :
  CompleteMccReader.decode 1 [x00] = Ok VNone /\
  SnowballTimeline.decode 1 [x00] = Ok VNone.
Proof. split; reflexivity. Qed.

Example decode_empty_compound :
  CompleteMccReader.decode 1 [x0a; x00; x01; x61; x00]
  = Ok (VDict [([97], VDict [])]).
Proof. reflexivity. Qed.

Example decode_int_42 :
  CompleteMccReader.decode 1 [x03; x00; x01; x61; x00; x00; x00; x2a]
  = Ok (VDict [([97], VInt 42)]).
Proof. reflexivity. Qed.

Example decode_float_one :
  CompleteMccReader.decode 1 [x05; x00; x00; x3f; x80; x00; x00]
  = Ok (VDict [([], VFloat (S754_finite false 8388608 (-23)))]).
Proof. reflexivity. Qed.

(** * Further properties of the readers *)

(** ** The cursor *)

(** X1.  A read never seeks backward and never leaves the buffer: whenever
    [read_tag] (in either class) or [skip_tag] returns, the buffer is the one
    it started with and the position has moved forward by at most the number
    of bytes that were left. *)
Theorem read_tag_moves_forward (depth : nat) (tag_type : Z)
  (s s' : BytesIO.t) (v : value)
  (H : CompleteMccReader.read_tag depth tag_type s = Ok (v, s')
       \/ SnowballTimeline.read_tag depth tag_type s = Ok (v, s')
       \/ FindOwner.skip_tag depth tag_type s = Ok (tt, s')) :
  BytesIO.buf s' = BytesIO.buf s /\
  (BytesIO.pos s <= BytesIO.pos s')%nat /\
  (BytesIO.pos s' <= BytesIO.pos s + left s)%nat /\
  left s' = (left s - (BytesIO.pos s' - BytesIO.pos s))%nat.
Proof.
  assert (K : exists k, (k <= left s)%nat /\ s' = advance k s).
  { destruct H as [H | [H | H]].
    - exact (forward_read_tag _ depth tag_type complete_otherwise_forward
               _ _ _ H).
    - exact (forward_read_tag _ depth tag_type snowball_otherwise_forward
               _ _ _ H).
    - exact (forward_skip_tag depth tag_type _ _ _ H). }
  destruct K as [k [L ->]]. rewrite left_advance. simpl.
  repeat split; lia.
Qed.

Lemma read_tag_moves_forward_witness :
  BytesIO.buf (BytesIO.mk [x00; x00; x00; x2a; x07] 4) = [x00; x00; x00; x2a; x07] /\
  (0 <= 4)%nat /\ (4 <= 0 + 5)%nat /\
  left (BytesIO.mk [x00; x00; x00; x2a; x07] 4) = (5 - (4 - 0))%nat.
Proof.
  apply (read_tag_moves_forward 1 TAG_Int
           (BytesIO.open [x00; x00; x00; x2a; x07])
           (BytesIO.mk [x00; x00; x00; x2a; x07] 4) (VInt 42)).
  left. reflexivity.
Defined.

(** ** The two NBTReader classes *)

Lemma unless_refl {A} (P : exn -> Prop) (m : M A) : unless P m m.
Proof. intros s _. reflexivity. Qed.

Lemma unless_bind {A B} (P : exn -> Prop) (m1 m2 : M A) (k1 k2 : A -> M B) :
  unless P m1 m2 -> (forall a, unless P (k1 a) (k2 a)) ->
  unless P (bind m1 k1) (bind m2 k2).
Proof.
  intros Hm Hk s H. unfold bind in *.
  destruct (m1 s) as [[a s1]|e] eqn:E.
  - rewrite (Hm s), E; [|intros e Q; rewrite E in Q; discriminate Q].
    apply Hk. exact H.
  - rewrite (Hm s), E; [reflexivity|].
    intros e' Q. rewrite E in Q. inversion Q; subst.
    apply (H e'). reflexivity.
Qed.

Lemma unless_if {A} (P : exn -> Prop) (c : bool) (a1 a2 b1 b2 : M A) :
  unless P a1 a2 -> unless P b1 b2 ->
  unless P (if c then a1 else b1) (if c then a2 else b2).
Proof. destruct c; auto. Qed.

Lemma unless_comprehension {A} (P : exn -> Prop) (n : nat) (m1 m2 : M A) :
  unless P m1 m2 -> unless P (comprehension n m1) (comprehension n m2).
Proof.
  intros Hm. induction n as [|n IH]; simpl.
  - apply unless_refl.
  - apply unless_bind; [exact Hm|]. intros x.
    apply unless_bind; [exact IH|]. intros xs. apply unless_refl.
Qed.

Lemma unless_compound_loop (P : exn -> Prop) (rt1 rt2 : Z -> M value)
      (turns : nat) (acc : dict) :
  (forall t, unless P (rt1 t) (rt2 t)) ->
  unless P (compound_loop rt1 turns acc) (compound_loop rt2 turns acc).
Proof.
  intros Hrt. revert acc. induction turns as [|turns IH]; intros acc; simpl.
  - apply unless_refl.
  - apply unless_bind; [apply unless_refl|]. intros t.
    apply unless_if; [apply unless_refl|].
    apply unless_bind; [apply unless_refl|]. intros name.
    apply unless_bind; [apply Hrt|]. intros v. apply IH.
Qed.

Lemma unless_read_tag_with (P : exn -> Prop) (o1 o2 rt1 rt2 : Z -> M value)
      (t : Z) :
  (forall t, unless P (o1 t) (o2 t)) ->
  (forall t, unless P (rt1 t) (rt2 t)) ->
  unless P (read_tag_with o1 rt1 t) (read_tag_with o2 rt2 t).
Proof.
  intros Ho Hrt. unfold read_tag_with.
  repeat (apply unless_if; [apply unless_refl|]).
  apply unless_if.
  { unfold read_list_with.
    apply unless_bind; [apply unless_refl|]. intros tag.
    apply unless_bind; [apply unless_refl|]. intros n.
    apply unless_bind; [|intros l; apply unless_refl].
    apply unless_comprehension. apply Hrt. }
  apply unless_if.
  { intros s. unfold read_compound_with.
    apply unless_compound_loop. exact Hrt. }
  repeat (apply unless_if; [apply unless_refl|]).
  apply Ho.
Qed.

Lemma unless_value_error_otherwise (t : Z) :
  unless is_value_error (CompleteMccReader.otherwise t)
    (SnowballTimeline.otherwise t).
Proof.
  intros s H. exfalso. apply (H (ValueError t)); [reflexivity|].
  exists t. reflexivity.
Qed.

Lemma unless_value_error_read_tag (depth : nat) (t : Z) :
  unless is_value_error (CompleteMccReader.read_tag depth t)
    (SnowballTimeline.read_tag depth t).
Proof.
  revert t. induction depth as [|depth IH]; intros t.
  - apply unless_refl.
  - apply unless_read_tag_with; [apply unless_value_error_otherwise|].
    exact IH.
Qed.

(** X2.  The reader of [snowball_timeline.py] does what the reader of
    [complete_mcc_reader.py] does, value, exception and final position, on
    every input on which the latter does not raise its [ValueError]: the
    missing [else] is the only difference between the two classes. *)
Theorem readers_agree (depth : nat) (data : bytes)
  (H : forall c, CompleteMccReader.decode depth data <> Raise (ValueError c)) :
  SnowballTimeline.decode depth data = CompleteMccReader.decode depth data /\
  (forall tag_type s,
     (forall c, CompleteMccReader.read_tag depth tag_type s
                <> Raise (ValueError c)) ->
     SnowballTimeline.read_tag depth tag_type s
     = CompleteMccReader.read_tag depth tag_type s).
Proof.
  split.
  - unfold SnowballTimeline.decode, CompleteMccReader.decode, decode in *.
    assert (U : unless is_value_error
                  (read_root CompleteMccReader.otherwise depth)
                  (read_root SnowballTimeline.otherwise depth)).
    { unfold read_root.
      apply unless_bind; [apply unless_refl|]. intros t.
      apply unless_if; [apply unless_refl|].
      apply unless_bind; [apply unless_refl|]. intros name.
      apply unless_bind; [|intros v; apply unless_refl].
      apply unless_value_error_read_tag. }
    rewrite (U (BytesIO.open data)); [reflexivity|].
    intros e Q [c ->]. rewrite Q in H. apply (H c). reflexivity.
  - intros t s Hs. apply unless_value_error_read_tag.
    intros e Q [c ->]. apply (Hs c). exact Q.
Qed.

Lemma readers_agree_witness :
  SnowballTimeline.decode 2 [x0a; x00; x00; x03; x00; x01; x61; x00; x00]
  = CompleteMccReader.decode 2 [x0a; x00; x00; x03; x00; x01; x61; x00; x00].
Proof.
  apply (readers_agree 2 [x0a; x00; x00; x03; x00; x01; x61; x00; x00]).
  intros c. vm_compute. discriminate.
Defined.

(** ** Numbers *)

Lemma be_fold_bound (bs : bytes) :
  forall acc, 0 <= acc ->
  0 <= Struct.be_fold acc bs < (acc + 1) * 256 ^ Z.of_nat (length bs).
Proof.
  induction bs as [|b bs IH]; intros acc Ha.
  - simpl. lia.
  - cbn [Struct.be_fold length]. pose proof (u8_range b) as Hb.
    destruct (IH (acc * 256 + u8 b)) as [L U]; [lia|].
    split; [exact L|].
    rewrite Nat2Z.inj_succ, Z.pow_succ_r by lia.
    assert (P : 0 < 256 ^ Z.of_nat (length bs)) by (apply Z.pow_pos_nonneg; lia).
    nia.
Qed.

Lemma unsigned_range (bs : bytes) :
  0 <= Struct.unsigned bs < 256 ^ Z.of_nat (length bs).
Proof.
  pose proof (be_fold_bound bs 0 (Z.le_refl 0)) as H.
  unfold Struct.unsigned. lia.
Qed.

Lemma signed_range (size : nat) (bs : bytes) :
  length bs = size -> (0 < size)%nat ->
  - 2 ^ (8 * Z.of_nat size - 1) <= Struct.signed size bs
  < 2 ^ (8 * Z.of_nat size - 1).
Proof.
  intros L Hs. unfold Struct.signed. cbv zeta.
  pose proof (unsigned_range bs) as U. rewrite L in U.
  replace (256 ^ Z.of_nat size) with (2 ^ (8 * Z.of_nat size)) in U
    by (change 256 with (2 ^ 8); rewrite <- Z.pow_mul_r by lia; reflexivity).
  set (w := 8 * Z.of_nat size) in *.
  assert (Hw : 2 ^ w = 2 * 2 ^ (w - 1)).
  { replace w with (Z.succ (w - 1)) at 1 by lia.
    rewrite Z.pow_succ_r by (unfold w; lia). reflexivity. }
  rewrite Hw. rewrite Z.mul_comm, Z.div_mul by lia.
  destruct (Struct.unsigned bs <? 2 ^ (w - 1)) eqn:E.
  - apply Z.ltb_lt in E. lia.
  - apply Z.ltb_ge in E. lia.
Qed.

Lemma length_firstn_le {A} (n : nat) (l : list A) :
  (n <= length l)%nat -> length (firstn n l) = n.
Proof. intros H. rewrite length_firstn. lia. Qed.

Lemma read_fixed_inv {A} (size : nat) (f : bytes -> A) (s s' : BytesIO.t)
      (a : A) :
  (bs <- stream_read (Z.of_nat size) ;; Struct.unpack size f bs) s
  = Ok (a, s') ->
  length (firstn size (BytesIO.remaining s)) = size /\
  a = f (firstn size (BytesIO.remaining s)) /\ s' = advance size s.
Proof.
  rewrite read_fixed. destruct (size <=? left s)%nat eqn:E; [|discriminate].
  apply Nat.leb_le in E. intros H. injection H as Ha Hs.
  split; [apply length_firstn_le; exact E|]. split; congruence.
Qed.

(** X3.  Each integer read returns a number of its declared width and moves
    the cursor by exactly that width: [read_byte] gives -128..127 from one
    byte, [read_ubyte] 0..255 from one, [read_short] -32768..32767 from two,
    [read_int] a signed 32-bit number from four, [read_long] a signed 64-bit
    number from eight. *)
Theorem integer_reads_in_range (s s' : BytesIO.t) (z : Z) :
  (read_byte s = Ok (z, s') -> -128 <= z < 128 /\ s' = advance 1 s) /\
  (read_ubyte s = Ok (z, s') -> 0 <= z < 256 /\ s' = advance 1 s) /\
  (read_short s = Ok (z, s') -> -32768 <= z < 32768 /\ s' = advance 2 s) /\
  (read_int s = Ok (z, s') ->
   -2147483648 <= z < 2147483648 /\ s' = advance 4 s) /\
  (read_long s = Ok (z, s') ->
   -9223372036854775808 <= z < 9223372036854775808 /\ s' = advance 8 s).
Proof.
  split; [|split; [|split; [|split]]]; intros H.
  - destruct (read_fixed_inv 1 _ _ _ _ H) as [L [-> ->]].
    split; [|reflexivity]. apply (signed_range 1); [exact L | lia].
  - destruct (read_fixed_inv 1 _ _ _ _ H) as [L [-> ->]].
    split; [|reflexivity].
    pose proof (unsigned_range (firstn 1 (BytesIO.remaining s))) as U.
    rewrite L in U. exact U.
  - destruct (read_fixed_inv 2 _ _ _ _ H) as [L [-> ->]].
    split; [|reflexivity]. apply (signed_range 2); [exact L | lia].
  - destruct (read_fixed_inv 4 _ _ _ _ H) as [L [-> ->]].
    split; [|reflexivity]. apply (signed_range 4); [exact L | lia].
  - destruct (read_fixed_inv 8 _ _ _ _ H) as [L [-> ->]].
    split; [|reflexivity]. apply (signed_range 8); [exact L | lia].
Qed.

Lemma integer_reads_in_range_witness :
  -2147483648 <= -3 < 2147483648 /\
  BytesIO.mk [xff; xff; xff; xfd] 4 = advance 4 (BytesIO.open [xff; xff; xff; xfd]).
Proof.
  apply (proj1 (proj2 (proj2 (proj2
           (integer_reads_in_range (BytesIO.open [xff; xff; xff; xfd])
              (BytesIO.mk [xff; xff; xff; xfd] 4) (-3)))))).
  reflexivity.
Defined.

(** ** Arrays *)

Lemma comprehension_ints (width : nat) (n : nat) :
  (0 < width)%nat ->
  forall (s s' : BytesIO.t) (l : list value),
  comprehension n
    (z <- (bs <- stream_read (Z.of_nat width) ;;
           Struct.unpack width (Struct.signed width) bs) ;;
     ret (VInt z)) s = Ok (l, s') ->
  length l = n /\ s' = advance (n * width) s /\
  (n * width <= left s)%nat /\ Forall (is_int_of_width width) l.
Proof.
  intros Hw. induction n as [|n IH]; intros s s' l H; simpl in H.
  - inversion H; subst. simpl.
    repeat split; [symmetry; apply advance_0 | lia | constructor].
  - unfold bind at 1 2 in H.
    destruct ((bs <- stream_read (Z.of_nat width) ;;
               Struct.unpack width (Struct.signed width) bs) s)
      as [[z s1]|e] eqn:E; [|discriminate H].
    destruct (read_fixed_inv _ _ _ _ _ E) as [L [Hz ->]].
    destruct (read_fixed_ok _ _ _ _ _ E) as [L1 _].
    unfold ret at 1 in H. unfold bind at 1 in H.
    destruct (comprehension n _ (advance width s)) as [[xs s2]|e] eqn:E2;
      [|discriminate H].
    destruct (IH _ _ _ E2) as [Ln [-> [Lb F]]].
    injection H as <- <-. rewrite left_advance in Lb.
    rewrite advance_advance.
    split; [simpl; lia|]. split; [reflexivity|]. split; [simpl; lia|].
    constructor; [|exact F].
    exists z. split; [reflexivity|]. subst z.
    apply signed_range; [exact L | exact Hw].
Qed.

Section Arrays.

Variable otherwise : Z -> M value.

Lemma array_read (depth : nat) (tag_type : Z) (s s1 s' : BytesIO.t)
      (count : Z) (v : value) :
  tag_type = TAG_Byte_Array \/ tag_type = TAG_Int_Array
  \/ tag_type = TAG_Long_Array ->
  read_int s = Ok (count, s1) -> 0 <= count ->
  read_tag otherwise (S depth) tag_type s = Ok (v, s') ->
  exists l,
    v = VList l /\ Z.of_nat (length l) = count /\
    s' = advance (4 + Z.to_nat count * array_width tag_type) s /\
    Forall (is_int_of_width (array_width tag_type)) l.
Proof.
  intros Ht Hc Hn H.
  destruct (read_fixed_ok 4 _ _ _ _ Hc) as [_ ->].
  assert (K : forall width,
            (0 < width)%nat ->
            (length <- read_int ;;
             l <- comprehension (range length)
                    (z <- (bs <- stream_read (Z.of_nat width) ;;
                           Struct.unpack width (Struct.signed width) bs) ;;
                     ret (VInt z)) ;;
             ret (VList l)) s = Ok (v, s') ->
            exists l,
              v = VList l /\ Z.of_nat (length l) = count /\
              s' = advance (4 + Z.to_nat count * width) s /\
              Forall (is_int_of_width width) l).
  { intros width Hw Q. rewrite (bind_ok _ _ _ _ _ Hc) in Q.
    unfold bind in Q.
    destruct (comprehension (range count) _ (advance 4 s))
      as [[l s2]|e] eqn:E; [|discriminate Q].
    destruct (comprehension_ints width _ Hw _ _ _ E) as [L [-> [_ F]]].
    injection Q as <- <-. exists l. unfold range in *.
    rewrite advance_advance.
    repeat split; [lia | exact F]. }
  destruct Ht as [-> | [-> | ->]].
  - exact (K 1%nat Nat.lt_0_1 H).
  - apply (K 4%nat); [lia | exact H].
  - apply (K 8%nat); [lia | exact H].
Qed.

End Arrays.

(** X4.  An array whose count is not negative is read whole or not at all:
    when [read_tag] returns on a ByteArray, IntArray or LongArray with count
    [n], its value is a list of exactly [n] integers, each within the signed
    range of the element width (1, 4 or 8 bytes), and the cursor has moved by
    the four count bytes plus [n] times that width. *)
Theorem array_read_whole (depth : nat) (tag_type : Z) (s s1 s' : BytesIO.t)
  (count : Z) (v : value)
  (Ht : tag_type = TAG_Byte_Array \/ tag_type = TAG_Int_Array
        \/ tag_type = TAG_Long_Array)
  (Hc : read_int s = Ok (count, s1)) (Hn : 0 <= count)
  (H : CompleteMccReader.read_tag (S depth) tag_type s = Ok (v, s')
       \/ SnowballTimeline.read_tag (S depth) tag_type s = Ok (v, s')) :
  exists l,
    v = VList l /\ Z.of_nat (length l) = count /\
    s' = advance (4 + Z.to_nat count * array_width tag_type) s /\
    Forall (is_int_of_width (array_width tag_type)) l.
Proof.
  destruct H as [H | H]; eapply array_read; eassumption.
Qed.

Lemma array_read_whole_witness :
  exists l,
    VList [VInt 1; VInt (-2)] = VList l /\ Z.of_nat (length l) = 2 /\
    BytesIO.mk [x00; x00; x00; x02; x01; xfe; x2a] 6
    = advance (4 + Z.to_nat 2 * array_width TAG_Byte_Array)
        (BytesIO.open [x00; x00; x00; x02; x01; xfe; x2a]) /\
    Forall (is_int_of_width (array_width TAG_Byte_Array)) l.
Proof.
  apply (array_read_whole 0 TAG_Byte_Array
           (BytesIO.open [x00; x00; x00; x02; x01; xfe; x2a])
           (BytesIO.mk [x00; x00; x00; x02; x01; xfe; x2a] 4)
           (BytesIO.mk [x00; x00; x00; x02; x01; xfe; x2a] 6)
           2 (VList [VInt 1; VInt (-2)])).
  - left. reflexivity.
  - reflexivity.
  - lia.
  - left. reflexivity.
Defined.

(** ** Keys of a decoded compound *)

Lemma dict_keys_set (k k' : str) (v : value) (d : dict) :
  In k' (dict_keys (dict_set k v d)) <-> k' = k \/ In k' (dict_keys d).
Proof.
  induction d as [|[k0 v0] d IH]; simpl.
  - intuition congruence.
  - destruct (str_eqb k k0) eqn:E; simpl.
    + apply str_eqb_eq in E. subst k0. intuition congruence.
    + rewrite IH. intuition congruence.
Qed.

Lemma dict_keys_set_nodup (k : str) (v : value) (d : dict) :
  NoDup (dict_keys d) -> NoDup (dict_keys (dict_set k v d)).
Proof.
  induction d as [|[k0 v0] d IH]; simpl; intros H.
  - constructor; [intros []|constructor].
  - inversion H as [|x l Hx Hl]; subst.
    destruct (str_eqb k k0) eqn:E; simpl.
    + constructor; assumption.
    + constructor; [|apply IH; exact Hl].
      intros Q. apply dict_keys_set in Q. destruct Q as [Q | Q].
      * subst k0. rewrite str_eqb_refl in E. discriminate.
      * apply Hx. exact Q.
Qed.

Lemma insert_all_keys (entries : list (str * value)) (d : dict) :
  NoDup (dict_keys d) ->
  NoDup (dict_keys (insert_all entries d)) /\
  (forall name, In name (dict_keys (insert_all entries d)) <->
                In name (map fst entries) \/ In name (dict_keys d)).
Proof.
  revert d. induction entries as [|[k v] entries IH]; intros d H.
  - split; [exact H|]. intros name. simpl. intuition.
  - unfold insert_all in *. simpl.
    destruct (IH (dict_set k v d) (dict_keys_set_nodup k v d H)) as [N K].
    split; [exact N|]. intros name. rewrite K, dict_keys_set.
    intuition congruence.
Qed.

(** X6.  A decoded compound never has two entries with one name, and its
    keys are exactly the names that were read: whenever [read_compound]
    returns, the result is a mapping with distinct keys, a name is a key of
    it if and only if an entry with that name was read, and each key is bound
    to the value of the last entry so named. *)
Theorem compound_keys_unique (depth : nat) (s s' : BytesIO.t) (v : value)
  (H : CompleteMccReader.read_compound depth s = Ok (v, s')
       \/ SnowballTimeline.read_compound depth s = Ok (v, s')) :
  exists d entries,
    v = VDict d /\ NoDup (dict_keys d) /\
    (spec_compound (CompleteMccReader.read_tag depth) s entries s'
     \/ spec_compound (SnowballTimeline.read_tag depth) s entries s') /\
    (forall name, In name (dict_keys d) <-> In name (map fst entries)) /\
    (forall name, dict_get name d = last_value name entries).
Proof.
  assert (K : exists entries,
            (spec_compound (CompleteMccReader.read_tag depth) s entries s'
             \/ spec_compound (SnowballTimeline.read_tag depth) s entries s')
            /\ v = VDict (insert_all entries [])).
  { destruct H as [H | H].
    - apply (read_compound_spec _ complete_otherwise_forward) in H.
      destruct H as [entries [Hs Hv]]. exists entries. auto.
    - apply (read_compound_spec _ snowball_otherwise_forward) in H.
      destruct H as [entries [Hs Hv]]. exists entries. auto. }
  destruct K as [entries [Hs ->]].
  destruct (insert_all_keys entries [] (NoDup_nil _)) as [N Kk].
  exists (insert_all entries []), entries.
  split; [reflexivity|]. split; [exact N|]. split; [exact Hs|]. split.
  - intros name. rewrite Kk. simpl. intuition.
  - intros name. rewrite dict_get_insert_all.
    destruct (last_value name entries); reflexivity.
Qed.

Lemma compound_keys_unique_witness :
  exists d entries,
    VDict [([97], VInt 7)] = VDict d /\ NoDup (dict_keys d) /\
    (spec_compound (CompleteMccReader.read_tag 1)
       (BytesIO.open [x01; x00; x01; x61; x05; x01; x00; x01; x61; x07; x00])
       entries
       (BytesIO.mk [x01; x00; x01; x61; x05; x01; x00; x01; x61; x07; x00] 11)
     \/ spec_compound (SnowballTimeline.read_tag 1)
       (BytesIO.open [x01; x00; x01; x61; x05; x01; x00; x01; x61; x07; x00])
       entries
       (BytesIO.mk [x01; x00; x01; x61; x05; x01; x00; x01; x61; x07; x00] 11))
    /\
    (forall name, In name (dict_keys d) <-> In name (map fst entries)) /\
    (forall name, dict_get name d = last_value name entries).
Proof.
  apply (compound_keys_unique 1
           (BytesIO.open [x01; x00; x01; x61; x05; x01; x00; x01; x61; x07; x00])
           (BytesIO.mk [x01; x00; x01; x61; x05; x01; x00; x01; x61; x07; x00] 11)
           (VDict [([97], VInt 7)])).
  left. reflexivity.
Defined.

(** ** Skipping fixed-width tags *)

Lemma skip_fixed_any (size : nat) (s : BytesIO.t) :
  (stream_read (Z.of_nat size) ;;; ret tt) s
  = Ok (tt, advance (Nat.min size (left s)) s).
Proof. unfold bind, stream_read. rewrite read_nonneg. reflexivity. Qed.

(** X7.  [skip_tag] does not notice a buffer that ends inside a number.  On
    a tag of type 1..6 it never raises: it moves the cursor by the width of
    the type, or to the end of the buffer when fewer bytes are left, where
    [read_tag] of both NBTReader classes raises [struct.error]. *)
Theorem skip_tag_ignores_truncation (depth : nat) (tag_type : Z)
  (s : BytesIO.t) (Ht : 1 <= tag_type <= 6) :
  FindOwner.skip_tag (S depth) tag_type s
  = Ok (tt, advance (Nat.min (fixed_width tag_type) (left s)) s) /\
  ((left s < fixed_width tag_type)%nat ->
   CompleteMccReader.read_tag (S depth) tag_type s = Raise StructError /\
   SnowballTimeline.read_tag (S depth) tag_type s = Raise StructError).
Proof.
  assert (C : tag_type = 1 \/ tag_type = 2 \/ tag_type = 3 \/ tag_type = 4
              \/ tag_type = 5 \/ tag_type = 6) by lia.
  destruct C as [-> | [-> | [-> | [-> | [-> | ->]]]]]; (split;
    [ first [ exact (skip_fixed_any 1 s) | exact (skip_fixed_any 2 s)
            | exact (skip_fixed_any 4 s) | exact (skip_fixed_any 8 s) ]
    | intros L; simpl in L; split; simpl; unfold read_tag_with; simpl;
      apply bind_raise;
      first [ exact (read_fixed_short 1 _ s L)
            | exact (read_fixed_short 2 _ s L)
            | exact (read_fixed_short 4 _ s L)
            | exact (read_fixed_short 8 _ s L) ] ]).
Qed.

Lemma skip_tag_ignores_truncation_witness :
  FindOwner.skip_tag 1 TAG_Int (BytesIO.open [x00; x01])
  = Ok (tt, advance 2 (BytesIO.open [x00; x01])) /\
  CompleteMccReader.read_tag 1 TAG_Int (BytesIO.open [x00; x01])
  = Raise StructError.
Proof.
  destruct (skip_tag_ignores_truncation 0 TAG_Int (BytesIO.open [x00; x01]))
    as [A B].
  - unfold TAG_Int. lia.
  - split; [exact A|]. apply B. vm_compute. lia.
Defined.

(** ** Text *)

(** Decoding never yields more code points than there are bytes. *)
Lemma decode_replace_length (bs : bytes) :
  (length (Utf8.decode_replace bs) <= length bs)%nat.
Proof.
  assert (K : forall n bs, (length bs <= n)%nat ->
                (length (Utf8.decode_replace bs) <= length bs)%nat).
  { clear bs. induction n as [|n IH]; intros bs L.
    - destruct bs; [simpl; lia | simpl in L; lia].
    - destruct bs as [|b0 t1]; [simpl; lia|].
      rewrite decode_replace_cons. cbv zeta.
      assert (I1 : (length (Utf8.decode_replace t1) <= length t1)%nat)
        by (apply IH; simpl in L; lia).
      destruct t1 as [|b1 t2].
      { repeat split_if; simpl; lia. }
      assert (I2 : (length (Utf8.decode_replace t2) <= length t2)%nat)
        by (apply IH; simpl in L; lia).
      destruct t2 as [|b2 t3].
      { repeat split_if; simpl in *; lia. }
      assert (I3 : (length (Utf8.decode_replace t3) <= length t3)%nat)
        by (apply IH; simpl in L; lia).
      destruct t3 as [|b3 t4].
      { repeat split_if; simpl in *; lia. }
      assert (I4 : (length (Utf8.decode_replace t4) <= length t4)%nat)
        by (apply IH; simpl in L; lia).
      repeat split_if;
        cbn [length] in *; lia. }
  apply (K (length bs)). apply Nat.le_refl.
Qed.

Lemma decode_replace_ascii (bs : bytes) :
  Forall (fun b => u8 b < 0x80) bs ->
  Utf8.decode_replace bs = map u8 bs.
Proof.
  intros H. induction H as [|b bs Hb H IH]; [reflexivity|].
  rewrite decode_replace_cons. cbv zeta.
  replace (u8 b <? 128) with true by (symmetry; lia).
  rewrite IH. reflexivity.
Qed.

Lemma unsigned_two (h1 h2 : byte) :
  Struct.unsigned [h1; h2] = u8 h1 * 256 + u8 h2.
Proof. reflexivity. Qed.

(** X8.  What a string read returns is fixed by the buffer: the text is the
    decoding of the bytes that follow the two length bytes, as many as the
    length declares or as are left, and the cursor stops right behind them.
    The declared length is at most 65535, so the text has at most 65535
    code points, and never more code points than bytes were decoded.  When
    those bytes are all ASCII the text is those bytes, one code point
    each. *)
Theorem read_string_bounds (s s' : BytesIO.t) (text : str)
  (H : read_string s = Ok (text, s')) :
  let declared := Struct.unsigned (firstn 2 (BytesIO.remaining s)) in
  let payload :=
    firstn (Z.to_nat declared) (skipn 2 (BytesIO.remaining s)) in
  (2 <= left s)%nat /\
  0 <= declared <= 65535 /\
  text = Utf8.decode_replace payload /\
  s' = advance (2 + length payload) s /\
  length payload = Nat.min (Z.to_nat declared) (left s - 2) /\
  (length text <= length payload)%nat /\
  (Forall (fun b => u8 b < 0x80) payload -> text = map u8 payload).
Proof.
  intros declared payload.
  rewrite read_string_eq in H.
  destruct (2 <=? left s)%nat eqn:E; [|discriminate H].
  apply Nat.leb_le in E. cbv zeta in H. injection H as <- <-.
  fold declared. fold payload.
  assert (Hn : 0 <= declared < 65536).
  { pose proof (unsigned_range (firstn 2 (BytesIO.remaining s))) as U.
    rewrite (length_firstn_le 2) in U by exact E. exact U. }
  split; [exact E|]. split; [lia|].
  split; [reflexivity|]. split; [reflexivity|].
  split.
  { unfold payload. rewrite length_firstn, length_skipn. reflexivity. }
  split; [apply decode_replace_length | apply decode_replace_ascii].
Qed.

(** The string [00 05 68 69 c3]: five bytes declared, three there, the last
    one the start of a sequence that does not go on. *)
Lemma read_string_bounds_witness :
  (2 <= left (BytesIO.open [x00; x05; x68; x69; xc3]))%nat /\
  0 <= 5 <= 65535 /\
  [104%Z; 105%Z; Utf8.REPLACEMENT] = Utf8.decode_replace [x68; x69; xc3] /\
  BytesIO.mk [x00; x05; x68; x69; xc3] 5
  = advance (2 + 3) (BytesIO.open [x00; x05; x68; x69; xc3]) /\
  3%nat
  = Nat.min (Z.to_nat 5) (left (BytesIO.open [x00; x05; x68; x69; xc3]) - 2) /\
  (3 <= 3)%nat /\
  (Forall (fun b => u8 b < 0x80) [x68; x69; xc3] ->
   [104%Z; 105%Z; Utf8.REPLACEMENT] = map u8 [x68; x69; xc3]).
Proof.
  apply (read_string_bounds (BytesIO.open [x00; x05; x68; x69; xc3])
           (BytesIO.mk [x00; x05; x68; x69; xc3] 5)
           [104; 105; Utf8.REPLACEMENT]).
  reflexivity.
Defined.

(** ** What a decode depends on *)

Lemma advance_inj (j k : nat) (s : BytesIO.t) :
  advance j s = advance k s -> j = k.
Proof. unfold advance. intros H. injection H as H. lia. Qed.

Lemma firstn_prefix {A} (j k : nat) (l1 l2 : list A) :
  (j <= k)%nat -> firstn k l1 = firstn k l2 -> firstn j l1 = firstn j l2.
Proof.
  intros L H.
  rewrite <- (Nat.min_l j k L), <- !firstn_firstn, H. reflexivity.
Qed.

Lemma firstn_skipn_prefix {A} (j k : nat) (l1 l2 : list A) :
  firstn (j + k) l1 = firstn (j + k) l2 ->
  firstn k (skipn j l1) = firstn k (skipn j l2).
Proof. intros H. rewrite !firstn_skipn_comm, H. reflexivity. Qed.

Lemma local_ret {A} (a : A) : local (ret a).
Proof.
  intros s a' k H _ s2 _ _. injection H as <- H.
  rewrite <- (advance_0 s) in H at 1. apply advance_inj in H. subst k.
  rewrite advance_0. reflexivity.
Qed.

Lemma local_raise {A} (e : exn) : local (@raise A e).
Proof. intros s a k H. discriminate H. Qed.

Lemma local_bind {A B} (m : M A) (f : A -> M B) :
  local m -> forward m -> (forall a, local (f a)) ->
  (forall a, forward (f a)) -> local (bind m f).
Proof.
  intros Lm Fm Lf Ff s b k H Hk s2 Hp Hl. unfold bind in H.
  destruct (m s) as [[a s1]|e] eqn:E; [|discriminate H].
  destruct (Fm _ _ _ E) as [k1 [L1 ->]].
  destruct (Ff a _ _ _ H) as [k2 [L2 Q]].
  rewrite advance_advance in Q. apply advance_inj in Q. subst k.
  rewrite left_advance in L2.
  rewrite <- advance_advance in H.
  assert (E2 : m s2 = Ok (a, advance k1 s2)).
  { apply (Lm s a k1 E); [lia | | lia].
    apply (firstn_prefix k1 (k1 + k2)); [lia | exact Hp]. }
  unfold bind. rewrite E2.
  rewrite <- advance_advance.
  apply (Lf a (advance k1 s) b k2 H).
  - rewrite left_advance. lia.
  - rewrite !remaining_advance. apply firstn_skipn_prefix. exact Hp.
  - rewrite left_advance. lia.
Qed.

Lemma local_if {A} (c : bool) (a b : M A) :
  local a -> local b -> local (if c then a else b).
Proof. destruct c; auto. Qed.

Lemma local_stream_read (size : Z) : local (stream_read size).
Proof.
  intros s got k H Hk s2 Hp Hl. unfold stream_read in *.
  destruct (Z.ltb_spec size 0) as [Hn | Hn].
  - rewrite read_negative in H by exact Hn. injection H as Hg Hs.
    unfold left in *. lia.
  - assert (Hz : size = Z.of_nat (Z.to_nat size)) by lia.
    rewrite Hz in H |- *. rewrite read_nonneg in H |- *.
    injection H as Hg Hs.
    clear Hz. assert (Hk' : Z.to_nat size = k) by lia. rewrite Hk' in *.
    rewrite Nat.min_l by exact Hl. rewrite Hp, Hg. reflexivity.
Qed.

Lemma local_unpack {A} (size : nat) (f : bytes -> A) (bs : bytes) :
  local (Struct.unpack size f bs).
Proof.
  unfold Struct.unpack. destruct (Nat.eqb (length bs) size).
  - apply local_ret.
  - apply local_raise.
Qed.

Lemma local_read_fixed {A} (size : nat) (f : bytes -> A) :
  local (bs <- stream_read (Z.of_nat size) ;; Struct.unpack size f bs).
Proof.
  apply local_bind.
  - apply local_stream_read.
  - apply forward_stream_read.
  - intros bs. apply local_unpack.
  - intros bs. apply forward_unpack.
Qed.

Lemma local_read_string : local read_string.
Proof.
  unfold read_string.
  apply local_bind;
    [apply local_stream_read | apply forward_stream_read | |].
  - intros hdr. apply local_bind;
      [apply local_unpack | apply forward_unpack | |].
    + intros n. apply local_bind;
        [apply local_stream_read | apply forward_stream_read | |].
      * intros p. apply local_ret.
      * intros p. apply forward_ret.
    + intros n. apply forward_bind; [apply forward_stream_read|].
      intros p. apply forward_ret.
  - intros hdr. apply forward_bind; [apply forward_unpack|].
    intros n. apply forward_bind; [apply forward_stream_read|].
    intros p. apply forward_ret.
Qed.

Lemma local_then_ret {A B} (m : M A) (g : A -> B) :
  local m -> forward m -> local (x <- m ;; ret (g x)).
Proof.
  intros Lm Fm. apply local_bind; [exact Lm | exact Fm | |].
  - intros a. apply local_ret.
  - intros a. apply forward_ret.
Qed.

Lemma forward_then_ret {A B} (m : M A) (g : A -> B) :
  forward m -> forward (x <- m ;; ret (g x)).
Proof.
  intros Fm. apply forward_bind; [exact Fm|]. intros a. apply forward_ret.
Qed.

Lemma local_comprehension {A} (n : nat) (m : M A) :
  local m -> forward m -> local (comprehension n m).
Proof.
  intros Lm Fm. induction n as [|n IH]; simpl.
  - apply local_ret.
  - apply local_bind; [exact Lm | exact Fm | |].
    + intros x. apply local_then_ret;
        [exact IH | apply forward_comprehension; exact Fm].
    + intros x. apply forward_then_ret.
      apply forward_comprehension. exact Fm.
Qed.

Lemma local_compound_loop (rt : Z -> M value) (turns : nat) (acc : dict) :
  (forall t, local (rt t)) -> (forall t, forward (rt t)) ->
  local (compound_loop rt turns acc).
Proof.
  intros Lrt Frt. revert acc.
  induction turns as [|turns IH]; intros acc; simpl.
  - apply local_raise.
  - apply local_bind;
      [apply (local_read_fixed 1) | apply forward_read_ubyte | |].
    + intros t. apply local_if; [apply local_ret|].
      apply local_bind;
        [apply local_read_string | apply forward_read_string | |].
      * intros name. apply local_bind; [apply Lrt | apply Frt | |].
        -- intros v. apply IH.
        -- intros v. apply forward_compound_loop. exact Frt.
      * intros name. apply forward_bind; [apply Frt|].
        intros v. apply forward_compound_loop. exact Frt.
    + intros t. destruct (t =? TAG_End); [apply forward_ret|].
      apply forward_bind; [apply forward_read_string|]. intros name.
      apply forward_bind; [apply Frt|].
      intros v. apply forward_compound_loop. exact Frt.
Qed.

Lemma local_read_compound_with (rt : Z -> M value) :
  (forall t, local (rt t)) -> (forall t, forward (rt t)) ->
  local (read_compound_with rt).
Proof.
  intros Lrt Frt s a k H Hk s2 Hp Hl. unfold read_compound_with in *.
  pose proof (local_compound_loop rt _ [] Lrt Frt s a k H Hk s2 Hp Hl) as R.
  destruct (compound_loop_sound _ _ _ _ _ _ R) as [entries [Hs ->]].
  apply (compound_loop_complete rt Frt _ _ _ Hs). unfold left. lia.
Qed.

Lemma local_read_list_with (rt : Z -> M value) :
  (forall t, local (rt t)) -> (forall t, forward (rt t)) ->
  local (read_list_with rt).
Proof.
  intros Lrt Frt. unfold read_list_with.
  apply local_bind;
    [apply (local_read_fixed 1) | apply forward_read_ubyte | |].
  - intros t. apply local_bind;
      [apply (local_read_fixed 4) | apply forward_read_int | |].
    + intros n. apply local_then_ret.
      * apply local_comprehension; [apply Lrt | apply Frt].
      * apply forward_comprehension. apply Frt.
    + intros n. apply forward_then_ret.
      apply forward_comprehension. apply Frt.
  - intros t. apply forward_bind; [apply forward_read_int|].
    intros n. apply forward_then_ret.
    apply forward_comprehension. apply Frt.
Qed.

Lemma local_array {A} (size : nat) (f : bytes -> A) (g : A -> value) :
  local (length <- read_int ;;
         l <- comprehension (range length)
                (z <- (bs <- stream_read (Z.of_nat size) ;;
                       Struct.unpack size f bs) ;; ret (g z)) ;;
         ret (VList l)).
Proof.
  assert (Fe : forward (z <- (bs <- stream_read (Z.of_nat size) ;;
                              Struct.unpack size f bs) ;; ret (g z))).
  { apply forward_then_ret.
    apply forward_bind; [apply forward_stream_read|].
    intros bs. apply forward_unpack. }
  apply local_bind;
    [apply (local_read_fixed 4) | apply forward_read_int | |].
  - intros n. apply local_then_ret.
    + apply local_comprehension; [|exact Fe].
      apply local_then_ret; [apply local_read_fixed|].
      apply forward_bind; [apply forward_stream_read|].
      intros bs. apply forward_unpack.
    + apply forward_comprehension. exact Fe.
  - intros n. apply forward_then_ret.
    apply forward_comprehension. exact Fe.
Qed.

Lemma local_read_tag_with (otherwise rt : Z -> M value) (t : Z) :
  (forall t, local (otherwise t)) ->
  (forall t, local (rt t)) -> (forall t, forward (rt t)) ->
  local (read_tag_with otherwise rt t).
Proof.
  intros Lo Lrt Frt. unfold read_tag_with.
  apply local_if; [apply local_ret|].
  apply local_if;
    [apply local_then_ret;
       [apply (local_read_fixed 1) | apply forward_read_byte]|].
  apply local_if;
    [apply local_then_ret;
       [apply (local_read_fixed 2) | apply forward_read_short]|].
  apply local_if;
    [apply local_then_ret;
       [apply (local_read_fixed 4) | apply forward_read_int]|].
  apply local_if;
    [apply local_then_ret;
       [apply (local_read_fixed 8) | apply forward_read_long]|].
  apply local_if;
    [apply local_then_ret;
       [apply (local_read_fixed 4) | apply forward_read_float]|].
  apply local_if;
    [apply local_then_ret;
       [apply (local_read_fixed 8) | apply forward_read_double]|].
  apply local_if; [apply (local_array 1)|].
  apply local_if;
    [apply local_then_ret;
       [apply local_read_string | apply forward_read_string]|].
  apply local_if; [apply local_read_list_with; assumption|].
  apply local_if; [apply local_read_compound_with; assumption|].
  apply local_if; [apply (local_array 4)|].
  apply local_if; [apply (local_array 8)|].
  apply Lo.
Qed.

Section Frame.

Variable otherwise : Z -> M value.
Hypothesis otherwise_local : forall t, local (otherwise t).
Hypothesis otherwise_forward : forall t, forward (otherwise t).

Lemma local_read_tag (depth : nat) (t : Z) :
  local (read_tag otherwise depth t).
Proof.
  revert t. induction depth as [|depth IH]; intros t; simpl.
  - apply local_raise.
  - apply local_read_tag_with; [exact otherwise_local | exact IH |].
    intros t'. apply forward_read_tag. exact otherwise_forward.
Qed.

Lemma local_read_root (depth : nat) : local (read_root otherwise depth).
Proof.
  assert (Ft : forall t, forward (read_tag otherwise depth t))
    by (intros t; apply forward_read_tag; exact otherwise_forward).
  unfold read_root.
  apply local_bind;
    [apply (local_read_fixed 1) | apply forward_read_ubyte | |].
  - intros t. apply local_if; [apply local_ret|].
    apply local_bind;
      [apply local_read_string | apply forward_read_string | |].
    + intros name. apply local_then_ret; [apply local_read_tag | apply Ft].
    + intros name. apply forward_then_ret. apply Ft.
  - intros t. destruct (t =? TAG_End); [apply forward_ret|].
    apply forward_bind; [apply forward_read_string|].
    intros name. apply forward_then_ret. apply Ft.
Qed.

Lemma read_root_depends_on_consumed (depth : nat) (data data2 : bytes)
      (v : value) (k : nat) :
  read_root otherwise depth (BytesIO.open data)
    = Ok (v, BytesIO.mk data k) ->
  (k < length data)%nat ->
  firstn k data2 = firstn k data -> (k <= length data2)%nat ->
  read_root otherwise depth (BytesIO.open data2)
    = Ok (v, BytesIO.mk data2 k).
Proof.
  intros H Hk Hp Hl.
  exact (local_read_root depth (BytesIO.open data) v k H Hk
           (BytesIO.open data2) Hp Hl).
Qed.

End Frame.

Lemma complete_otherwise_local (t : Z) : local (CompleteMccReader.otherwise t).
Proof. apply local_raise. Qed.

Lemma snowball_otherwise_local (t : Z) : local (SnowballTimeline.otherwise t).
Proof. apply local_ret. Qed.

(** X5.  A decode looks at no byte beyond those it consumes.  If [read_root]
    returns with the cursor at [k], before the end of the buffer, then on
    every buffer that starts with the same [k] bytes it returns the same
    value with the cursor at [k]: what follows the root tag is never read,
    and cutting the buffer right behind it changes nothing.  (The cursor
    must stop short of the end: a String cut off by the end of the buffer
    would go on reading in a longer buffer.) *)
Theorem decode_depends_on_consumed (depth : nat) (data data2 : bytes)
  (v : value) (k : nat)
  (Hk : (k < length data)%nat)
  (Hp : firstn k data2 = firstn k data) (Hl : (k <= length data2)%nat) :
  (CompleteMccReader.read_root depth (BytesIO.open data)
     = Ok (v, BytesIO.mk data k) ->
   CompleteMccReader.read_root depth (BytesIO.open data2)
     = Ok (v, BytesIO.mk data2 k) /\
   CompleteMccReader.decode depth data2 = Ok v) /\
  (SnowballTimeline.read_root depth (BytesIO.open data)
     = Ok (v, BytesIO.mk data k) ->
   SnowballTimeline.read_root depth (BytesIO.open data2)
     = Ok (v, BytesIO.mk data2 k) /\
   SnowballTimeline.decode depth data2 = Ok v).
Proof.
  split; intros R.
  - assert (Q : CompleteMccReader.read_root depth (BytesIO.open data2)
                = Ok (v, BytesIO.mk data2 k)).
    { exact (read_root_depends_on_consumed _ complete_otherwise_local
               complete_otherwise_forward depth data data2 v k R Hk Hp Hl). }
    split; [exact Q|].
    unfold CompleteMccReader.decode, decode.
    unfold CompleteMccReader.read_root in Q. rewrite Q. reflexivity.
  - assert (Q : SnowballTimeline.read_root depth (BytesIO.open data2)
                = Ok (v, BytesIO.mk data2 k)).
    { exact (read_root_depends_on_consumed _ snowball_otherwise_local
               snowball_otherwise_forward depth data data2 v k R Hk Hp Hl). }
    split; [exact Q|].
    unfold SnowballTimeline.decode, decode.
    unfold SnowballTimeline.read_root in Q. rewrite Q. reflexivity.
Qed.

Lemma decode_depends_on_consumed_witness :
  CompleteMccReader.read_root 1 (BytesIO.open [x03; x00; x00; x00; x00; x00; x2a])
  = Ok (VDict [([], VInt 42)], BytesIO.mk [x03; x00; x00; x00; x00; x00; x2a] 7)
  /\ CompleteMccReader.decode 1 [x03; x00; x00; x00; x00; x00; x2a]
     = Ok (VDict [([], VInt 42)]).
Proof.
  apply (proj1 (decode_depends_on_consumed 1
                  [x03; x00; x00; x00; x00; x00; x2a; xff; xff]
                  [x03; x00; x00; x00; x00; x00; x2a]
                  (VDict [([], VInt 42)]) 7
                  ltac:(simpl; lia) eq_refl ltac:(simpl; lia))).
  reflexivity.
Defined.

(** ** Buffers cut short *)

Lemma truncated_left (n : nat) (s s2 : BytesIO.t) :
  truncated n s s2 -> left s2 = Nat.min n (left s).
Proof. unfold truncated, left. intros ->. apply length_firstn. Qed.

Lemma truncated_advance (n k : nat) (s s2 : BytesIO.t) :
  truncated n s s2 -> truncated (n - k) (advance k s) (advance k s2).
Proof.
  unfold truncated. intros H. rewrite !remaining_advance, H.
  apply skipn_firstn_comm.
Qed.

Lemma truncated_end (n : nat) (s s2 : BytesIO.t) :
  truncated n s s2 -> left (advance n s2) = 0%nat.
Proof.
  intros T. rewrite left_advance, (truncated_left _ _ _ T). lia.
Qed.

Lemma advance_same (k : nat) (s : BytesIO.t) : s = advance k s -> k = 0%nat.
Proof.
  intros H. rewrite <- (advance_0 s) in H at 1.
  apply advance_inj in H. auto.
Qed.

Lemma ok_inv {A} (a b : A) (s1 s2 : BytesIO.t) :
  @Ok (A * BytesIO.t) (a, s1) = Ok (b, s2) -> a = b /\ s1 = s2.
Proof. intros H. inversion H. auto. Qed.

(** A run is repeated on a buffer cut off behind it. *)
Lemma repeats_of {A} (m : M A) :
  forward m -> local m -> positional m -> repeats m.
Proof.
  intros Fm Lm Pm s a k H n s2 Hk T.
  destruct (Fm _ _ _ H) as [k' [Lk E]].
  apply advance_inj in E. subst k'.
  destruct (Nat.eq_dec k (left s)) as [Ek | Nk].
  - assert (R : BytesIO.remaining s2 = BytesIO.remaining s).
    { unfold truncated in T. rewrite T. apply firstn_all2.
      fold (left s). lia. }
    specialize (Pm s s2 R). rewrite H in Pm. destruct Pm as [k' [E ->]].
    apply advance_inj in E. subst. reflexivity.
  - apply (Lm s a k H); [lia | |].
    + unfold truncated in T. rewrite T, firstn_firstn, Nat.min_l by lia.
      reflexivity.
    + rewrite (truncated_left _ _ _ T). lia.
Qed.

Lemma repeats_fixed {A} (size : nat) (f : bytes -> A) :
  repeats (bs <- stream_read (Z.of_nat size) ;; Struct.unpack size f bs).
Proof.
  apply repeats_of.
  - apply forward_bind; [apply forward_stream_read|].
    intros bs. apply forward_unpack.
  - apply local_read_fixed.
  - apply positional_read_fixed.
Qed.

Lemma repeats_read_string : repeats read_string.
Proof.
  apply repeats_of;
    [apply forward_read_string | apply local_read_string
     | apply positional_read_string].
Qed.

(** *** Fixed-width reads and strings *)

Lemma cut_fails_ends {A} (m : M A) : cut_fails m -> cut_ends m.
Proof. intros H s a k E n s2 Hn T. left. exact (H s a k E n s2 Hn T). Qed.

Lemma cut_fails_ret {A} (a : A) : cut_fails (ret a).
Proof.
  intros s a' k H n s2 Hn T. apply ok_inv in H as [_ Hs].
  apply advance_same in Hs. lia.
Qed.

Lemma cut_fails_fixed {A} (size : nat) (f : bytes -> A) :
  cut_fails (bs <- stream_read (Z.of_nat size) ;; Struct.unpack size f bs).
Proof.
  intros s a k H n s2 Hn T.
  apply read_fixed_ok in H. destruct H as [_ E].
  apply advance_inj in E. subst k.
  apply read_fixed_short. rewrite (truncated_left _ _ _ T). lia.
Qed.

(** A string cut inside its length fails; cut inside its text it is read
    as far as the text goes. *)
Lemma cut_ends_read_string : cut_ends read_string.
Proof.
  intros s text k H n s2 Hn T.
  rewrite read_string_eq in H.
  destruct (2 <=? left s)%nat eqn:E; [|discriminate H].
  apply Nat.leb_le in E. cbv zeta in H. apply ok_inv in H as [_ Hs].
  apply advance_inj in Hs.
  rewrite length_firstn, length_skipn in Hs. fold (left s) in Hs.
  rewrite read_string_eq, (truncated_left _ _ _ T).
  destruct (2 <=? Nat.min n (left s))%nat eqn:E2; [|left; reflexivity].
  right. apply Nat.leb_le in E2. cbv zeta. eexists. do 2 f_equal.
  unfold truncated in T. rewrite T.
  rewrite firstn_firstn, (Nat.min_l 2 n) by lia.
  rewrite skipn_firstn_comm, firstn_firstn.
  unfold advance. f_equal.
  rewrite length_firstn, length_skipn. fold (left s). lia.
Qed.

Lemma at_end_ret {A} (a : A) : at_end (ret a).
Proof. intros s _. right. exists a. reflexivity. Qed.

Lemma at_end_fixed {A} (size : nat) (f : bytes -> A) (s : BytesIO.t) :
  left s = 0%nat ->
  (bs <- stream_read (Z.of_nat (S size)) ;; Struct.unpack (S size) f bs) s
  = Raise StructError.
Proof. intros H. apply read_fixed_short. lia. Qed.

Lemma at_end_read_string (s : BytesIO.t) :
  left s = 0%nat -> read_string s = Raise StructError.
Proof.
  intros H. rewrite read_string_eq, H. reflexivity.
Qed.

(** *** Sequences *)

(** The two parts of a run of [bind m f]. *)
Lemma bind_run {A B} (m : M A) (f : A -> M B) (s : BytesIO.t) (b : B)
      (k : nat) :
  forward m -> (forall a, forward (f a)) ->
  bind m f s = Ok (b, advance k s) ->
  exists a k1 k2,
    m s = Ok (a, advance k1 s) /\
    f a (advance k1 s) = Ok (b, advance k2 (advance k1 s)) /\
    k = (k1 + k2)%nat.
Proof.
  intros Fm Ff H. apply bind_inv in H. destruct H as [a [s1 [E1 E2]]].
  destruct (Fm _ _ _ E1) as [k1 [_ ->]].
  destruct (Ff a _ _ _ E2) as [k2 [_ E]].
  exists a, k1, k2. split; [exact E1|]. split; [rewrite <- E; exact E2|].
  rewrite advance_advance in E. apply advance_inj in E. exact E.
Qed.

(** After a first part that fails when cut. *)
Lemma cut_ends_bind {A B} (m : M A) (f : A -> M B) :
  cut_fails m -> repeats m -> forward m ->
  (forall a, cut_ends (f a)) -> (forall a, forward (f a)) ->
  cut_ends (bind m f).
Proof.
  intros Cm Rm Fm Cf Ff s b k H n s2 Hn T.
  destruct (bind_run m f s b k Fm Ff H) as [a [k1 [k2 [E1 [E2 ->]]]]].
  destruct (Nat.lt_ge_cases n k1) as [Hlt | Hge].
  - left. apply bind_raise. exact (Cm _ _ _ E1 n s2 Hlt T).
  - rewrite (bind_ok _ _ _ _ _ (Rm _ _ _ E1 n s2 Hge T)).
    destruct (Cf a _ _ _ E2 (n - k1)%nat (advance k1 s2) ltac:(lia)
                 (truncated_advance n k1 s s2 T)) as [R | [b' R]].
    + left. exact R.
    + right. exists b'. rewrite R, advance_advance.
      replace (k1 + (n - k1))%nat with n by lia. reflexivity.
Qed.

Lemma cut_fails_bind {A B} (m : M A) (f : A -> M B) :
  cut_fails m -> repeats m -> forward m ->
  (forall a, cut_fails (f a)) -> (forall a, forward (f a)) ->
  cut_fails (bind m f).
Proof.
  intros Cm Rm Fm Cf Ff s b k H n s2 Hn T.
  destruct (bind_run m f s b k Fm Ff H) as [a [k1 [k2 [E1 [E2 ->]]]]].
  destruct (Nat.lt_ge_cases n k1) as [Hlt | Hge].
  - apply bind_raise. exact (Cm _ _ _ E1 n s2 Hlt T).
  - rewrite (bind_ok _ _ _ _ _ (Rm _ _ _ E1 n s2 Hge T)).
    exact (Cf a _ _ _ E2 (n - k1)%nat (advance k1 s2) ltac:(lia)
              (truncated_advance n k1 s s2 T)).
Qed.

Lemma then_ret_run {A B} (m : M A) (g : A -> B) (s : BytesIO.t) (b : B)
      (k : nat) :
  (x <- m ;; ret (g x)) s = Ok (b, advance k s) ->
  exists a, m s = Ok (a, advance k s) /\ b = g a.
Proof.
  intros H. apply bind_inv in H. destruct H as [a [s1 [E1 E2]]].
  apply ok_inv in E2 as [<- ->]. exists a. auto.
Qed.

Lemma cut_fails_then_ret {A B} (m : M A) (g : A -> B) :
  cut_fails m -> cut_fails (x <- m ;; ret (g x)).
Proof.
  intros Cm s b k H n s2 Hn T.
  destruct (then_ret_run m g s b k H) as [a [E _]].
  apply bind_raise. exact (Cm _ _ _ E n s2 Hn T).
Qed.

Lemma cut_ends_then_ret {A B} (m : M A) (g : A -> B) :
  cut_ends m -> cut_ends (x <- m ;; ret (g x)).
Proof.
  intros Cm s b k H n s2 Hn T.
  destruct (then_ret_run m g s b k H) as [a [E _]].
  destruct (Cm _ _ _ E n s2 Hn T) as [R | [a' R]].
  - left. apply bind_raise. exact R.
  - right. exists (g a'). rewrite (bind_ok _ _ _ _ _ R). reflexivity.
Qed.

Lemma repeats_then_ret {A B} (m : M A) (g : A -> B) :
  repeats m -> repeats (x <- m ;; ret (g x)).
Proof.
  intros Rm s b k H n s2 Hn T.
  destruct (then_ret_run m g s b k H) as [a [E ->]].
  rewrite (bind_ok _ _ _ _ _ (Rm _ _ _ E n s2 Hn T)). reflexivity.
Qed.

(** *** Lists and arrays *)

Lemma comprehension_at_end {A} (m : M A) :
  at_end m -> forall count, at_end (comprehension count m).
Proof.
  intros Em. induction count as [|count IH]; intros s Hs; simpl.
  - right. exists []. reflexivity.
  - destruct (Em s Hs) as [R | [x R]].
    + left. apply bind_raise. exact R.
    + rewrite (bind_ok _ _ _ _ _ R).
      destruct (IH s Hs) as [R2 | [xs R2]].
      * left. apply bind_raise. exact R2.
      * right. exists (x :: xs). rewrite (bind_ok _ _ _ _ _ R2).
        reflexivity.
Qed.

Lemma comprehension_run {A} (m : M A) (count : nat) (s : BytesIO.t)
      (l : list A) (k : nat) :
  forward m ->
  comprehension (S count) m s = Ok (l, advance k s) ->
  exists x xs k1 k2,
    m s = Ok (x, advance k1 s) /\
    comprehension count m (advance k1 s)
    = Ok (xs, advance k2 (advance k1 s)) /\
    k = (k1 + k2)%nat /\ l = x :: xs.
Proof.
  intros Fm H. simpl in H.
  apply bind_inv in H. destruct H as [x [s1 [E1 H]]].
  apply bind_inv in H. destruct H as [xs [s3 [E2 H]]].
  apply ok_inv in H as [<- ->].
  destruct (Fm _ _ _ E1) as [k1 [_ ->]].
  destruct (forward_comprehension count m Fm _ _ _ E2) as [k2 [_ E]].
  exists x, xs, k1, k2. split; [exact E1|].
  split; [rewrite <- E; exact E2|]. split; [|reflexivity].
  rewrite advance_advance in E. apply advance_inj in E. exact E.
Qed.

Lemma cut_ends_comprehension {A} (m : M A) :
  cut_ends m -> repeats m -> forward m ->
  ((exists s0 r0, m s0 = Ok r0) -> at_end m) ->
  forall count, cut_ends (comprehension count m).
Proof.
  intros Cm Rm Fm Em.
  induction count as [|count IH]; intros s l k H n s2 Hn T.
  - apply ok_inv in H as [_ Hs]. apply advance_same in Hs. lia.
  - destruct (comprehension_run m count s l k Fm H)
      as [x [xs [k1 [k2 [E1 [E2 [-> ->]]]]]]].
    cbn [comprehension].
    destruct (Nat.lt_ge_cases n k1) as [Hlt | Hge].
    + destruct (Cm _ _ _ E1 n s2 Hlt T) as [R | [x' R]].
      * left. apply bind_raise. exact R.
      * rewrite (bind_ok _ _ _ _ _ R).
        destruct (comprehension_at_end m
                    (Em (ex_intro _ s (ex_intro _ _ E1))) count
                    (advance n s2) (truncated_end n s s2 T))
          as [R2 | [xs' R2]].
        -- left. apply bind_raise. exact R2.
        -- right. exists (x' :: xs'). rewrite (bind_ok _ _ _ _ _ R2).
           reflexivity.
    + rewrite (bind_ok _ _ _ _ _ (Rm _ _ _ E1 n s2 Hge T)).
      destruct (IH _ _ _ E2 (n - k1)%nat (advance k1 s2) ltac:(lia)
                  (truncated_advance n k1 s s2 T)) as [R | [xs' R]].
      * left. apply bind_raise. exact R.
      * right. exists (x :: xs'). rewrite (bind_ok _ _ _ _ _ R).
        unfold ret. rewrite advance_advance.
        replace (k1 + (n - k1))%nat with n by lia. reflexivity.
Qed.

Lemma cut_fails_comprehension {A} (m : M A) :
  cut_fails m -> repeats m -> forward m ->
  forall count, cut_fails (comprehension count m).
Proof.
  intros Cm Rm Fm.
  induction count as [|count IH]; intros s l k H n s2 Hn T.
  - apply ok_inv in H as [_ Hs]. apply advance_same in Hs. lia.
  - destruct (comprehension_run m count s l k Fm H)
      as [x [xs [k1 [k2 [E1 [E2 [-> ->]]]]]]].
    cbn [comprehension].
    destruct (Nat.lt_ge_cases n k1) as [Hlt | Hge].
    + apply bind_raise. exact (Cm _ _ _ E1 n s2 Hlt T).
    + rewrite (bind_ok _ _ _ _ _ (Rm _ _ _ E1 n s2 Hge T)).
      apply bind_raise.
      exact (IH _ _ _ E2 (n - k1)%nat (advance k1 s2) ltac:(lia)
               (truncated_advance n k1 s s2 T)).
Qed.

(** An array cut short fails: its count and its elements are of fixed
    width. *)
Lemma cut_fails_array {A} (size : nat) (f : bytes -> A) (g : A -> value) :
  cut_fails
    (length <- read_int ;;
     l <- comprehension (range length)
            (z <- (bs <- stream_read (Z.of_nat size) ;;
                   Struct.unpack size f bs) ;;
             ret (g z)) ;;
     ret (VList l)).
Proof.
  assert (Fe : forward (z <- (bs <- stream_read (Z.of_nat size) ;;
                              Struct.unpack size f bs) ;; ret (g z))).
  { apply forward_then_ret. apply forward_bind; [apply forward_stream_read|].
    intros bs. apply forward_unpack. }
  apply cut_fails_bind.
  - apply (cut_fails_fixed 4).
  - apply (repeats_fixed 4).
  - apply forward_read_int.
  - intros n. apply cut_fails_then_ret. apply cut_fails_comprehension.
    + apply cut_fails_then_ret. apply cut_fails_fixed.
    + apply repeats_then_ret. apply repeats_fixed.
    + exact Fe.
  - intros n. apply forward_then_ret. apply forward_comprehension. exact Fe.
Qed.

(** *** Compounds *)

Lemma compound_loop_at_end (rt : Z -> M value) (turns : nat) (acc : dict)
      (s : BytesIO.t) :
  left s = 0%nat -> compound_loop rt turns acc s = Raise StructError.
Proof.
  intros Hs. destruct turns as [|turns]; [reflexivity|].
  cbn [compound_loop]. apply bind_raise. exact (at_end_fixed 0 _ s Hs).
Qed.

(** A compound cut short always fails: whatever is cut, the loop comes to
    read a type byte that is not there. *)
Lemma cut_fails_compound_loop (rt : Z -> M value) :
  (forall t, cut_ends (rt t)) -> (forall t, repeats (rt t)) ->
  (forall t, forward (rt t)) ->
  (forall t, (exists s0 r0, rt t s0 = Ok r0) -> at_end (rt t)) ->
  forall (turns : nat) (acc : dict) (s : BytesIO.t) (v : value) (k : nat),
  compound_loop rt turns acc s = Ok (v, advance k s) ->
  forall (n : nat) (s2 : BytesIO.t) (turns2 : nat),
  (n < k)%nat -> truncated n s s2 ->
  compound_loop rt turns2 acc s2 = Raise StructError.
Proof.
  intros Crt Rrt Frt Ert.
  induction turns as [|turns IH]; intros acc s v k H n s2 turns2 Hn T;
    [discriminate H|].
  destruct turns2 as [|turns2]; [reflexivity|].
  cbn [compound_loop] in H. cbn [compound_loop].
  apply bind_inv in H. destruct H as [t [s1 [E1 H]]].
  destruct (read_ubyte_ok _ _ _ E1) as [_ ->].
  destruct (Nat.eq_dec n 0) as [-> | Hn0].
  { apply bind_raise.
    exact (cut_fails_fixed 1 Struct.unsigned s t 1%nat E1 0%nat s2
             ltac:(lia) T). }
  rewrite (bind_ok _ _ _ _ _
             (repeats_fixed 1 Struct.unsigned s t 1%nat E1 n s2 ltac:(lia) T)).
  destruct (t =? TAG_End) eqn:Et.
  { apply ok_inv in H as [_ Hs]. apply advance_inj in Hs. lia. }
  apply bind_inv in H. destruct H as [name [s3 [E2 H]]].
  destruct (forward_read_string _ _ _ E2) as [k2 [_ ->]].
  apply bind_inv in H. destruct H as [x [s4 [E3 H]]].
  destruct (Frt _ _ _ _ E3) as [k3 [_ ->]].
  destruct (forward_compound_loop rt turns _ Frt _ _ _ H) as [k4 [_ E]].
  rewrite E in H.
  rewrite !advance_advance in E. apply advance_inj in E. subst k.
  pose proof (truncated_advance n 1 s s2 T) as T1.
  destruct (Nat.lt_ge_cases (n - 1) k2) as [Hlt | Hge].
  { (* the name is cut *)
    destruct (cut_ends_read_string _ _ _ E2 (n - 1)%nat (advance 1 s2)
                Hlt T1) as [R | [name' R]].
    - apply bind_raise. exact R.
    - rewrite (bind_ok _ _ _ _ _ R).
      pose proof (truncated_end _ _ _ T1) as Hend.
      destruct (Ert t (ex_intro _ _ (ex_intro _ _ E3)) _ Hend)
        as [R3 | [x' R3]].
      + apply bind_raise. exact R3.
      + rewrite (bind_ok _ _ _ _ _ R3).
        apply compound_loop_at_end. exact Hend. }
  rewrite (bind_ok _ _ _ _ _
             (repeats_read_string _ _ _ E2 (n - 1)%nat (advance 1 s2)
                Hge T1)).
  pose proof (truncated_advance (n - 1) k2 _ _ T1) as T2.
  destruct (Nat.lt_ge_cases (n - 1 - k2) k3) as [Hlt3 | Hge3].
  { (* the value is cut *)
    destruct (Crt t _ _ _ E3 (n - 1 - k2)%nat _ Hlt3 T2) as [R | [x' R]].
    - apply bind_raise. exact R.
    - rewrite (bind_ok _ _ _ _ _ R).
      apply compound_loop_at_end. exact (truncated_end _ _ _ T2). }
  rewrite (bind_ok _ _ _ _ _
             (Rrt t _ _ _ E3 (n - 1 - k2)%nat _ Hge3 T2)).
  apply (IH _ _ _ _ H (n - 1 - k2 - k3)%nat); [lia|].
  apply truncated_advance. exact T2.
Qed.

Lemma cut_fails_read_compound_with (rt : Z -> M value) :
  (forall t, cut_ends (rt t)) -> (forall t, repeats (rt t)) ->
  (forall t, forward (rt t)) ->
  (forall t, (exists s0 r0, rt t s0 = Ok r0) -> at_end (rt t)) ->
  cut_fails (read_compound_with rt).
Proof.
  intros Crt Rrt Frt Ert s v k H n s2 Hn T. unfold read_compound_with in *.
  exact (cut_fails_compound_loop rt Crt Rrt Frt Ert _ _ _ _ _ H n s2 _
           Hn T).
Qed.

Lemma cut_ends_read_list_with (rt : Z -> M value) :
  (forall t, cut_ends (rt t)) -> (forall t, repeats (rt t)) ->
  (forall t, forward (rt t)) ->
  (forall t, (exists s0 r0, rt t s0 = Ok r0) -> at_end (rt t)) ->
  cut_ends (read_list_with rt).
Proof.
  intros Crt Rrt Frt Ert. unfold read_list_with.
  apply cut_ends_bind;
    [apply (cut_fails_fixed 1) | apply (repeats_fixed 1)
     | apply forward_read_ubyte | |].
  - intros t. apply cut_ends_bind;
      [apply (cut_fails_fixed 4) | apply (repeats_fixed 4)
       | apply forward_read_int | |].
    + intros n. apply cut_ends_then_ret.
      apply cut_ends_comprehension; [apply Crt | apply Rrt | apply Frt |].
      apply Ert.
    + intros n. apply forward_then_ret. apply forward_comprehension.
      apply Frt.
  - intros t. apply forward_bind; [apply forward_read_int|].
    intros n. apply forward_then_ret. apply forward_comprehension.
    apply Frt.
Qed.

(** *** [read_tag] *)

Lemma cut_ends_read_tag_with (otherwise rt : Z -> M value) (t : Z) :
  (forall t s v s', otherwise t s = Ok (v, s') -> s' = s) ->
  (forall t, cut_ends (rt t)) -> (forall t, repeats (rt t)) ->
  (forall t, forward (rt t)) ->
  (forall t, (exists s0 r0, rt t s0 = Ok r0) -> at_end (rt t)) ->
  cut_ends (read_tag_with otherwise rt t).
Proof.
  intros So Crt Rrt Frt Ert. unfold read_tag_with.
  destruct (t =? TAG_End); [apply cut_fails_ends; apply cut_fails_ret|].
  destruct (t =? TAG_Byte);
    [apply cut_fails_ends, cut_fails_then_ret, (cut_fails_fixed 1)|].
  destruct (t =? TAG_Short);
    [apply cut_fails_ends, cut_fails_then_ret, (cut_fails_fixed 2)|].
  destruct (t =? TAG_Int);
    [apply cut_fails_ends, cut_fails_then_ret, (cut_fails_fixed 4)|].
  destruct (t =? TAG_Long);
    [apply cut_fails_ends, cut_fails_then_ret, (cut_fails_fixed 8)|].
  destruct (t =? TAG_Float);
    [apply cut_fails_ends, cut_fails_then_ret, (cut_fails_fixed 4)|].
  destruct (t =? TAG_Double);
    [apply cut_fails_ends, cut_fails_then_ret, (cut_fails_fixed 8)|].
  destruct (t =? TAG_Byte_Array);
    [apply cut_fails_ends, (cut_fails_array 1)|].
  destruct (t =? TAG_String);
    [apply cut_ends_then_ret, cut_ends_read_string|].
  destruct (t =? TAG_List);
    [apply cut_ends_read_list_with; assumption|].
  destruct (t =? TAG_Compound);
    [apply cut_fails_ends, cut_fails_read_compound_with; assumption|].
  destruct (t =? TAG_Int_Array);
    [apply cut_fails_ends, (cut_fails_array 4)|].
  destruct (t =? TAG_Long_Array);
    [apply cut_fails_ends, (cut_fails_array 8)|].
  intros s v k H n s2 Hn T.
  apply So in H. symmetry in H. apply advance_same in H. lia.
Qed.

Lemma at_end_read_tag_with (otherwise rt : Z -> M value) (t : Z) :
  (forall t, (exists s0 r0, otherwise t s0 = Ok r0) ->
             at_end (otherwise t)) ->
  (exists s0 r0, read_tag_with otherwise rt t s0 = Ok r0) ->
  at_end (read_tag_with otherwise rt t).
Proof.
  intros Eo. unfold read_tag_with.
  destruct (t =? TAG_End); [intros _; apply at_end_ret|].
  do 6 (match goal with
        | |- _ -> at_end (if ?c then _ else _) =>
            destruct c;
            [intros _ s Hs; left; apply bind_raise;
             exact (at_end_fixed _ _ s Hs)|]
        end).
  destruct (t =? TAG_Byte_Array);
    [intros _ s Hs; left; apply bind_raise; exact (at_end_fixed 3 _ s Hs)|].
  destruct (t =? TAG_String);
    [intros _ s Hs; left; apply bind_raise; exact (at_end_read_string s Hs)|].
  destruct (t =? TAG_List);
    [intros _ s Hs; left; apply bind_raise; exact (at_end_fixed 0 _ s Hs)|].
  destruct (t =? TAG_Compound);
    [intros _ s Hs; left; apply compound_loop_at_end; exact Hs|].
  destruct (t =? TAG_Int_Array);
    [intros _ s Hs; left; apply bind_raise; exact (at_end_fixed 3 _ s Hs)|].
  destruct (t =? TAG_Long_Array);
    [intros _ s Hs; left; apply bind_raise; exact (at_end_fixed 3 _ s Hs)|].
  apply Eo.
Qed.

(** A tag of a strict type cut short fails. *)
Lemma cut_fails_read_tag_with (otherwise rt : Z -> M value) (t : Z) :
  strict_tag t ->
  (forall t, cut_ends (rt t)) -> (forall t, repeats (rt t)) ->
  (forall t, forward (rt t)) ->
  (forall t, (exists s0 r0, rt t s0 = Ok r0) -> at_end (rt t)) ->
  cut_fails (read_tag_with otherwise rt t).
Proof.
  intros St Crt Rrt Frt Ert. unfold read_tag_with, strict_tag in *.
  destruct (t =? TAG_End) eqn:E0; [unfold TAG_End in E0; lia|].
  destruct (t =? TAG_Byte) eqn:E1;
    [apply cut_fails_then_ret, (cut_fails_fixed 1)|].
  destruct (t =? TAG_Short) eqn:E2;
    [apply cut_fails_then_ret, (cut_fails_fixed 2)|].
  destruct (t =? TAG_Int) eqn:E3;
    [apply cut_fails_then_ret, (cut_fails_fixed 4)|].
  destruct (t =? TAG_Long) eqn:E4;
    [apply cut_fails_then_ret, (cut_fails_fixed 8)|].
  destruct (t =? TAG_Float) eqn:E5;
    [apply cut_fails_then_ret, (cut_fails_fixed 4)|].
  destruct (t =? TAG_Double) eqn:E6;
    [apply cut_fails_then_ret, (cut_fails_fixed 8)|].
  destruct (t =? TAG_Byte_Array) eqn:E7; [apply (cut_fails_array 1)|].
  destruct (t =? TAG_String) eqn:E8; [unfold TAG_String in E8; lia|].
  destruct (t =? TAG_List) eqn:E9; [unfold TAG_List in E9; lia|].
  destruct (t =? TAG_Compound) eqn:E10;
    [apply cut_fails_read_compound_with; assumption|].
  destruct (t =? TAG_Int_Array) eqn:E11; [apply (cut_fails_array 4)|].
  destruct (t =? TAG_Long_Array) eqn:E12; [apply (cut_fails_array 8)|].
  unfold TAG_Byte, TAG_Short, TAG_Int, TAG_Long, TAG_Float, TAG_Double,
    TAG_Byte_Array, TAG_Compound, TAG_Int_Array, TAG_Long_Array in *.
  lia.
Qed.

(** At the end of the buffer it fails. *)
Lemma read_tag_with_strict_at_end (otherwise rt : Z -> M value) (t : Z)
      (s : BytesIO.t) :
  strict_tag t -> left s = 0%nat ->
  read_tag_with otherwise rt t s = Raise StructError.
Proof.
  intros St Hs. unfold read_tag_with, strict_tag in *.
  destruct (t =? TAG_End) eqn:E0; [unfold TAG_End in E0; lia|].
  do 6 (match goal with
        | |- (if ?c then _ else _) _ = _ =>
            let E := fresh "E" in
            destruct c eqn:E;
            [apply bind_raise; exact (at_end_fixed _ _ s Hs)|]
        end).
  destruct (t =? TAG_Byte_Array) eqn:E7;
    [apply bind_raise; exact (at_end_fixed 3 _ s Hs)|].
  destruct (t =? TAG_String) eqn:E8; [unfold TAG_String in E8; lia|].
  destruct (t =? TAG_List) eqn:E9; [unfold TAG_List in E9; lia|].
  destruct (t =? TAG_Compound) eqn:E10;
    [apply compound_loop_at_end; exact Hs|].
  destruct (t =? TAG_Int_Array) eqn:E11;
    [apply bind_raise; exact (at_end_fixed 3 _ s Hs)|].
  destruct (t =? TAG_Long_Array) eqn:E12;
    [apply bind_raise; exact (at_end_fixed 3 _ s Hs)|].
  unfold TAG_Byte, TAG_Short, TAG_Int, TAG_Long, TAG_Float, TAG_Double,
    TAG_Byte_Array, TAG_Compound, TAG_Int_Array, TAG_Long_Array in *.
  lia.
Qed.

Section Truncation.

Variable otherwise : Z -> M value.
Hypothesis otherwise_forward : forall t, forward (otherwise t).
Hypothesis otherwise_local : forall t, local (otherwise t).
Hypothesis otherwise_positional : forall t, positional (otherwise t).
Hypothesis otherwise_stays :
  forall t s v s', otherwise t s = Ok (v, s') -> s' = s.
Hypothesis otherwise_at_end :
  forall t, (exists s0 r0, otherwise t s0 = Ok r0) -> at_end (otherwise t).

Lemma repeats_read_tag (depth : nat) (t : Z) :
  repeats (read_tag otherwise depth t).
Proof.
  apply repeats_of.
  - apply forward_read_tag. exact otherwise_forward.
  - apply local_read_tag; assumption.
  - apply positional_read_tag. exact otherwise_positional.
Qed.

Lemma at_end_read_tag (depth : nat) (t : Z) :
  (exists s0 r0, read_tag otherwise depth t s0 = Ok r0) ->
  at_end (read_tag otherwise depth t).
Proof.
  destruct depth as [|depth].
  - intros [s0 [r0 H]]. discriminate H.
  - apply at_end_read_tag_with. exact otherwise_at_end.
Qed.

(** [read_tag] on a buffer cut off inside the tag fails with
    [struct.error], or returns with the buffer used up. *)
Lemma cut_ends_read_tag (depth : nat) :
  forall t, cut_ends (read_tag otherwise depth t).
Proof.
  induction depth as [|depth IH]; intros t.
  - intros s v k H. discriminate H.
  - cbn [read_tag]. apply cut_ends_read_tag_with.
    + exact otherwise_stays.
    + exact IH.
    + intros t'. apply repeats_read_tag.
    + intros t'. apply forward_read_tag. exact otherwise_forward.
    + intros t'. apply at_end_read_tag.
Qed.

(** On a tag of a strict type it fails. *)
Lemma cut_fails_read_tag (depth : nat) (t : Z) :
  strict_tag t -> cut_fails (read_tag otherwise depth t).
Proof.
  intros St. destruct depth as [|depth].
  - intros s v k H. discriminate H.
  - cbn [read_tag]. apply cut_fails_read_tag_with.
    + exact St.
    + apply cut_ends_read_tag.
    + intros t'. apply repeats_read_tag.
    + intros t'. apply forward_read_tag. exact otherwise_forward.
    + intros t'. apply at_end_read_tag.
Qed.

(** The whole document: cut off inside what [read_root] consumed, it fails
    with [struct.error] or is read to the end of the buffer; it fails when
    its root is of a strict type. *)
Lemma cut_read_root (depth : nat) (s : BytesIO.t) (v : value) (k : nat) :
  read_root otherwise depth s = Ok (v, advance k s) ->
  forall (n : nat) (s2 : BytesIO.t),
  (n < k)%nat -> truncated n s s2 ->
  (read_root otherwise depth s2 = Raise StructError \/
   exists v', read_root otherwise depth s2 = Ok (v', advance n s2)) /\
  (forall t, read_ubyte s = Ok (t, advance 1 s) -> strict_tag t ->
   read_root otherwise depth s2 = Raise StructError).
Proof.
  intros H n s2 Hn T. unfold read_root in *.
  apply bind_inv in H. destruct H as [t [s1 [E1 H]]].
  destruct (read_ubyte_ok _ _ _ E1) as [_ ->].
  destruct (Nat.eq_dec n 0) as [-> | Hn0].
  { assert (R : read_ubyte s2 = Raise StructError)
      by exact (cut_fails_fixed 1 Struct.unsigned s t 1%nat E1 0%nat s2
                  ltac:(lia) T).
    rewrite (bind_raise _ _ _ _ R). auto. }
  rewrite (bind_ok _ _ _ _ _
             (repeats_fixed 1 Struct.unsigned s t 1%nat E1 n s2
                ltac:(lia) T)).
  destruct (t =? TAG_End) eqn:Et.
  { apply ok_inv in H as [_ Hs]. apply advance_inj in Hs. lia. }
  apply bind_inv in H. destruct H as [name [s3 [E2 H]]].
  destruct (forward_read_string _ _ _ E2) as [k2 [_ ->]].
  apply bind_inv in H. destruct H as [data [s4 [E3 H]]].
  apply ok_inv in H as [_ ->].
  destruct (forward_read_tag otherwise depth t otherwise_forward _ _ _ E3)
    as [k3 [_ E]].
  rewrite E in E3.
  rewrite !advance_advance in E. apply advance_inj in E. subst k.
  assert (Hc : forall t0, read_ubyte s = Ok (t0, advance 1 s) -> t0 = t).
  { intros t0 Q. rewrite E1 in Q. apply ok_inv in Q as [Q _].
    symmetry. exact Q. }
  pose proof (truncated_advance n 1 s s2 T) as T1.
  destruct (Nat.lt_ge_cases (n - 1) k2) as [Hlt | Hge].
  { (* the name is cut *)
    destruct (cut_ends_read_string _ _ _ E2 (n - 1)%nat (advance 1 s2)
                Hlt T1) as [R | [name' R]].
    - rewrite (bind_raise _ _ _ _ R). auto.
    - rewrite (bind_ok _ _ _ _ _ R).
      pose proof (truncated_end _ _ _ T1) as Hend.
      destruct (at_end_read_tag depth t (ex_intro _ _ (ex_intro _ _ E3))
                  _ Hend) as [R3 | [x' R3]].
      + rewrite (bind_raise _ _ _ _ R3). auto.
      + split.
        * right. exists (VDict [(name', x')]).
          rewrite (bind_ok _ _ _ _ _ R3). unfold ret. do 2 f_equal.
          rewrite advance_advance. f_equal. lia.
        * intros t0 Q St. apply Hc in Q. subst t0.
          destruct depth as [|depth]; [discriminate E3|].
          cbn [read_tag] in R3.
          rewrite (read_tag_with_strict_at_end _ _ t _ St Hend) in R3.
          discriminate R3. }
  rewrite (bind_ok _ _ _ _ _
             (repeats_read_string _ _ _ E2 (n - 1)%nat (advance 1 s2)
                Hge T1)).
  pose proof (truncated_advance (n - 1) k2 _ _ T1) as T2.
  assert (Hlt3 : (n - 1 - k2 < k3)%nat) by lia.
  split.
  - destruct (cut_ends_read_tag depth t _ _ _ E3 (n - 1 - k2)%nat _
                Hlt3 T2) as [R | [x' R]].
    + left. apply bind_raise. exact R.
    + right. exists (VDict [(name, x')]).
      rewrite (bind_ok _ _ _ _ _ R). unfold ret. do 2 f_equal.
      rewrite !advance_advance. f_equal. lia.
  - intros t0 Q St. apply Hc in Q. subst t0. apply bind_raise.
    exact (cut_fails_read_tag depth t St _ _ _ E3 (n - 1 - k2)%nat _
             Hlt3 T2).
Qed.

End Truncation.

Lemma complete_otherwise_stays_put (t : Z) (s : BytesIO.t) (v : value)
      (s' : BytesIO.t) :
  CompleteMccReader.otherwise t s = Ok (v, s') -> s' = s.
Proof. discriminate. Qed.

Lemma snowball_otherwise_stays_put (t : Z) (s : BytesIO.t) (v : value)
      (s' : BytesIO.t) :
  SnowballTimeline.otherwise t s = Ok (v, s') -> s' = s.
Proof. intros H. inversion H. reflexivity. Qed.

Lemma complete_otherwise_at_end (t : Z) :
  (exists s0 r0, CompleteMccReader.otherwise t s0 = Ok r0) ->
  at_end (CompleteMccReader.otherwise t).
Proof. intros [s0 [r0 H]]. discriminate H. Qed.

Lemma snowball_otherwise_at_end (t : Z) :
  (exists s0 r0, SnowballTimeline.otherwise t s0 = Ok r0) ->
  at_end (SnowballTimeline.otherwise t).
Proof. intros _. apply at_end_ret. Qed.

(** For a decode of [data] that consumed [k] bytes: the decode of the
    first [n < k] bytes. *)
Lemma cut_decode (otherwise : Z -> M value) (depth : nat) (data : bytes)
      (v : value) (k n : nat) :
  (forall t, forward (otherwise t)) -> (forall t, local (otherwise t)) ->
  (forall t, positional (otherwise t)) ->
  (forall t s v s', otherwise t s = Ok (v, s') -> s' = s) ->
  (forall t, (exists s0 r0, otherwise t s0 = Ok r0) ->
             at_end (otherwise t)) ->
  read_root otherwise depth (BytesIO.open data) = Ok (v, BytesIO.mk data k) ->
  (n < k)%nat ->
  (decode otherwise depth (firstn n data) = Raise StructError \/
   exists v',
     read_root otherwise depth (BytesIO.open (firstn n data))
     = Ok (v', BytesIO.mk (firstn n data) n)) /\
  (forall b, hd_error data = Some b -> strict_tag (u8 b) ->
   decode otherwise depth (firstn n data) = Raise StructError).
Proof.
  intros Fo Lo Po So Eo H Hn.
  assert (T : truncated n (BytesIO.open data) (BytesIO.open (firstn n data)))
    by reflexivity.
  destruct (cut_read_root otherwise Fo Lo Po So Eo depth (BytesIO.open data)
              v k H n _ Hn T) as [A B].
  unfold decode. split.
  - destruct A as [R | [v' R]].
    + left. rewrite R. reflexivity.
    + right. exists v'. exact R.
  - intros b Hd St. rewrite (B (u8 b)); [reflexivity | | exact St].
    destruct data as [|b' rest]; [discriminate Hd|].
    inversion Hd; subst.
    exact (read_ubyte_cons (BytesIO.open (b :: rest)) b rest eq_refl).
Qed.

(** C3, as stated, fails: a String that declares five bytes of text when two
    are left decodes to the two-character text. *)
Lemma truncated_string_counterexample :
  CompleteMccReader.decode 4 [x08; x00; x00; x00; x05; x61; x62]
  = Ok (VDict [([], VStr [97; 98])]) /\
  SnowballTimeline.decode 4 [x08; x00; x00; x00; x05; x61; x62]
  = Ok (VDict [([], VStr [97; 98])]).
Proof. repeat split. Qed.

(** C3, amended.  The readers have no error of their own for a buffer
    that ends too early.  A buffer that ends inside a fixed-width field (a
    number, a count, the length prefix of a string) makes the read fail with
    [struct.error], and the failure leaves the whole decode, which returns
    nothing.  A String whose declared length exceeds the bytes that remain
    does not fail: [stream.read] returns the bytes there are, and the string
    decodes to their text, leaving the buffer exhausted.  So for a tag, or a
    whole document, that is read from a buffer, the read from the same
    buffer cut off anywhere inside the bytes consumed either fails with
    [struct.error] or returns with the buffer used up to its end; and it
    fails whenever the tag, or the root of the document, is of a type other
    than String, List and the unknown ones (a number, an array, or a
    Compound, whose End byte is then missing). *)
Theorem truncated_string_decodes (depth : nat) (s : BytesIO.t)
  (h1 h2 : byte) (payload : bytes)
  (H : BytesIO.remaining s = h1 :: h2 :: payload)
  (L : Z.of_nat (length payload) < u8 h1 * 256 + u8 h2) :
  let s' := advance (2 + length payload) s in
  read_string s = Ok (Utf8.decode_replace payload, s') /\
  CompleteMccReader.read_tag (S depth) TAG_String s
    = Ok (VStr (Utf8.decode_replace payload), s') /\
  SnowballTimeline.read_tag (S depth) TAG_String s
    = Ok (VStr (Utf8.decode_replace payload), s') /\
  left s' = 0%nat /\
  (forall s0 : BytesIO.t,
     ((left s0 < 1)%nat ->
        read_byte s0 = Raise StructError /\
        read_ubyte s0 = Raise StructError) /\
     ((left s0 < 2)%nat ->
        read_short s0 = Raise StructError /\
        read_string s0 = Raise StructError) /\
     ((left s0 < 4)%nat ->
        read_int s0 = Raise StructError /\
        read_float s0 = Raise StructError) /\
     ((left s0 < 8)%nat ->
        read_long s0 = Raise StructError /\
        read_double s0 = Raise StructError)) /\
  (forall (d : nat) (tag_type : Z),
     cut_ends (CompleteMccReader.read_tag d tag_type) /\
     cut_ends (SnowballTimeline.read_tag d tag_type) /\
     (strict_tag tag_type ->
      cut_fails (CompleteMccReader.read_tag d tag_type) /\
      cut_fails (SnowballTimeline.read_tag d tag_type))) /\
  (forall (d : nat) (data : bytes) (v : value) (k n : nat),
     (n < k)%nat ->
     (CompleteMccReader.read_root d (BytesIO.open data)
      = Ok (v, BytesIO.mk data k) ->
      (CompleteMccReader.decode d (firstn n data) = Raise StructError \/
       exists v',
         CompleteMccReader.read_root d (BytesIO.open (firstn n data))
         = Ok (v', BytesIO.mk (firstn n data) n)) /\
      (forall b, hd_error data = Some b -> strict_tag (u8 b) ->
         CompleteMccReader.decode d (firstn n data) = Raise StructError)) /\
     (SnowballTimeline.read_root d (BytesIO.open data)
      = Ok (v, BytesIO.mk data k) ->
      (SnowballTimeline.decode d (firstn n data) = Raise StructError \/
       exists v',
         SnowballTimeline.read_root d (BytesIO.open (firstn n data))
         = Ok (v', BytesIO.mk (firstn n data) n)) /\
      (forall b, hd_error data = Some b -> strict_tag (u8 b) ->
         SnowballTimeline.decode d (firstn n data) = Raise StructError))).
Proof.
  intros s'.
  assert (R : read_string s = Ok (Utf8.decode_replace payload, s')).
  { apply (read_string_cut s h1 h2 payload H). lia. }
  split; [exact R|].
  split; [simpl; unfold read_tag_with; simpl;
          rewrite (bind_ok _ _ _ _ _ R); reflexivity|].
  split; [simpl; unfold read_tag_with; simpl;
          rewrite (bind_ok _ _ _ _ _ R); reflexivity|].
  split.
  { unfold s'. rewrite left_advance, (left_remaining _ _ H). simpl. lia. }
  split; [exact truncated_fixed_width|].
  split.
  - intros d t. split; [|split; [|intros St; split]].
    + apply cut_ends_read_tag;
        [exact complete_otherwise_forward | exact complete_otherwise_local
         | exact complete_otherwise_positional
         | exact complete_otherwise_stays_put
         | exact complete_otherwise_at_end].
    + apply cut_ends_read_tag;
        [exact snowball_otherwise_forward | exact snowball_otherwise_local
         | exact snowball_otherwise_positional
         | exact snowball_otherwise_stays_put
         | exact snowball_otherwise_at_end].
    + apply cut_fails_read_tag;
        [exact complete_otherwise_forward | exact complete_otherwise_local
         | exact complete_otherwise_positional
         | exact complete_otherwise_stays_put
         | exact complete_otherwise_at_end | exact St].
    + apply cut_fails_read_tag;
        [exact snowball_otherwise_forward | exact snowball_otherwise_local
         | exact snowball_otherwise_positional
         | exact snowball_otherwise_stays_put
         | exact snowball_otherwise_at_end | exact St].
  - intros d data v k n Hn. split; intros E.
    + exact (cut_decode _ d data v k n complete_otherwise_forward
               complete_otherwise_local complete_otherwise_positional
               complete_otherwise_stays_put complete_otherwise_at_end E Hn).
    + exact (cut_decode _ d data v k n snowball_otherwise_forward
               snowball_otherwise_local snowball_otherwise_positional
               snowball_otherwise_stays_put snowball_otherwise_at_end E Hn).
Qed.

(** The string [00 05 61 62], and the document [{'': {'a': 5}}] cut off
    inside the number. *)
Lemma truncated_string_decodes_witness :
  read_string (BytesIO.open [x00; x05; x61; x62])
  = Ok ([97; 98], advance 4 (BytesIO.open [x00; x05; x61; x62])) /\
  CompleteMccReader.read_tag 1 TAG_String (BytesIO.open [x00; x05; x61; x62])
  = Ok (VStr [97; 98], advance 4 (BytesIO.open [x00; x05; x61; x62])) /\
  left (advance 4 (BytesIO.open [x00; x05; x61; x62])) = 0%nat /\
  CompleteMccReader.decode 3
    (firstn 9 [x0a; x00; x00; x03; x00; x01; x61; x00; x00; x00; x05; x00])
  = Raise StructError.
Proof.
  destruct (truncated_string_decodes 0 (BytesIO.open [x00; x05; x61; x62])
              x00 x05 [x61; x62] eq_refl)
    as [A [B [_ [C [_ [_ D]]]]]].
  - vm_compute. reflexivity.
  - split; [exact A|]. split; [exact B|]. split; [exact C|].
    destruct (D 3%nat
                [x0a; x00; x00; x03; x00; x01; x61; x00; x00; x00; x05; x00]
                (VDict [([], VDict [([97], VInt 5)])]) 12%nat 9%nat
                ltac:(lia)) as [[_ F] _]; [reflexivity|].
    apply (F x0a); [reflexivity | right; change (u8 x0a) with 10; lia].
Defined.

(** * Snowball extraction *)

Lemma value_nested_ind (P : value -> Prop) :
  P VNone -> (forall z, P (VInt z)) -> (forall f, P (VFloat f)) ->
  (forall s, P (VStr s)) ->
  (forall l, Forall P l -> P (VList l)) ->
  (forall d, Forall (fun kv => P (snd kv)) d -> P (VDict d)) ->
  forall v, P v.
Proof.
  intros HN HI HF HS HL HD.
  exact (fix IH (v : value) : P v :=
           match v with
           | VNone => HN
           | VInt z => HI z
           | VFloat f => HF f
           | VStr s => HS s
           | VList l =>
               HL l ((fix go (l : list value) : Forall P l :=
                        match l with
                        | [] => Forall_nil P
                        | x :: l' => Forall_cons x (IH x) (go l')
                        end) l)
           | VDict d =>
               HD d ((fix go (d : list (str * value))
                      : Forall (fun kv => P (snd kv)) d :=
                        match d with
                        | [] => Forall_nil _
                        | (k, x) :: d' =>
                            Forall_cons (P := fun kv => P (snd kv))
                              (k, x) (IH x) (go d')
                        end) d)
           end).
Qed.

Lemma traverse_list (l : list value) :
  SnowballAges.traverse (VList l) = flat_map SnowballAges.traverse l.
Proof.
  induction l as [|x l IH]; [reflexivity|].
  simpl in *. rewrite IH. reflexivity.
Qed.

Lemma traverse_dict (d : dict) :
  SnowballAges.traverse (VDict d)
  = (match dict_get Literal.Entities d with
     | Some (VList entities) => SnowballAges.reports entities
     | _ => []
     end)
    ++ flat_map (fun kv => SnowballAges.traverse (snd kv)) d.
Proof.
  cbn [SnowballAges.traverse]. f_equal.
  induction d as [|[k x] d IH]; [reflexivity|].
  simpl. rewrite IH. reflexivity.
Qed.

Lemma in_reports (r : value) (entities : list value) :
  In r (SnowballAges.reports entities) <->
  exists entity d,
    In entity entities /\ SnowballAges.snowball entity = Some d /\
    r = SnowballAges.report d.
Proof.
  unfold SnowballAges.reports. rewrite in_flat_map. split.
  - intros [entity [Hi Hr]].
    destruct (SnowballAges.snowball entity) as [d|] eqn:E; [|destruct Hr].
    destruct Hr as [<- | []]. exists entity, d. auto.
  - intros [entity [d [Hi [Hs ->]]]]. exists entity. split; [exact Hi|].
    rewrite Hs. left. reflexivity.
Qed.

Lemma inside_trans (u v w : value) : inside u v -> inside v w -> inside u w.
Proof.
  intros Huv Hvw. induction Hvw as [| item l Hi H IH | k x d Hi H IH].
  - exact Huv.
  - eapply inside_list; eassumption.
  - eapply inside_dict; eassumption.
Qed.

(** Where the reports come from. *)
Lemma in_extract_snowball_ages (nbt_data r : value) :
  In r (SnowballAges.extract_snowball_ages nbt_data) <->
  exists d entities entity e,
    inside (VDict d) nbt_data /\
    dict_get Literal.Entities d = Some (VList entities) /\
    In entity entities /\
    SnowballAges.snowball entity = Some e /\
    r = SnowballAges.report e.
Proof.
  unfold SnowballAges.extract_snowball_ages.
  induction nbt_data as [| z | f | s | l IH | d0 IH] using value_nested_ind;
    try (split; [intros [] | intros [d [es [en [e [Hin _]]]]]; inversion Hin]).
  - rewrite traverse_list, in_flat_map. split.
    + intros [x [Hx Hr]]. rewrite Forall_forall in IH.
      apply (IH x Hx) in Hr.
      destruct Hr as [d [es [en [e [Hin Rest]]]]].
      exists d, es, en, e. split; [|exact Rest].
      eapply inside_list; eassumption.
    + intros [d [es [en [e [Hin Rest]]]]].
      inversion Hin as [| item l' Hi Hsub |]; subst.
      exists item. split; [exact Hi|].
      rewrite Forall_forall in IH. apply (IH item Hi).
      exists d, es, en, e. auto.
  - rewrite traverse_dict, in_app_iff, in_flat_map. split.
    + intros [Hr | [[k x] [Hx Hr]]].
      * destruct (dict_get Literal.Entities d0) as [[| | | | es |]|] eqn:E;
          try destruct Hr.
        apply in_reports in Hr. destruct Hr as [en [e [Hi [Hs ->]]]].
        exists d0, es, en, e. repeat split; try assumption. constructor.
      * rewrite Forall_forall in IH. apply (IH (k, x) Hx) in Hr.
        destruct Hr as [d [es [en [e [Hin Rest]]]]].
        exists d, es, en, e. split; [|exact Rest].
        eapply inside_dict; eassumption.
    + intros [d [es [en [e [Hin [Hg [Hi [Hs ->]]]]]]]].
      inversion Hin as [| | k x d' Hx Hsub]; subst.
      * left. rewrite Hg. apply in_reports. exists en, e. auto.
      * right. exists (k, x). split; [exact Hx|].
        rewrite Forall_forall in IH. apply (IH (k, x) Hx).
        exists d, es, en, e. auto.
Qed.

(** X9.  [extract_snowball_ages] reports exactly the snowballs of every
    'Entities' list, at any depth: a dict is in the result if and only if it
    is the report of an entity that is a dict with 'id' equal to
    'minecraft:snowball' and that is an item of a list stored under the key
    'Entities' of some dict occurring in the data. *)
Theorem snowball_reported_iff (nbt_data r : value) :
  In r (SnowballAges.extract_snowball_ages nbt_data) <->
  exists d entities entity e,
    inside (VDict d) nbt_data /\
    dict_get Literal.Entities d = Some (VList entities) /\
    In entity entities /\
    SnowballAges.snowball entity = Some e /\
    r = SnowballAges.report e.
Proof. exact (in_extract_snowball_ages nbt_data r). Qed.

Lemma traverse_without_entities (v : value) :
  without_entities v -> SnowballAges.traverse v = [].
Proof.
  intros H. destruct (SnowballAges.traverse v) as [|r rs] eqn:E;
    [reflexivity|].
  assert (Hr : In r (SnowballAges.extract_snowball_ages v))
    by (unfold SnowballAges.extract_snowball_ages; rewrite E; left;
        reflexivity).
  apply in_extract_snowball_ages in Hr.
  destruct Hr as [d [es [en [e [Hin [Hg _]]]]]].
  exfalso. exact (H d es Hin Hg).
Qed.

Lemma flat_map_nil {A B} (f : A -> list B) (l : list A) :
  (forall x, In x l -> f x = []) -> flat_map f l = [].
Proof.
  induction l as [|x l IH]; intros H; [reflexivity|].
  simpl. rewrite (H x (or_introl eq_refl)), IH; [reflexivity|].
  intros y Hy. apply H. right. exact Hy.
Qed.

Lemma length_reports (entities : list value) :
  length (SnowballAges.reports entities)
  = length (filter (fun entity =>
                      match SnowballAges.snowball entity with
                      | Some _ => true
                      | None => false
                      end) entities).
Proof.
  induction entities as [|x l IH]; [reflexivity|].
  unfold SnowballAges.reports in *. simpl.
  destruct (SnowballAges.snowball x); simpl; rewrite IH; reflexivity.
Qed.

(** X10.  On a document shaped like a chunk, a root compound holding one
    'Entities' list whose entities, like the other values of the compound,
    contain no 'Entities' list of their own, [extract_snowball_ages] returns
    one report per snowball entity of that list, in list order, nothing
    twice and nothing else; entities with another 'id', without 'id', or
    that are not dicts are left out. *)
Theorem snowballs_of_chunk (name : str) (d : dict) (entities : list value)
  (Hg : dict_get Literal.Entities d = Some (VList entities))
  (Hd : forall k x, In (k, x) d -> x = VList entities \/ without_entities x)
  (He : Forall without_entities entities) :
  SnowballAges.extract_snowball_ages (VDict [(name, VDict d)])
  = SnowballAges.reports entities /\
  length (SnowballAges.extract_snowball_ages (VDict [(name, VDict d)]))
  = length (filter (fun entity =>
                      match SnowballAges.snowball entity with
                      | Some _ => true
                      | None => false
                      end) entities).
Proof.
  assert (K : SnowballAges.extract_snowball_ages (VDict [(name, VDict d)])
              = SnowballAges.reports entities).
  { unfold SnowballAges.extract_snowball_ages.
    rewrite traverse_dict.
    replace (match dict_get Literal.Entities [(name, VDict d)] with
             | Some (VList es) => SnowballAges.reports es
             | _ => []
             end) with (@nil value)
      by (simpl; destruct (str_eqb Literal.Entities name); reflexivity).
    cbn [flat_map snd app]. rewrite app_nil_r.
    rewrite traverse_dict, Hg.
    rewrite flat_map_nil; [apply app_nil_r|].
    intros [k x] Hx. cbn [snd].
    destruct (Hd k x Hx) as [-> | Hw].
    - rewrite traverse_list. apply flat_map_nil.
      intros e Hi. apply traverse_without_entities.
      rewrite Forall_forall in He. apply He. exact Hi.
    - apply traverse_without_entities. exact Hw. }
  split; [exact K|]. rewrite K. apply length_reports.
Qed.

Lemma without_entities_leaf (d : dict) :
  (forall entities, dict_get Literal.Entities d <> Some (VList entities)) ->
  (forall k x, In (k, x) d ->
     match x with VList _ | VDict _ => False | _ => True end) ->
  without_entities (VDict d).
Proof.
  intros Hg Hx d' entities Hin. inversion Hin as [| | k x d0 Hi Hsub]; subst.
  - apply Hg.
  - specialize (Hx k x Hi). destruct x; try contradiction; inversion Hsub.
Qed.

Lemma snowballs_of_chunk_witness :
  SnowballAges.extract_snowball_ages
    (VDict [([],
             VDict [(Literal.Entities,
                     VList [VDict [(Literal.id, VStr Literal.minecraft_snowball);
                                   (Literal.Age, VInt 7)];
                            VDict [(Literal.id, VStr Literal.Age)]])])])
  = [VDict [(Literal.age, VInt 7);
            (Literal.pos, VList [VInt 0; VInt 0; VInt 0]);
            (Literal.motion, VList [VInt 0; VInt 0; VInt 0])]].
Proof.
  apply (snowballs_of_chunk []
           [(Literal.Entities,
             VList [VDict [(Literal.id, VStr Literal.minecraft_snowball);
                           (Literal.Age, VInt 7)];
                    VDict [(Literal.id, VStr Literal.Age)]])]
           [VDict [(Literal.id, VStr Literal.minecraft_snowball);
                   (Literal.Age, VInt 7)];
            VDict [(Literal.id, VStr Literal.Age)]]).
  - reflexivity.
  - intros k x [H | []]. inversion H; subst. left. reflexivity.
  - repeat constructor; apply without_entities_leaf.
    + intros entities. vm_compute. discriminate.
    + intros k x [H | [H | []]]; inversion H; subst; exact I.
    + intros entities. vm_compute. discriminate.
    + intros k x [H | []]; inversion H; subst; exact I.
Defined.

Lemma snowball_reported_iff_witness :
  In (SnowballAges.report [(Literal.id, VStr Literal.minecraft_snowball)])
     (SnowballAges.extract_snowball_ages
        (VList [VDict [(Literal.Entities,
                        VList [VDict [(Literal.id,
                                       VStr Literal.minecraft_snowball)]])]])).
Proof.
  apply (proj2 (snowball_reported_iff _ _)).
  exists [(Literal.Entities,
           VList [VDict [(Literal.id, VStr Literal.minecraft_snowball)]])],
         [VDict [(Literal.id, VStr Literal.minecraft_snowball)]],
         (VDict [(Literal.id, VStr Literal.minecraft_snowball)]),
         [(Literal.id, VStr Literal.minecraft_snowball)].
  repeat split.
  - eapply inside_list; [left; reflexivity | constructor].
  - left. reflexivity.
Defined.

(** * The owner search *)

Lemma search_progress_refl (lower : str -> str) (r : OwnerSearch.reader) :
  search_progress lower r r.
Proof.
  split; [|split].
  - exists 0%nat. split; [lia | symmetry; apply advance_0].
  - exists []. split; [symmetry; apply app_nil_r | constructor].
  - exists []. symmetry; apply app_nil_r.
Qed.

Lemma search_progress_trans (lower : str -> str)
      (r1 r2 r3 : OwnerSearch.reader) :
  search_progress lower r1 r2 -> search_progress lower r2 r3 ->
  search_progress lower r1 r3.
Proof.
  intros [[k1 [L1 S1]] [[e1 [E1 F1]] [l1 P1]]]
         [[k2 [L2 S2]] [[e2 [E2 F2]] [l2 P2]]].
  split; [|split].
  - exists (k1 + k2)%nat. rewrite S1, left_advance in L2.
    split; [lia|]. rewrite S2, S1. apply advance_advance.
  - exists (e1 ++ e2). rewrite E2, E1, app_assoc. split; [reflexivity|].
    apply Forall_app. auto.
  - exists (l1 ++ l2). rewrite P2, P1, app_assoc. reflexivity.
Qed.

Lemma progresses_ret {A} (lower : str -> str) (a : A) :
  progresses lower (OwnerSearch.ret a).
Proof. intros r. apply search_progress_refl. Qed.

Lemma progresses_raise {A} (lower : str -> str) (e : exn) :
  progresses lower (@OwnerSearch.raise A e).
Proof. intros r. apply search_progress_refl. Qed.

Lemma progresses_bind {A B} (lower : str -> str) (m : OwnerSearch.P A)
      (k : A -> OwnerSearch.P B) :
  progresses lower m -> (forall a, progresses lower (k a)) ->
  progresses lower (OwnerSearch.bind m k).
Proof.
  intros Hm Hk r. unfold OwnerSearch.bind.
  pose proof (Hm r) as H1. destruct (m r) as [[a|e] r1]; simpl in H1.
  - eapply search_progress_trans; [exact H1 | apply Hk].
  - exact H1.
Qed.

Lemma progresses_try {A} (lower : str -> str) (body : OwnerSearch.P A)
      (handler : exn -> OwnerSearch.P A) :
  progresses lower body -> (forall e, progresses lower (handler e)) ->
  progresses lower (OwnerSearch.try body handler).
Proof.
  intros Hb Hh r. unfold OwnerSearch.try.
  pose proof (Hb r) as H1. destruct (body r) as [[a|e] r1]; simpl in H1.
  - exact H1.
  - eapply search_progress_trans; [exact H1 | apply Hh].
Qed.

Lemma progresses_if {A} (lower : str -> str) (c : bool)
      (a b : OwnerSearch.P A) :
  progresses lower a -> progresses lower b ->
  progresses lower (if c then a else b).
Proof. destruct c; auto. Qed.

Lemma progresses_stream_read (lower : str -> str) (size : Z) :
  progresses lower (OwnerSearch.stream_read size).
Proof.
  intros r. unfold OwnerSearch.stream_read.
  rewrite read_eq. simpl. split; [|split].
  - eexists. split; [|reflexivity].
    unfold BytesIO.read. simpl. fold (left (OwnerSearch.stream r)).
    destruct (size <? 0); [apply Nat.le_refl|].
    rewrite length_firstn. apply Nat.le_min_r.
  - exists []. split; [symmetry; apply app_nil_r | constructor].
  - exists []. symmetry; apply app_nil_r.
Qed.

Lemma progresses_unpack {A} (lower : str -> str) (size : nat)
      (f : bytes -> A) (bs : bytes) :
  progresses lower (OwnerSearch.unpack size f bs).
Proof.
  unfold OwnerSearch.unpack. destruct (Nat.eqb (length bs) size).
  - apply progresses_ret.
  - apply progresses_raise.
Qed.

Lemma progresses_print (lower : str -> str) (encodable : Z -> bool)
      (l : OwnerSearch.line) :
  progresses lower (OwnerSearch.print encodable l).
Proof.
  intros r. unfold OwnerSearch.print.
  destruct (forallb encodable (OwnerSearch.text_of l));
    [|apply search_progress_refl].
  simpl. split; [|split].
  - exists 0%nat. split; [lia | symmetry; apply advance_0].
  - exists []. split; [symmetry; apply app_nil_r | constructor].
  - exists [l]. reflexivity.
Qed.

Lemma progresses_append (lower : str -> str) (entry : value) :
  owner_entry lower entry -> progresses lower (OwnerSearch.append entry).
Proof.
  intros He r. simpl. split; [|split].
  - exists 0%nat. split; [lia | symmetry; apply advance_0].
  - exists [entry]. split; [reflexivity|]. constructor; [exact He|constructor].
  - exists []. symmetry; apply app_nil_r.
Qed.

Lemma progresses_read_fixed {A} (lower : str -> str) (size : nat)
      (f : bytes -> A) (w : Z) :
  progresses lower
    (OwnerSearch.bind (OwnerSearch.stream_read w)
       (fun bs => OwnerSearch.unpack size f bs)).
Proof.
  apply progresses_bind; [apply progresses_stream_read|].
  intros bs. apply progresses_unpack.
Qed.

Lemma progresses_read_string (lower : str -> str) :
  progresses lower OwnerSearch.read_string.
Proof.
  unfold OwnerSearch.read_string.
  apply progresses_bind; [apply progresses_stream_read|]. intros hdr.
  apply progresses_bind; [apply progresses_unpack|]. intros n.
  apply progresses_bind; [apply progresses_stream_read|]. intros p.
  apply progresses_ret.
Qed.

Lemma progresses_for_range (lower : str -> str) (n : nat)
      (m : OwnerSearch.P unit) :
  progresses lower m -> progresses lower (OwnerSearch.for_range n m).
Proof.
  intros Hm. induction n as [|n IH]; simpl.
  - apply progresses_ret.
  - apply progresses_bind; [exact Hm|]. intros _. exact IH.
Qed.

Lemma progresses_skip_compound_loop (lower : str -> str)
      (st : Z -> OwnerSearch.P unit) (turns : nat) :
  (forall t, progresses lower (st t)) ->
  progresses lower (OwnerSearch.skip_compound_loop st turns).
Proof.
  intros Hst. induction turns as [|turns IH]; simpl.
  - apply progresses_raise.
  - apply progresses_bind; [apply progresses_read_fixed|]. intros t.
    apply progresses_if; [apply progresses_ret|].
    apply progresses_bind; [apply progresses_read_string|]. intros _.
    apply progresses_bind; [apply Hst|]. intros _. exact IH.
Qed.

Lemma progresses_skip_tag (lower : str -> str) (depth : nat) (t : Z) :
  progresses lower (OwnerSearch.skip_tag depth t).
Proof.
  revert t. induction depth as [|depth IH]; intros t; simpl.
  - apply progresses_raise.
  - unfold OwnerSearch.skip_tag_with.
    repeat (apply progresses_if;
            [first [ apply progresses_ret
                   | apply progresses_bind;
                     [first [ apply progresses_stream_read
                            | apply progresses_read_string ]
                     | intros; apply progresses_ret ]
                   | apply progresses_bind;
                     [apply progresses_read_fixed|]; intros;
                     apply progresses_bind;
                     [apply progresses_stream_read|]; intros;
                     apply progresses_ret
                   | idtac ]|]);
      try apply progresses_ret.
    + apply progresses_bind; [apply progresses_read_fixed|]. intros lt.
      apply progresses_bind; [apply progresses_read_fixed|]. intros n.
      apply progresses_for_range. apply IH.
    + intros r. apply progresses_skip_compound_loop. exact IH.
Qed.

Lemma progresses_skip_compound (lower : str -> str) (depth : nat) :
  progresses lower (OwnerSearch.skip_compound depth).
Proof.
  intros r. apply progresses_skip_compound_loop.
  intros t. apply progresses_skip_tag.
Qed.

Section SearchProperties.

Variable lower : str -> str.
Variable budget : nat -> nat.
Variable encodable : Z -> bool.

Lemma progresses_search_loop (deeper : OwnerSearch.P unit) (depth turns : nat) :
  progresses lower deeper ->
  progresses lower
    (OwnerSearch.search_loop lower budget encodable deeper depth turns).
Proof.
  intros Hd. induction turns as [|turns IH]; cbn [OwnerSearch.search_loop].
  - apply progresses_raise.
  - apply progresses_bind; [apply progresses_read_fixed|]. intros t.
    apply progresses_if; [apply progresses_ret|].
    apply progresses_bind; [apply progresses_read_string|]. intros name.
    apply progresses_bind; [|intros _; exact IH].
    destruct (OwnerSearch.owner_related lower name) eqn:E.
    + apply progresses_bind; [apply progresses_print|]. intros _.
      apply progresses_if.
      * apply progresses_bind; [apply progresses_read_string|]. intros v.
        apply progresses_bind; [apply progresses_print|]. intros _.
        apply progresses_append. exists name, (VStr v).
        split; [reflexivity|]. split; [exact E|]. left. eexists. reflexivity.
      * apply progresses_if; [|apply progresses_skip_tag].
        apply progresses_bind.
        { apply progresses_if; apply progresses_read_fixed. }
        intros v.
        apply progresses_bind; [apply progresses_print|]. intros _.
        apply progresses_append. exists name, (VInt v).
        split; [reflexivity|]. split; [exact E|]. right. eexists. reflexivity.
    + apply progresses_if; [|apply progresses_skip_tag].
      apply progresses_if; [exact Hd | apply progresses_skip_compound].
Qed.

Lemma progresses_search_compound_from (levels depth max_depth : nat) :
  progresses lower
    (OwnerSearch.search_compound_from lower budget encodable levels depth
       max_depth).
Proof.
  revert depth. induction levels as [|levels IH]; intros depth;
    cbn [OwnerSearch.search_compound_from];
    (apply progresses_if; [apply progresses_ret|]);
    (apply progresses_try;
     [|intros e; apply progresses_if;
       [apply progresses_print | apply progresses_ret]]);
    intros r.
  - exact (progresses_search_loop _ depth _ (progresses_ret lower tt) r).
  - exact (progresses_search_loop _ depth _ (IH (S depth)) r).
Qed.

Lemma try_never_raises (body : OwnerSearch.P unit)
      (handler : exn -> OwnerSearch.P unit) (r : OwnerSearch.reader) :
  (forall e r', fst (handler e r') = Ok tt) ->
  fst (OwnerSearch.try body handler r) = Ok tt.
Proof.
  intros Hh. unfold OwnerSearch.try.
  destruct (body r) as [[[]|e] r1]; [reflexivity | apply Hh].
Qed.

Lemma search_compound_from_never_raises (levels depth max_depth : nat)
      (r : OwnerSearch.reader) :
  fst (OwnerSearch.search_compound_from lower budget encodable levels depth
         max_depth r)
  = Ok tt.
Proof.
  destruct levels; cbn [OwnerSearch.search_compound_from];
    destruct (max_depth <? depth)%nat;
    try reflexivity; apply try_never_raises; intros e r';
    destruct (depth =? 0)%nat; reflexivity.
Qed.

Lemma search_for_owners_never_raises (r : OwnerSearch.reader) :
  fst (OwnerSearch.search_for_owners lower budget encodable r) = Ok tt.
Proof.
  unfold OwnerSearch.search_for_owners. apply try_never_raises.
  intros e r'. reflexivity.
Qed.

Lemma progresses_search_for_owners :
  progresses lower (OwnerSearch.search_for_owners lower budget encodable).
Proof.
  unfold OwnerSearch.search_for_owners.
  apply progresses_try; [|intros e; apply progresses_print].
  apply progresses_bind; [apply progresses_read_fixed|]. intros t.
  apply progresses_if; [apply progresses_ret|].
  apply progresses_bind; [apply progresses_read_string|]. intros name.
  apply progresses_bind; [apply progresses_print|]. intros _.
  apply progresses_search_compound_from.
Qed.

(** Pointwise equal continuations give pointwise equal binds. *)
Lemma search_bind_ext {A B} (m : OwnerSearch.P A)
      (k1 k2 : A -> OwnerSearch.P B) (r : OwnerSearch.reader) :
  (forall a r', k1 a r' = k2 a r') ->
  OwnerSearch.bind m k1 r = OwnerSearch.bind m k2 r.
Proof.
  intros H. unfold OwnerSearch.bind.
  destruct (m r) as [[a|e] r1]; [apply H | reflexivity].
Qed.

(** The loop calls [deeper] only at depths below 5. *)
Lemma search_loop_ext (deeper1 deeper2 : OwnerSearch.P unit)
      (depth turns : nat) :
  ((depth < 5)%nat -> forall r, deeper1 r = deeper2 r) ->
  forall r,
    OwnerSearch.search_loop lower budget encodable deeper1 depth turns r
    = OwnerSearch.search_loop lower budget encodable deeper2 depth turns r.
Proof.
  intros Hd. induction turns as [|turns IH]; intros r;
    cbn [OwnerSearch.search_loop].
  - reflexivity.
  - apply search_bind_ext. intros t r1.
    destruct (t =? 0); [reflexivity|].
    apply search_bind_ext. intros name r2.
    destruct (OwnerSearch.owner_related lower name).
    + apply search_bind_ext. intros _ r3. apply IH.
    + destruct (t =? 10).
      * destruct (depth <? 5)%nat eqn:E.
        -- apply Nat.ltb_lt in E. unfold OwnerSearch.bind.
           rewrite (Hd E r2).
           destruct (deeper2 r2) as [[a|e] r3]; [apply IH | reflexivity].
        -- apply search_bind_ext. intros _ r3. apply IH.
      * apply search_bind_ext. intros _ r3. apply IH.
Qed.

Lemma search_try_ext {A} (b1 b2 : OwnerSearch.P A)
      (handler : exn -> OwnerSearch.P A) (r : OwnerSearch.reader) :
  b1 r = b2 r -> OwnerSearch.try b1 handler r = OwnerSearch.try b2 handler r.
Proof. intros H. unfold OwnerSearch.try. rewrite H. reflexivity. Qed.

Lemma search_compound_from_max_depth (levels : nat) :
  forall (depth max_depth1 max_depth2 : nat) (r : OwnerSearch.reader),
  (depth <= 5)%nat -> (5 <= max_depth1)%nat -> (5 <= max_depth2)%nat ->
  OwnerSearch.search_compound_from lower budget encodable levels depth
    max_depth1 r
  = OwnerSearch.search_compound_from lower budget encodable levels depth
      max_depth2 r.
Proof.
  induction levels as [|levels IH]; intros depth md1 md2 r Hd H1 H2;
    cbn [OwnerSearch.search_compound_from];
    (replace (md1 <? depth)%nat with false by (symmetry; apply Nat.ltb_ge; lia));
    (replace (md2 <? depth)%nat with false by (symmetry; apply Nat.ltb_ge; lia));
    apply search_try_ext; apply search_loop_ext; intros Hlt r'.
  - reflexivity.
  - apply IH; lia.
Qed.

(** The method as the source writes it: one unfolding of
    [search_compound]. *)
Lemma search_compound_eq (depth max_depth : nat) (r : OwnerSearch.reader) :
  OwnerSearch.search_compound lower budget encodable depth max_depth r
  = if (max_depth <? depth)%nat then (Ok tt, r)
    else
      OwnerSearch.try
        (fun r =>
           OwnerSearch.search_loop lower budget encodable
             (OwnerSearch.search_compound lower budget encodable (S depth)
                max_depth)
             depth (S (left (OwnerSearch.stream r))) r)
        (fun e => if (depth =? 0)%nat
                  then OwnerSearch.print encodable (OwnerSearch.SearchEnded e)
                  else OwnerSearch.ret tt) r.
Proof.
  unfold OwnerSearch.search_compound.
  destruct (Nat.lt_ge_cases depth 5) as [Hlt | Hge].
  - replace (5 - depth)%nat with (S (5 - S depth)) by lia.
    cbn [OwnerSearch.search_compound_from].
    destruct (max_depth <? depth)%nat; reflexivity.
  - replace (5 - depth)%nat with 0%nat by lia.
    cbn [OwnerSearch.search_compound_from].
    destruct (max_depth <? depth)%nat; [reflexivity|].
    apply search_try_ext. apply search_loop_ext. intros Hlt. lia.
Qed.

End SearchProperties.

(** ** The stream methods of the search are those of [FindOwner] *)

Lemma with_stream_stream (r : OwnerSearch.reader) :
  with_stream (OwnerSearch.stream r) r = r.
Proof. destruct r. reflexivity. Qed.

Lemma tracks_ret {A} (a : A) : tracks (ret a) (OwnerSearch.ret a).
Proof. intros r. simpl. rewrite with_stream_stream. reflexivity. Qed.

Lemma tracks_raise {A} (e : exn) : tracks (@raise A e) (OwnerSearch.raise e).
Proof.
  intros r. simpl. exists (OwnerSearch.stream r).
  rewrite with_stream_stream. reflexivity.
Qed.

Lemma tracks_bind {A B} (m : M A) (p : OwnerSearch.P A) (k : A -> M B)
      (q : A -> OwnerSearch.P B) :
  tracks m p -> (forall a, tracks (k a) (q a)) ->
  tracks (bind m k) (OwnerSearch.bind p q).
Proof.
  intros Hm Hk r. unfold bind, OwnerSearch.bind.
  specialize (Hm r).
  destruct (m (OwnerSearch.stream r)) as [[a s1]|e].
  - rewrite Hm. specialize (Hk a (with_stream s1 r)). simpl in Hk.
    destruct (k a s1) as [[b s2]|e].
    + rewrite Hk. reflexivity.
    + destruct Hk as [s' Hk]. exists s'. rewrite Hk. reflexivity.
  - destruct Hm as [s' Hm]. exists s'. rewrite Hm. reflexivity.
Qed.

Lemma tracks_if {A} (c : bool) (m1 m2 : M A) (p1 p2 : OwnerSearch.P A) :
  tracks m1 p1 -> tracks m2 p2 ->
  tracks (if c then m1 else m2) (if c then p1 else p2).
Proof. destruct c; auto. Qed.

Lemma tracks_stream_read (size : Z) :
  tracks (stream_read size) (OwnerSearch.stream_read size).
Proof.
  intros r. unfold stream_read, OwnerSearch.stream_read.
  destruct (BytesIO.read size (OwnerSearch.stream r)) as [bs s']. reflexivity.
Qed.

Lemma tracks_unpack {A} (size : nat) (f : bytes -> A) (bs : bytes) :
  tracks (Struct.unpack size f bs) (OwnerSearch.unpack size f bs).
Proof.
  unfold Struct.unpack, OwnerSearch.unpack.
  destruct (Nat.eqb (length bs) size); [apply tracks_ret | apply tracks_raise].
Qed.

Lemma tracks_read_ubyte : tracks read_ubyte OwnerSearch.read_ubyte.
Proof.
  apply tracks_bind; [apply tracks_stream_read|].
  intros bs. apply tracks_unpack.
Qed.

Lemma tracks_read_int : tracks read_int OwnerSearch.read_int.
Proof.
  apply tracks_bind; [apply tracks_stream_read|].
  intros bs. apply tracks_unpack.
Qed.

Lemma tracks_read_long : tracks read_long OwnerSearch.read_long.
Proof.
  apply tracks_bind; [apply tracks_stream_read|].
  intros bs. apply tracks_unpack.
Qed.

Lemma tracks_read_string : tracks read_string OwnerSearch.read_string.
Proof.
  apply tracks_bind; [apply tracks_stream_read|]. intros hdr.
  apply tracks_bind; [apply tracks_unpack|]. intros n.
  apply tracks_bind; [apply tracks_stream_read|]. intros p.
  apply tracks_ret.
Qed.

Lemma tracks_for_range (n : nat) (m : M unit) (p : OwnerSearch.P unit) :
  tracks m p -> tracks (for_range n m) (OwnerSearch.for_range n p).
Proof.
  intros H. induction n as [|n IH]; simpl.
  - apply tracks_ret.
  - apply tracks_bind; [exact H|]. intros _. exact IH.
Qed.

Lemma tracks_skip_compound_loop (st : Z -> M unit)
      (sp : Z -> OwnerSearch.P unit) (turns : nat) :
  (forall t, tracks (st t) (sp t)) ->
  tracks (FindOwner.skip_compound_loop st turns)
         (OwnerSearch.skip_compound_loop sp turns).
Proof.
  intros H. induction turns as [|turns IH]; simpl.
  - apply tracks_raise.
  - apply tracks_bind; [apply tracks_read_ubyte|]. intros t.
    apply tracks_if; [apply tracks_ret|].
    apply tracks_bind; [apply tracks_read_string|]. intros _.
    apply tracks_bind; [apply H|]. intros _. exact IH.
Qed.

Lemma tracks_skip_tag (depth : nat) (t : Z) :
  tracks (FindOwner.skip_tag depth t) (OwnerSearch.skip_tag depth t).
Proof.
  revert t. induction depth as [|depth IH]; intros t; simpl.
  - apply tracks_raise.
  - unfold FindOwner.skip_tag_with, OwnerSearch.skip_tag_with.
    repeat (apply tracks_if;
            [first [ apply tracks_ret
                   | apply tracks_bind;
                     [first [ apply tracks_stream_read
                            | apply tracks_read_string ]
                     | intros; apply tracks_ret ]
                   | apply tracks_bind; [apply tracks_read_int|]; intros;
                     apply tracks_bind; [apply tracks_stream_read|]; intros;
                     apply tracks_ret
                   | idtac ]|]);
      try apply tracks_ret.
    + apply tracks_bind; [apply tracks_read_ubyte|]. intros lt.
      apply tracks_bind; [apply tracks_read_int|]. intros n.
      apply tracks_for_range. apply IH.
    + intros r. apply tracks_skip_compound_loop. exact IH.
Qed.

Lemma tracks_skip_compound (depth : nat) :
  tracks (FindOwner.skip_compound depth) (OwnerSearch.skip_compound depth).
Proof.
  intros r. apply tracks_skip_compound_loop.
  intros t. apply tracks_skip_tag.
Qed.

Lemma tracks_ok {A} (m : M A) (p : OwnerSearch.P A) (r : OwnerSearch.reader)
      (a : A) (s' : BytesIO.t) :
  tracks m p -> m (OwnerSearch.stream r) = Ok (a, s') ->
  p r = (Ok a, with_stream s' r).
Proof. intros H E. specialize (H r). rewrite E in H. exact H. Qed.

(** ** What the search does *)

(** X11.  [search_for_owners] always returns normally: every exception
    raised while searching is caught.  The buffer is not changed and the
    cursor only moves forward within it; [player_info] only grows, by dicts
    [{name: value}] whose name, lowered, contains 'owner', 'thrower',
    'source' or 'player' and whose value is a string or an integer; the
    output only grows. *)
Theorem search_for_owners_progress (lower : str -> str) (budget : nat -> nat)
  (encodable : Z -> bool)
  (r : OwnerSearch.reader) :
  exists r',
    OwnerSearch.search_for_owners lower budget encodable r = (Ok tt, r') /\
    search_progress lower r r'.
Proof.
  exists (snd (OwnerSearch.search_for_owners lower budget encodable r)). split.
  - pose proof (search_for_owners_never_raises lower budget encodable r) as H.
    destruct (OwnerSearch.search_for_owners lower budget encodable r) as [o r'].
    simpl in *. rewrite H. reflexivity.
  - apply progresses_search_for_owners.
Qed.

(** X12.  Only a document whose root is a compound is searched.  On an
    empty buffer [search_for_owners] prints the error of the failed read and
    records nothing; on a buffer whose first byte is not 10 it reads that
    byte and returns at once, with nothing recorded and nothing printed. *)
Theorem search_for_owners_root (lower : str -> str) (budget : nat -> nat)
  (encodable : Z -> bool)
  (data : bytes) :
  (data = [] ->
   OwnerSearch.search_for_owners lower budget encodable (OwnerSearch.new data)
   = (Ok tt,
      OwnerSearch.mk (BytesIO.open [])
        [] [OwnerSearch.ErrorDuringSearch StructError])) /\
  (forall b rest, data = b :: rest -> u8 b <> 10 ->
   OwnerSearch.search_for_owners lower budget encodable (OwnerSearch.new data)
   = (Ok tt, OwnerSearch.mk (BytesIO.mk data 1) [] [])).
Proof.
  split.
  - intros ->. reflexivity.
  - intros b rest -> Hb.
    unfold OwnerSearch.search_for_owners, OwnerSearch.try, OwnerSearch.bind.
    rewrite (tracks_ok _ _ (OwnerSearch.new (b :: rest)) (u8 b)
               (advance 1 (BytesIO.open (b :: rest))) tracks_read_ubyte)
      by (apply (read_ubyte_cons _ b rest); reflexivity).
    apply Z.eqb_neq in Hb. rewrite Hb. reflexivity.
Qed.

Lemma search_for_owners_root_witness :
  OwnerSearch.search_for_owners (fun s => s) (fun _ => 8%nat)
    (fun _ => true)
    (OwnerSearch.new [x03; x00; x00])
  = (Ok tt, OwnerSearch.mk (BytesIO.mk [x03; x00; x00] 1) [] []).
Proof.
  apply (proj2 (search_for_owners_root (fun s => s) (fun _ => 8%nat)
                  (fun _ => true)
                  [x03; x00; x00]) x03 [x00; x00] eq_refl).
  vm_compute. discriminate.
Defined.

(** X13.  The [max_depth] argument of [search_compound] has no effect from
    5 upwards, so the default 20 never stops a search started at depth 0:
    the method calls itself only while [depth < 5], which keeps [depth]
    at 5 or below.  Below [depth] it does: the call returns at once. *)
Theorem search_compound_max_depth (lower : str -> str) (budget : nat -> nat)
  (encodable : Z -> bool)
  (depth max_depth1 max_depth2 : nat) (r : OwnerSearch.reader)
  (Hd : (depth <= 5)%nat)
  (H1 : (5 <= max_depth1)%nat) (H2 : (5 <= max_depth2)%nat) :
  OwnerSearch.search_compound lower budget encodable depth max_depth1 r
  = OwnerSearch.search_compound lower budget encodable depth max_depth2 r /\
  (forall depth' max_depth, (max_depth < depth')%nat ->
     OwnerSearch.search_compound lower budget encodable depth' max_depth r
     = (Ok tt, r)).
Proof.
  split.
  - apply search_compound_from_max_depth; assumption.
  - intros depth' md Hlt. rewrite search_compound_eq.
    apply Nat.ltb_lt in Hlt. rewrite Hlt. reflexivity.
Qed.

Lemma search_compound_max_depth_witness :
  OwnerSearch.search_compound (fun s => s) (fun _ => 8%nat) (fun _ => true)
    0 20 (OwnerSearch.new [x0a; x00; x00; x00; x00])
  = OwnerSearch.search_compound (fun s => s) (fun _ => 8%nat) (fun _ => true)
      0 5 (OwnerSearch.new [x0a; x00; x00; x00; x00]).
Proof.
  apply (search_compound_max_depth (fun s => s) (fun _ => 8%nat)
           (fun _ => true) 0 20 5
           (OwnerSearch.new [x0a; x00; x00; x00; x00])); lia.
Defined.

(** ** A compound of strings *)

Lemma len16_value (bs : bytes) :
  Z.of_nat (length bs) < 65536 ->
  Z.of_nat (length bs)
  = u8 (byte_of (Z.of_nat (length bs) / 256)) * 256
    + u8 (byte_of (Z.of_nat (length bs))).
Proof.
  intros H. set (n := Z.of_nat (length bs)) in *.
  assert (Hn : 0 <= n) by (unfold n; lia).
  rewrite (u8_byte_of (n / 256)) by lia.
  unfold u8 at 1, byte_of.
  assert (Hm : 0 <= n mod 256 < 256) by (apply Z.mod_pos_bound; lia).
  destruct (Byte.of_N (Z.to_N (n mod 256))) as [b|] eqn:E.
  - apply Byte.to_of_N in E. rewrite E. lia.
  - apply Byte.of_N_None_iff in E. lia.
Qed.

Lemma search_bind_ok {A B} (p : OwnerSearch.P A) (k : A -> OwnerSearch.P B)
      (r r' : OwnerSearch.reader) (a : A) :
  p r = (Ok a, r') -> OwnerSearch.bind p k r = k a r'.
Proof. intros H. unfold OwnerSearch.bind. rewrite H. reflexivity. Qed.

Lemma search_read_ubyte (s : BytesIO.t) (info : list value)
      (out : list OwnerSearch.line) (b : byte) (rest : bytes) :
  BytesIO.remaining s = b :: rest ->
  OwnerSearch.read_ubyte (OwnerSearch.mk s info out)
  = (Ok (u8 b), OwnerSearch.mk (advance 1 s) info out).
Proof.
  intros H.
  apply (tracks_ok _ _ (OwnerSearch.mk s info out) _ _ tracks_read_ubyte).
  exact (read_ubyte_cons s b rest H).
Qed.

Lemma search_read_string (s : BytesIO.t) (info : list value)
      (out : list OwnerSearch.line) (text rest : bytes) :
  BytesIO.remaining s = len16 text ++ text ++ rest ->
  Z.of_nat (length text) < 65536 ->
  OwnerSearch.read_string (OwnerSearch.mk s info out)
  = (Ok (Utf8.decode_replace text),
     OwnerSearch.mk (advance (2 + length text) s) info out).
Proof.
  intros H L.
  apply (tracks_ok _ _ (OwnerSearch.mk s info out) _ _ tracks_read_string).
  apply (read_string_app s _ _ text rest H). apply len16_value. exact L.
Qed.

Lemma string_entries_cons (nb vb : bytes) (entries : list (bytes * bytes))
      (rest : bytes) :
  flat_map string_entry ((nb, vb) :: entries) ++ rest
  = x08 :: len16 nb ++ nb ++ len16 vb ++ vb
    ++ flat_map string_entry entries ++ rest.
Proof.
  cbn [flat_map]. unfold string_entry at 1. cbn [fst snd].
  cbn [app]. rewrite <- !app_assoc. reflexivity.
Qed.

Lemma length_string_entries_cons (nb vb : bytes)
      (entries : list (bytes * bytes)) :
  length (flat_map string_entry ((nb, vb) :: entries))
  = (1 + (2 + length nb) + (2 + length vb)
     + length (flat_map string_entry entries))%nat.
Proof.
  cbn [flat_map]. unfold string_entry at 1. cbn [fst snd].
  cbn [length len16 app]. rewrite !length_app. cbn [length]. lia.
Qed.

Lemma search_bind_assoc {A B C} (m : OwnerSearch.P A)
      (k1 : A -> OwnerSearch.P B) (k2 : B -> OwnerSearch.P C)
      (r : OwnerSearch.reader) :
  OwnerSearch.bind (OwnerSearch.bind m k1) k2 r
  = OwnerSearch.bind m (fun a => OwnerSearch.bind (k1 a) k2) r.
Proof.
  unfold OwnerSearch.bind. destruct (m r) as [[a|e] r1]; reflexivity.
Qed.

Lemma search_print_step {B} (encodable : Z -> bool) (l : OwnerSearch.line)
      (k : unit -> OwnerSearch.P B) (s : BytesIO.t) (info : list value)
      (out : list OwnerSearch.line) :
  forallb encodable (OwnerSearch.text_of l) = true ->
  OwnerSearch.bind (OwnerSearch.print encodable l) k
    (OwnerSearch.mk s info out)
  = k tt (OwnerSearch.mk s info (out ++ [l])).
Proof.
  intros H. unfold OwnerSearch.bind, OwnerSearch.print. rewrite H.
  reflexivity.
Qed.

Lemma search_print_fails {B} (encodable : Z -> bool) (l : OwnerSearch.line)
      (k : unit -> OwnerSearch.P B) (r : OwnerSearch.reader) :
  forallb encodable (OwnerSearch.text_of l) = false ->
  OwnerSearch.bind (OwnerSearch.print encodable l) k r
  = (Raise UnicodeEncodeError, r).
Proof.
  intros H. unfold OwnerSearch.bind, OwnerSearch.print. rewrite H.
  reflexivity.
Qed.

Lemma search_append_step {B} (entry : value)
      (k : unit -> OwnerSearch.P B) (s : BytesIO.t) (info : list value)
      (out : list OwnerSearch.line) :
  OwnerSearch.bind (OwnerSearch.append entry) k (OwnerSearch.mk s info out)
  = k tt (OwnerSearch.mk s (info ++ [entry]) out).
Proof. reflexivity. Qed.

Lemma search_skip_string (b : nat) (s : BytesIO.t) (info : list value)
      (out : list OwnerSearch.line) (text rest : bytes) :
  BytesIO.remaining s = len16 text ++ text ++ rest ->
  Z.of_nat (length text) < 65536 ->
  OwnerSearch.skip_tag (S b) 8 (OwnerSearch.mk s info out)
  = (Ok tt, OwnerSearch.mk (advance (2 + length text) s) info out).
Proof.
  intros H L.
  apply (tracks_ok _ _ (OwnerSearch.mk s info out) _ _
           (tracks_skip_tag (S b) 8)).
  cbn [FindOwner.skip_tag]. unfold FindOwner.skip_tag_with.
  cbn [Z.eqb Pos.eqb]. cbn [OwnerSearch.stream].
  rewrite (bind_ok _ _ _ _ _
             (read_string_app s _ _ text rest H (len16_value text L))).
  reflexivity.
Qed.

(** ** The loop counter of the search

    Every turn of the loop of [search_compound] reads a type byte, so the
    loop ends before its counter does: any counter above the number of
    bytes left gives the same run. *)

Lemma search_progress_left (lower : str -> str) (r r' : OwnerSearch.reader) :
  search_progress lower r r' ->
  (left (OwnerSearch.stream r') <= left (OwnerSearch.stream r))%nat.
Proof.
  intros [[k [_ S]] _]. rewrite S, left_advance. lia.
Qed.

Lemma search_bind_ext_from {A B} (lower : str -> str) (m : OwnerSearch.P A)
      (k1 k2 : A -> OwnerSearch.P B) (r : OwnerSearch.reader) :
  progresses lower m ->
  (forall a r', search_progress lower r r' -> k1 a r' = k2 a r') ->
  OwnerSearch.bind m k1 r = OwnerSearch.bind m k2 r.
Proof.
  intros Hm H. unfold OwnerSearch.bind. specialize (Hm r).
  destruct (m r) as [[a|e] r1]; [apply H; exact Hm | reflexivity].
Qed.

Lemma search_loop_turns (lower : str -> str) (budget : nat -> nat)
  (encodable : Z -> bool)
      (deeper : OwnerSearch.P unit) (depth : nat) :
  progresses lower deeper ->
  forall (turns1 turns2 : nat) (r : OwnerSearch.reader),
    (left (OwnerSearch.stream r) < turns1)%nat ->
    (left (OwnerSearch.stream r) < turns2)%nat ->
    OwnerSearch.search_loop lower budget encodable deeper depth turns1 r
    = OwnerSearch.search_loop lower budget encodable deeper depth turns2 r.
Proof.
  intros Hd. induction turns1 as [|t1 IH]; intros t2 r H1 H2; [lia|].
  destruct t2 as [|t2]; [lia|]. cbn [OwnerSearch.search_loop].
  pose proof (tracks_read_ubyte r) as T.
  destruct (read_ubyte (OwnerSearch.stream r)) as [[t s1]|e] eqn:E.
  - apply read_ubyte_ok in E as [Hl ->].
    rewrite !(search_bind_ok _ _ _ _ _ T).
    destruct (t =? 0); [reflexivity|].
    apply (search_bind_ext_from lower); [apply progresses_read_string|].
    intros name r2 P2. apply search_progress_left in P2.
    unfold with_stream in P2. cbn [OwnerSearch.stream] in P2.
    rewrite left_advance in P2.
    apply (search_bind_ext_from lower).
    { destruct (OwnerSearch.owner_related lower name) eqn:O.
      + apply progresses_bind; [apply progresses_print|]. intros _.
        apply progresses_if.
        * apply progresses_bind; [apply progresses_read_string|]. intros v.
          apply progresses_bind; [apply progresses_print|]. intros _.
          apply progresses_append. exists name, (VStr v).
          split; [reflexivity|]. split; [exact O|]. left. eexists.
          reflexivity.
        * apply progresses_if; [|apply progresses_skip_tag].
          apply progresses_bind.
          { apply progresses_if; apply progresses_read_fixed. }
          intros v.
          apply progresses_bind; [apply progresses_print|]. intros _.
          apply progresses_append. exists name, (VInt v).
          split; [reflexivity|]. split; [exact O|]. right. eexists.
          reflexivity.
      + apply progresses_if; [|apply progresses_skip_tag].
        apply progresses_if; [exact Hd | apply progresses_skip_compound]. }
    intros _ r3 P3. apply search_progress_left in P3.
    apply IH; lia.
  - destruct T as [s' T]. unfold OwnerSearch.bind. rewrite T. reflexivity.
Qed.

(** ** Documents of String entries *)

Section Strings.

Variable lower : str -> str.
Variable budget : nat -> nat.
Variable encodable : Z -> bool.

(** The loop of [search_compound] over a run of String entries that can be
    printed: it records and prints the owner-related ones and goes on
    behind the run. *)
Lemma search_loop_strings (deeper : OwnerSearch.P unit) (depth : nat)
      (entries : list (bytes * bytes)) :
  (0 < budget depth)%nat ->
  Forall (fun entry => Z.of_nat (length (fst entry)) < 65536 /\
                       Z.of_nat (length (snd entry)) < 65536) entries ->
  Forall (printable_entry lower encodable) entries ->
  forall (turns : nat) (s : BytesIO.t) (info : list value)
         (out : list OwnerSearch.line) (rest : bytes),
  BytesIO.remaining s = flat_map string_entry entries ++ rest ->
  OwnerSearch.search_loop lower budget encodable deeper depth
    (length entries + turns) (OwnerSearch.mk s info out)
  = OwnerSearch.search_loop lower budget encodable deeper depth turns
      (OwnerSearch.mk
         (advance (length (flat_map string_entry entries)) s)
         (info ++ owners_among lower entries)
         (out ++ lines_among lower depth entries)).
Proof.
  intros Hb HF. induction HF as [|[nb vb] entries [Ln Lv] HF IH];
    intros HP turns s info out rest H.
  - simpl. rewrite advance_0, !app_nil_r. reflexivity.
  - inversion HP as [|e es HP1 HP2]; subst. specialize (IH HP2).
    cbn [length Nat.add OwnerSearch.search_loop].
    rewrite string_entries_cons in H.
    rewrite (search_bind_ok _ _ _ _ _ (search_read_ubyte s info out _ _ H)).
    change (u8 x08 =? 0) with false. cbv iota.
    assert (H1 : BytesIO.remaining (advance 1 s)
                 = len16 nb ++ nb ++ len16 vb ++ vb
                   ++ flat_map string_entry entries ++ rest).
    { rewrite remaining_advance, H. reflexivity. }
    simpl in Ln, Lv.
    rewrite (search_bind_ok _ _ _ _ _
               (search_read_string _ info out nb _ H1 Ln)).
    rewrite advance_advance.
    assert (H2 : BytesIO.remaining (advance (1 + (2 + length nb)) s)
                 = len16 vb ++ vb
                   ++ flat_map string_entry entries ++ rest).
    { rewrite <- advance_advance.
      change (len16 nb ++ nb ++ len16 vb ++ vb
              ++ flat_map string_entry entries ++ rest)
        with ((byte_of (Z.of_nat (length nb) / 256)
               :: byte_of (Z.of_nat (length nb)) :: nb)
              ++ len16 vb ++ vb
              ++ flat_map string_entry entries ++ rest) in H1.
      rewrite <- (remaining_advance_app _ _ _ H1). reflexivity. }
    assert (H3 : BytesIO.remaining
                   (advance (1 + (2 + length nb) + (2 + length vb)) s)
                 = flat_map string_entry entries ++ rest).
    { rewrite <- advance_advance.
      change (len16 vb ++ vb ++ flat_map string_entry entries ++ rest)
        with ((byte_of (Z.of_nat (length vb) / 256)
               :: byte_of (Z.of_nat (length vb)) :: vb)
              ++ flat_map string_entry entries ++ rest) in H2.
      rewrite <- (remaining_advance_app _ _ _ H2). reflexivity. }
    rewrite length_string_entries_cons.
    rewrite <- (advance_advance (1 + (2 + length nb) + (2 + length vb))).
    unfold owners_among, lines_among. cbn [flat_map fst snd]. cbv zeta.
    fold (owners_among lower entries). fold (lines_among lower depth entries).
    unfold printable_entry in HP1. cbn [fst snd] in HP1.
    destruct (OwnerSearch.owner_related lower (Utf8.decode_replace nb)) eqn:E.
    + destruct (HP1 eq_refl) as [En Ev].
      rewrite search_bind_assoc, (search_print_step encodable) by exact En.
      cbv beta. change (u8 x08 =? 8) with true. cbv iota.
      rewrite search_bind_assoc.
      rewrite (search_bind_ok _ _ _ _ _
                 (search_read_string _ info _ vb _ H2 Lv)).
      cbv beta.
      rewrite search_bind_assoc, (search_print_step encodable) by exact Ev.
      cbv beta. rewrite search_append_step. rewrite advance_advance.
      rewrite (IH turns _ _ _ rest H3).
      rewrite <- !app_assoc. reflexivity.
    + change (u8 x08 =? 10) with false. cbv iota.
      destruct (budget depth) as [|b] eqn:Eb; [lia|].
      change (u8 x08) with 8.
      rewrite (search_bind_ok _ _ _ _ _
                 (search_skip_string b _ info out vb _ H2 Lv)).
      rewrite advance_advance.
      rewrite (IH turns _ _ _ rest H3). reflexivity.
Qed.

End Strings.

Lemma length_string_entries (entries : list (bytes * bytes)) :
  (length entries <= length (flat_map string_entry entries))%nat.
Proof.
  induction entries as [|[nb vb] entries IH]; [simpl; lia|].
  rewrite length_string_entries_cons. simpl. lia.
Qed.

Section StringDocuments.

Variable lower : str -> str.
Variable budget : nat -> nat.
Variable encodable : Z -> bool.

Lemma length_string_document (root_name : bytes)
      (entries : list (bytes * bytes)) (tail : bytes) :
  length (string_document root_name entries tail)
  = (1 + (2 + length root_name)
     + length (flat_map string_entry entries) + length tail)%nat.
Proof.
  unfold string_document. cbn [length len16 app].
  rewrite !length_app. lia.
Qed.

(** [search_for_owners] on such a document, up to the loop over what
    follows [entries]. *)
Lemma search_string_document (root_name : bytes)
      (entries : list (bytes * bytes)) (tail : bytes) :
  (0 < budget 0%nat)%nat ->
  Z.of_nat (length root_name) < 65536 ->
  Forall (fun entry => Z.of_nat (length (fst entry)) < 65536 /\
                       Z.of_nat (length (snd entry)) < 65536) entries ->
  forallb encodable (Utf8.decode_replace root_name) = true ->
  Forall (printable_entry lower encodable) entries ->
  let data := string_document root_name entries tail in
  OwnerSearch.search_for_owners lower budget encodable (OwnerSearch.new data)
  = OwnerSearch.try
      (OwnerSearch.try
         (OwnerSearch.search_loop lower budget encodable
            (OwnerSearch.search_compound lower budget encodable 1 20) 0%nat
            (S (length tail)))
         (fun e => OwnerSearch.print encodable (OwnerSearch.SearchEnded e)))
      (fun e => OwnerSearch.print encodable (OwnerSearch.ErrorDuringSearch e))
      (OwnerSearch.mk
         (BytesIO.mk data (length data - length tail))
         (owners_among lower entries)
         (OwnerSearch.RootTag (Utf8.decode_replace root_name)
            :: lines_among lower 0 entries)).
Proof.
  intros Hb Hr HF Er HP data.
  assert (H0 : BytesIO.remaining (BytesIO.open data)
               = x0a :: len16 root_name ++ root_name
                 ++ flat_map string_entry entries ++ tail) by reflexivity.
  set (s0 := BytesIO.open data) in *.
  unfold OwnerSearch.search_for_owners, OwnerSearch.new. fold s0.
  unfold OwnerSearch.try at 1 3.
  rewrite (search_bind_ok _ _ _ _ _ (search_read_ubyte s0 [] [] _ _ H0)).
  change (negb (u8 x0a =? 10)) with false. cbv iota.
  assert (H1 : BytesIO.remaining (advance 1 s0)
               = len16 root_name ++ root_name
                 ++ flat_map string_entry entries ++ tail).
  { rewrite remaining_advance, H0. reflexivity. }
  rewrite (search_bind_ok _ _ _ _ _
             (search_read_string _ [] [] root_name _ H1 Hr)).
  rewrite advance_advance, (search_print_step encodable) by exact Er.
  rewrite search_compound_eq. change (20 <? 0)%nat with false. cbv iota.
  change (0 =? 0)%nat with true. cbv iota.
  unfold OwnerSearch.try at 1 2. cbn [OwnerSearch.stream].
  assert (H2 : BytesIO.remaining (advance (1 + (2 + length root_name)) s0)
               = flat_map string_entry entries ++ tail).
  { rewrite <- advance_advance.
    change (len16 root_name ++ root_name
            ++ flat_map string_entry entries ++ tail)
      with ((byte_of (Z.of_nat (length root_name) / 256)
             :: byte_of (Z.of_nat (length root_name)) :: root_name)
            ++ flat_map string_entry entries ++ tail) in H1.
    rewrite <- (remaining_advance_app _ _ _ H1). reflexivity. }
  set (s1 := advance (1 + (2 + length root_name)) s0) in *.
  assert (Hl : (S (left s1)
                = length entries
                  + (S (left s1) - length entries))%nat).
  { rewrite (left_remaining _ _ H2), length_app.
    pose proof (length_string_entries entries). lia. }
  rewrite Hl.
  rewrite (search_loop_strings lower budget encodable _ 0 entries Hb HF HP
             _ s1 [] _ tail H2).
  cbn [app].
  assert (Hs : advance (length (flat_map string_entry entries)) s1
               = BytesIO.mk data (length data - length tail)).
  { unfold s1, s0. rewrite advance_advance.
    unfold advance, BytesIO.open. cbn [BytesIO.buf BytesIO.pos].
    f_equal. unfold data. rewrite length_string_document. lia. }
  rewrite Hs.
  rewrite (search_loop_turns lower budget encodable _ 0
             (progresses_search_compound_from lower budget encodable 4 1 20)
             (S (left s1) - length entries) (S (length tail))).
  - reflexivity.
  - cbn [OwnerSearch.stream]. rewrite <- Hs, left_advance.
    rewrite (left_remaining _ _ H2), length_app.
    pose proof (length_string_entries entries). lia.
  - cbn [OwnerSearch.stream]. rewrite <- Hs, left_advance.
    rewrite (left_remaining _ _ H2), length_app. lia.
Qed.


End StringDocuments.

Lemma string_document_app (root_name : bytes)
      (entries : list (bytes * bytes)) (tail rest : bytes) :
  string_document root_name entries tail ++ rest
  = string_document root_name entries (tail ++ rest).
Proof.
  unfold string_document. cbn [app]. rewrite <- !app_assoc. reflexivity.
Qed.

Lemma remaining_tail (root_name : bytes) (entries : list (bytes * bytes))
      (tail : bytes) :
  let data := string_document root_name entries tail in
  BytesIO.remaining (BytesIO.mk data (length data - length tail)) = tail.
Proof.
  intros data. unfold BytesIO.remaining. cbn [BytesIO.buf BytesIO.pos].
  assert (E : data = string_document root_name entries [] ++ tail)
    by (rewrite string_document_app; reflexivity).
  rewrite E, length_app, Nat.add_sub.
  rewrite skipn_app, skipn_all, Nat.sub_diag. reflexivity.
Qed.

(** X14.  On a document whose root compound holds String entries only,
    where standard output can encode the root name and the names and texts
    of the owner-related entries, [search_for_owners] records exactly the
    entries whose name, lowered, contains one of the four keywords, as
    [{name: text}] and in document order; it prints the root name and two
    lines for each of them, and stops right behind the End byte of the
    compound.  (Entries with other names are skipped by [skip_tag], which
    needs room for one call.) *)
Theorem search_finds_string_owners (lower : str -> str) (budget : nat -> nat)
  (encodable : Z -> bool)
  (root_name : bytes) (entries : list (bytes * bytes)) (rest : bytes)
  (Hb : (0 < budget 0%nat)%nat)
  (Hr : Z.of_nat (length root_name) < 65536)
  (HF : Forall (fun entry => Z.of_nat (length (fst entry)) < 65536 /\
                             Z.of_nat (length (snd entry)) < 65536) entries)
  (Er : forallb encodable (Utf8.decode_replace root_name) = true)
  (HP : Forall (printable_entry lower encodable) entries) :
  let document := string_document root_name entries [x00] in
  OwnerSearch.search_for_owners lower budget encodable
    (OwnerSearch.new (document ++ rest))
  = (Ok tt,
     OwnerSearch.mk (BytesIO.mk (document ++ rest) (length document))
       (owners_among lower entries)
       (OwnerSearch.RootTag (Utf8.decode_replace root_name)
          :: lines_among lower 0 entries)).
Proof.
  intros document. unfold document. rewrite string_document_app.
  cbn [app].
  rewrite (search_string_document lower budget encodable root_name entries
             (x00 :: rest) Hb Hr HF Er HP).
  pose proof (remaining_tail root_name entries (x00 :: rest)) as T.
  cbv zeta in T.
  set (data := string_document root_name entries (x00 :: rest)) in *.
  set (s := BytesIO.mk data (length data - length (x00 :: rest))) in *.
  unfold OwnerSearch.try. cbn [OwnerSearch.search_loop].
  rewrite (search_bind_ok _ _ _ _ _ (search_read_ubyte s _ _ _ _ T)).
  change (u8 x00 =? 0) with true. cbv iota.
  unfold OwnerSearch.ret. do 2 f_equal.
  unfold s, advance. cbn [BytesIO.buf BytesIO.pos]. f_equal.
  unfold data. rewrite !length_string_document. cbn [length]. lia.
Qed.

Lemma search_finds_string_owners_witness :
  OwnerSearch.search_for_owners (fun name => name) (fun _ => 1%nat)
    (fun c => c <? 128)
    (OwnerSearch.new
       (string_document []
          [([x6f; x77; x6e; x65; x72], [x41; x6c]); ([x69; x64], [xc3; xa9])]
          [x00] ++ [x2a]))
  = (Ok tt,
     OwnerSearch.mk
       (BytesIO.mk
          (string_document []
             [([x6f; x77; x6e; x65; x72], [x41; x6c]);
              ([x69; x64], [xc3; xa9])]
             [x00] ++ [x2a])
          (length
             (string_document []
                [([x6f; x77; x6e; x65; x72], [x41; x6c]);
                 ([x69; x64], [xc3; xa9])]
                [x00])))
       (owners_among (fun name => name)
          [([x6f; x77; x6e; x65; x72], [x41; x6c]); ([x69; x64], [xc3; xa9])])
       (OwnerSearch.RootTag (Utf8.decode_replace [])
          :: lines_among (fun name => name) 0
               [([x6f; x77; x6e; x65; x72], [x41; x6c]);
                ([x69; x64], [xc3; xa9])])).
Proof.
  apply (search_finds_string_owners (fun name => name) (fun _ => 1%nat)
           (fun c => c <? 128) []
           [([x6f; x77; x6e; x65; x72], [x41; x6c]); ([x69; x64], [xc3; xa9])]
           [x2a]).
  - lia.
  - simpl. lia.
  - repeat constructor; simpl; lia.
  - reflexivity.
  - constructor; [|constructor; [|constructor]].
    + intros _. split; reflexivity.
    + intros H. vm_compute in H. discriminate H.
Defined.

(** X18.  A line that standard output cannot encode ends the search.  In
    a document as before, let the first owner-related String entry whose
    name or text cannot be encoded follow the entries [before].  Then
    [print] raises inside the [try] of [search_compound], whose handler
    prints 'Search ended' and returns: nothing behind that entry is read,
    the entry itself is not recorded, and the cursor is left behind its
    name (when the name cannot be printed) or behind its text (when only
    the text cannot). *)
Theorem search_stops_at_unprintable (lower : str -> str)
  (budget : nat -> nat) (encodable : Z -> bool)
  (root_name : bytes) (before : list (bytes * bytes)) (name text rest : bytes)
  (Hb : (0 < budget 0%nat)%nat)
  (Hr : Z.of_nat (length root_name) < 65536)
  (HF : Forall (fun entry => Z.of_nat (length (fst entry)) < 65536 /\
                             Z.of_nat (length (snd entry)) < 65536) before)
  (Hn : Z.of_nat (length name) < 65536)
  (Ht : Z.of_nat (length text) < 65536)
  (Er : forallb encodable (Utf8.decode_replace root_name) = true)
  (HP : Forall (printable_entry lower encodable) before)
  (Ho : OwnerSearch.owner_related lower (Utf8.decode_replace name) = true) :
  let data :=
    string_document root_name before (string_entry (name, text) ++ rest) in
  let entry_at := length (string_document root_name before []) in
  (forallb encodable (Utf8.decode_replace name) = false ->
   OwnerSearch.search_for_owners lower budget encodable (OwnerSearch.new data)
   = (Ok tt,
      OwnerSearch.mk (BytesIO.mk data (entry_at + (1 + (2 + length name))))
        (owners_among lower before)
        (OwnerSearch.RootTag (Utf8.decode_replace root_name)
           :: lines_among lower 0 before
           ++ [OwnerSearch.SearchEnded UnicodeEncodeError]))) /\
  (forallb encodable (Utf8.decode_replace name) = true ->
   forallb encodable (Utf8.decode_replace text) = false ->
   OwnerSearch.search_for_owners lower budget encodable (OwnerSearch.new data)
   = (Ok tt,
      OwnerSearch.mk
        (BytesIO.mk data
           (entry_at + (1 + (2 + length name) + (2 + length text))))
        (owners_among lower before)
        (OwnerSearch.RootTag (Utf8.decode_replace root_name)
           :: lines_among lower 0 before
           ++ [OwnerSearch.Found 0 (Utf8.decode_replace name) 8;
               OwnerSearch.SearchEnded UnicodeEncodeError]))).
Proof.
  intros data entry_at.
  pose proof (search_string_document lower budget encodable root_name before
                (string_entry (name, text) ++ rest) Hb Hr HF Er HP) as D.
  cbv zeta in D. fold data in D.
  pose proof (remaining_tail root_name before
                (string_entry (name, text) ++ rest)) as T.
  cbv zeta in T. fold data in T.
  set (tail := string_entry (name, text) ++ rest) in *.
  set (s := BytesIO.mk data (length data - length tail)) in *.
  assert (T0 : BytesIO.remaining s
               = x08 :: len16 name ++ name ++ len16 text ++ text ++ rest).
  { rewrite T. unfold tail, string_entry. cbn [fst snd app].
    rewrite <- !app_assoc. reflexivity. }
  assert (T1 : BytesIO.remaining (advance 1 s)
               = len16 name ++ name ++ len16 text ++ text ++ rest).
  { rewrite remaining_advance, T0. reflexivity. }
  assert (T2 : BytesIO.remaining (advance (1 + (2 + length name)) s)
               = len16 text ++ text ++ rest).
  { rewrite <- advance_advance.
    change (len16 name ++ name ++ len16 text ++ text ++ rest)
      with ((byte_of (Z.of_nat (length name) / 256)
             :: byte_of (Z.of_nat (length name)) :: name)
            ++ len16 text ++ text ++ rest) in T1.
    rewrite <- (remaining_advance_app _ _ _ T1). reflexivity. }
  assert (Hs : forall k, advance k s = BytesIO.mk data (entry_at + k)).
  { intros k. unfold s, advance. cbn [BytesIO.buf BytesIO.pos]. f_equal.
    unfold entry_at, data. rewrite !length_string_document.
    cbn [length]. lia. }
  rewrite D. clear D.
  split.
  - intros En. unfold OwnerSearch.try. cbn [OwnerSearch.search_loop].
    rewrite (search_bind_ok _ _ _ _ _ (search_read_ubyte s _ _ _ _ T0)).
    change (u8 x08 =? 0) with false. cbv iota.
    rewrite (search_bind_ok _ _ _ _ _
               (search_read_string _ _ _ name _ T1 Hn)).
    rewrite Ho, advance_advance.
    rewrite !search_bind_assoc, (search_print_fails encodable) by exact En.
    unfold OwnerSearch.print. cbn [OwnerSearch.text_of forallb].
    cbn [OwnerSearch.stream OwnerSearch.player_info OwnerSearch.printed].
    rewrite Hs. reflexivity.
  - intros En Et. unfold OwnerSearch.try. cbn [OwnerSearch.search_loop].
    rewrite (search_bind_ok _ _ _ _ _ (search_read_ubyte s _ _ _ _ T0)).
    change (u8 x08 =? 0) with false. cbv iota.
    rewrite (search_bind_ok _ _ _ _ _
               (search_read_string _ _ _ name _ T1 Hn)).
    rewrite Ho, advance_advance.
    rewrite !search_bind_assoc, (search_print_step encodable) by exact En.
    change (u8 x08 =? 8) with true. cbv iota.
    rewrite !search_bind_assoc.
    rewrite (search_bind_ok _ _ _ _ _
               (search_read_string _ _ _ text _ T2 Ht)).
    rewrite advance_advance.
    rewrite !search_bind_assoc, (search_print_fails encodable) by exact Et.
    unfold OwnerSearch.print. cbn [OwnerSearch.text_of forallb].
    cbn [OwnerSearch.stream OwnerSearch.player_info OwnerSearch.printed].
    rewrite Hs. cbn [app]. rewrite <- app_assoc. reflexivity.
Qed.

Lemma search_stops_at_unprintable_witness :
  OwnerSearch.search_for_owners (fun name => name) (fun _ => 1%nat)
    (fun c => c <? 128)
    (OwnerSearch.new
       (string_document [] [([x69; x64], [x78])]
          (string_entry ([x6f; x77; x6e; x65; x72; xc3; xa9], [x41; x6c])
           ++ [x00])))
  = (Ok tt,
     OwnerSearch.mk
       (BytesIO.mk
          (string_document [] [([x69; x64], [x78])]
             (string_entry ([x6f; x77; x6e; x65; x72; xc3; xa9], [x41; x6c])
              ++ [x00]))
          (length (string_document [] [([x69; x64], [x78])] [])
           + (1 + (2 + length [x6f; x77; x6e; x65; x72; xc3; xa9]))))
       (owners_among (fun name => name) [([x69; x64], [x78])])
       (OwnerSearch.RootTag (Utf8.decode_replace [])
          :: lines_among (fun name => name) 0 [([x69; x64], [x78])]
          ++ [OwnerSearch.SearchEnded UnicodeEncodeError])).
Proof.
  apply (search_stops_at_unprintable (fun name => name) (fun _ => 1%nat)
           (fun c => c <? 128) [] [([x69; x64], [x78])]
           [x6f; x77; x6e; x65; x72; xc3; xa9] [x41; x6c] [x00]).
  - lia.
  - simpl. lia.
  - repeat constructor; simpl; lia.
  - simpl. lia.
  - simpl. lia.
  - reflexivity.
  - constructor; [|constructor].
    intros H. vm_compute in H. discriminate H.
  - reflexivity.
  - reflexivity.
Defined.

(** ** The readable strings of [mcc_reader.py] *)

Lemma analyze_binary_structure_eq (data : bytes) :
  MccReader.analyze_binary_structure data
  = scan_end (fold_left MccReader.scan data ([], [])).
Proof.
  unfold MccReader.analyze_binary_structure, scan_end.
  destruct (fold_left MccReader.scan data ([], [])). reflexivity.
Qed.

Lemma scan_end_long (strings : list str) (current : str) :
  scan_end (strings, current)
  = if long_run current then strings ++ [current] else strings.
Proof.
  unfold scan_end, long_run. cbn [fst snd].
  destruct current as [|c current]; [reflexivity|]. reflexivity.
Qed.

Lemma scan_eq (strings : list str) (current : str) (byte : byte) :
  MccReader.scan (strings, current) byte
  = if MccReader.printable byte then (strings, current ++ [u8 byte])
    else ((if long_run current then strings ++ [current] else strings), []).
Proof. reflexivity. Qed.

(** The strings found so far are only appended to. *)
Lemma scan_strings (data : bytes) :
  forall strings current,
    fold_left MccReader.scan data (strings, current)
    = (strings ++ fst (fold_left MccReader.scan data ([], current)),
       snd (fold_left MccReader.scan data ([], current))).
Proof.
  induction data as [|byte data IH]; intros strings current;
    cbn [fold_left].
  - cbn [fst snd]. rewrite app_nil_r. reflexivity.
  - rewrite !scan_eq.
    destruct (MccReader.printable byte).
    + apply IH.
    + destruct (long_run current).
      * rewrite (IH (strings ++ [current])), (IH ([] ++ [current])).
        cbn [fst snd app]. rewrite <- app_assoc. reflexivity.
      * apply IH.
Qed.

Lemma scan_end_app (pre : list str) (state : list str * str) :
  scan_end (pre ++ fst state, snd state) = pre ++ scan_end state.
Proof.
  destruct state as [strings c]. cbn [fst snd]. rewrite !scan_end_long.
  destruct (long_run c); [rewrite app_assoc|]; reflexivity.
Qed.

(** The scan of a run that starts in [current]. *)
Lemma scan_runs (data : bytes) :
  forall current,
    scan_end (fold_left MccReader.scan data ([], current))
    = match printable_runs data with
      | run :: runs => filter long_run ((current ++ run) :: runs)
      | [] => []
      end
    /\ printable_runs data <> [].
Proof.
  induction data as [|byte data IH]; intros current;
    cbn [fold_left printable_runs].
  - split; [|discriminate]. rewrite scan_end_long, app_nil_r.
    cbn [filter]. destruct (long_run current); reflexivity.
  - rewrite scan_eq.
    destruct (MccReader.printable byte); cbv iota.
    + destruct (IH (current ++ [u8 byte])) as [E N].
      destruct (printable_runs data) as [|run runs]; [contradiction|].
      split; [|discriminate]. etransitivity; [exact E|].
      replace ((current ++ [u8 byte]) ++ run) with (current ++ u8 byte :: run)
        by (rewrite <- app_assoc; reflexivity).
      reflexivity.
    + destruct (IH []) as [E N]. split; [|discriminate].
      rewrite scan_strings.
      etransitivity; [apply scan_end_app|].
      etransitivity; [apply f_equal; exact E|].
      destruct (printable_runs data) as [|run runs]; [contradiction|].
      rewrite app_nil_r. cbn [filter app].
      destruct (long_run current); reflexivity.
Qed.

(** A byte that is not printable ends the current string. *)
Lemma scan_cut (state : list str * str) (byte : byte) (behind : bytes) :
  MccReader.printable byte = false ->
  scan_end (fold_left MccReader.scan behind (MccReader.scan state byte))
  = scan_end state ++ scan_end (fold_left MccReader.scan behind ([], [])).
Proof.
  intros Hb. destruct state as [strings c].
  rewrite scan_eq, Hb, scan_strings.
  etransitivity; [apply scan_end_app|].
  rewrite (scan_end_long strings c). reflexivity.
Qed.

(** X15.  [analyze_binary_structure] returns, in the order of the data, the
    runs of printable bytes (32 to 126) that have four characters or more;
    a run ends at a byte that is not printable or at the end of the data. *)
Theorem readable_strings_are_long_runs (data : bytes) :
  MccReader.analyze_binary_structure data
  = filter long_run (printable_runs data).
Proof.
  rewrite analyze_binary_structure_eq.
  destruct (scan_runs data []) as [E N]. etransitivity; [exact E|].
  destruct (printable_runs data); [contradiction | reflexivity].
Qed.

(** X16.  A byte that is not printable cuts the data in two: the strings of
    the whole are those of the part before it followed by those of the part
    behind it, and no string reaches across. *)
Theorem readable_strings_split (before behind : bytes) (byte : byte)
  (Hb : MccReader.printable byte = false) :
  MccReader.analyze_binary_structure (before ++ byte :: behind)
  = MccReader.analyze_binary_structure before
    ++ MccReader.analyze_binary_structure behind.
Proof.
  rewrite !analyze_binary_structure_eq, fold_left_app. cbn [fold_left].
  apply scan_cut. exact Hb.
Qed.

Lemma readable_strings_split_witness :
  MccReader.analyze_binary_structure
    ([x4f; x77; x6e; x65; x72] ++ x00 :: [x69; x64; x0a; x41; x67; x65; x73])
  = MccReader.analyze_binary_structure [x4f; x77; x6e; x65; x72]
    ++ MccReader.analyze_binary_structure [x69; x64; x0a; x41; x67; x65; x73].
Proof.
  apply (readable_strings_split [x4f; x77; x6e; x65; x72]
           [x69; x64; x0a; x41; x67; x65; x73] x00).
  reflexivity.
Defined.

Lemma printable_bounds (byte : byte) :
  MccReader.printable byte = true -> 32 <= u8 byte <= 126.
Proof. unfold MccReader.printable. lia. Qed.

Lemma printable_runs_printable (data : bytes) :
  Forall (Forall (fun c => 32 <= c <= 126)) (printable_runs data).
Proof.
  induction data as [|byte data IH]; cbn [printable_runs].
  - repeat constructor.
  - destruct (MccReader.printable byte) eqn:E.
    + apply printable_bounds in E.
      destruct (printable_runs data) as [|run runs].
      * constructor; [|constructor]. constructor; [exact E | constructor].
      * inversion IH; subst. constructor; [constructor|]; assumption.
    + constructor; [constructor | exact IH].
Qed.

(** X17.  Every string returned has at least four characters, all of them
    printable ASCII. *)
Theorem readable_strings_printable (data : bytes) (s : str)
  (Hs : In s (MccReader.analyze_binary_structure data)) :
  (4 <= length s)%nat /\ Forall (fun c => 32 <= c <= 126) s.
Proof.
  rewrite analyze_binary_structure_eq in Hs.
  destruct (scan_runs data []) as [E N].
  assert (H : In s (filter long_run (printable_runs data))).
  { destruct (printable_runs data) as [|run runs]; [contradiction|].
    exact (eq_ind _ (In s) Hs _ E). }
  apply filter_In in H as [Hin Hl]. split.
  - unfold long_run in Hl. apply Nat.leb_le in Hl. exact Hl.
  - pose proof (printable_runs_printable data) as F.
    rewrite Forall_forall in F. exact (F s Hin).
Qed.

Lemma readable_strings_printable_witness :
  (4 <= length [79%Z; 119%Z; 110%Z; 101%Z; 114%Z])%nat /\
  Forall (fun c => 32 <= c <= 126) [79; 119; 110; 101; 114].
Proof.
  apply (readable_strings_printable
           [x00; x4f; x77; x6e; x65; x72; x00; x69; x64]).
  left. reflexivity.
Defined.
